(** * tarski: the first-order language registry of [tarski/fol.py]

    A shallow embedding of [FirstOrderLanguage]: the sort dictionary, the
    hierarchy edge set, the promotions table, the symbol namespaces and the
    operator dispatch table.  Every method is a state-passing computation
    that returns either a value or a raised exception, together with the
    language as the call left it.

    [fol.py] imports [Sort], [Interval], [Predicate], [Function],
    [Constant], [Variable] and [inclusion_closure] from [tarski.syntax] and
    its exceptions from [tarski.errors]; neither module is among the
    sources.  What is needed of them is modelled from the specification and
    marked so.  [inclusion_closure] is modelled as the set of ancestors, and
    [set_parent] is also given with the closure as a parameter
    ([set_parent_over]), for what holds whatever the closure does on a
    hierarchy with a cycle.

    The builtin predicate and function symbols of
    [tarski/syntax/builtins.py] are embedded as two enumerations with their
    tables and lists.  [is_builtin_predicate], [is_builtin_function] and
    [create_atom] of that file read attributes of the entities of
    [tarski.syntax], and [dump] and [check_well_formed] of [fol.py] call
    their methods: these five are not part of the model. *)

From Stdlib Require Import ZArith Ascii String List Bool Lia.
From Stdlib Require Import Floats.SpecFloat.
From stdpp Require Import base option list strings gmap pretty.

(** ** Python values and the two builtin conversions used as encoders *)

(** Python's binary64 [float], as the Standard Library's specification
    floats (sign, mantissa, exponent). *)
Definition prec : Z := 53.
Definition emax : Z := 1024.

(** The literal handed to [constant] is a [str] or an [int] object. *)
Inductive PyVal : Type :=
| PyStr (s : string)
| PyInt (z : Z).

(** What an encoder produces, and what interval bounds are made of. *)
Inductive PyNum : Type :=
| NInt (z : Z)
| NFloat (f : spec_float).

Module PyRuntime.

Local Open Scope Z_scope.

Definition code (c : ascii) : Z := Z.of_nat (nat_of_ascii c).

Definition ascii_of_code (n : Z) : ascii := ascii_of_nat (Z.to_nat n).

(** A [str] is written as the UTF-8 bytes of its code points; a byte
    sequence that encodes no [str] (an overlong form, a surrogate, a value
    above U+10FFFF, a stray byte) has no code points. *)
Definition continuation (c : ascii) : option Z :=
  let n := code c in
  if (128 <=? n) && (n <=? 191) then Some (n - 128) else None.

Fixpoint code_points (l : list ascii) : option (list Z) :=
  match l with
  | [] => Some []
  | b0 :: r =>
      let n := code b0 in
      if n <? 128 then cons n <$> code_points r
      else if (194 <=? n) && (n <=? 223)
      then match r with
           | b1 :: r1 =>
               match continuation b1 with
               | Some x1 => cons ((n - 192) * 64 + x1) <$> code_points r1
               | None => None
               end
           | _ => None
           end
      else if (224 <=? n) && (n <=? 239)
      then match r with
           | b1 :: b2 :: r2 =>
               match continuation b1, continuation b2 with
               | Some x1, Some x2 =>
                   let cp := ((n - 224) * 64 + x1) * 64 + x2 in
                   if (2048 <=? cp) && negb ((55296 <=? cp) && (cp <=? 57343))
                   then cons cp <$> code_points r2
                   else None
               | _, _ => None
               end
           | _ => None
           end
      else if (240 <=? n) && (n <=? 244)
      then match r with
           | b1 :: b2 :: b3 :: r3 =>
               match continuation b1, continuation b2, continuation b3 with
               | Some x1, Some x2, Some x3 =>
                   let cp := (((n - 240) * 64 + x1) * 64 + x2) * 64 + x3 in
                   if (65536 <=? cp) && (cp <=? 1114111)
                   then cons cp <$> code_points r3
                   else None
               | _, _, _ => None
               end
           | _ => None
           end
      else None
  end.

(** [Py_UNICODE_ISSPACE] on the code points from 127 on. *)
Definition is_unicode_space (c : Z) : bool :=
  (c =? 133) || (c =? 160) || (c =? 5760)
  || ((8192 <=? c) && (c <=? 8202))
  || (c =? 8232) || (c =? 8233) || (c =? 8239) || (c =? 8287)
  || (c =? 12288).

(** The code points of the digits zero of Unicode 14.0.0, that of Python
    3.11; the nine code points after each are its digits one to nine. *)
Definition decimal_zeros : list Z :=
  [
    48; 1632; 1776; 1984; 2406; 2534; 2662; 2790; 2918; 3046; 3174; 3302;
    3430; 3558; 3664; 3792; 3872; 4160; 4240; 6112; 6160; 6470; 6608;
    6784; 6800; 6992; 7088; 7232; 7248; 42528; 43216; 43264; 43472; 43504;
    43600; 44016; 65296; 66720; 68912; 69734; 69872; 69942; 70096; 70384;
    70736; 70864; 71248; 71360; 71472; 71904; 72016; 72784; 73040; 73120;
    92768; 92864; 93008; 120782; 120792; 120802; 120812; 120822; 123200;
    123632; 125264; 130032 ].

(** [Py_UNICODE_TODECIMAL] *)
Definition decimal (c : Z) : option Z :=
  match find (λ z, (z <=? c) && (c <=? z + 9)) decimal_zeros with
  | Some z => Some (c - z)
  | None => None
  end.

(** [_PyUnicode_TransformDecimalAndSpaceToASCII] on a [str] that is not
    all ASCII: a space becomes [' '], a decimal digit its ASCII digit, and
    the first other code point from 127 on becomes ['?'] and ends the
    text. *)
Fixpoint transform (l : list Z) : list ascii :=
  match l with
  | [] => []
  | c :: r =>
      if c <? 127 then ascii_of_code c :: transform r
      else if is_unicode_space c then " "%char :: transform r
      else match decimal c with
           | Some d => ascii_of_code (48 + d) :: transform r
           | None => ["?"%char]
           end
  end.

(** The text [int] and [float] parse: the [str] itself when it is all
    ASCII, its transform otherwise. *)
Definition ascii_text (s : string) : option (list ascii) :=
  match code_points (list_ascii_of_string s) with
  | Some cps =>
      Some (if forallb (λ c, c <? 128) cps
            then list_ascii_of_string s
            else transform cps)
  | None => None
  end.

(** [Py_ISSPACE]: the whitespace [int] and [float] skip at both ends. *)
Definition is_space (c : ascii) : bool :=
  let n := code c in
  (n =? 32) || ((9 <=? n) && (n <=? 13)).

Definition digit_val (c : ascii) : option Z :=
  let n := code c in
  if (48 <=? n) && (n <=? 57) then Some (n - 48) else None.

Definition is_digit (c : ascii) : bool :=
  match digit_val c with Some _ => true | None => false end.

Fixpoint lstrip (l : list ascii) : list ascii :=
  match l with
  | c :: r => if is_space c then lstrip r else l
  | [] => []
  end.

Definition strip (l : list ascii) : list ascii :=
  rev (lstrip (rev (lstrip l))).

Definition sign (l : list ascii) : bool * list ascii :=
  match l with
  | "-"%char :: r => (true, r)
  | "+"%char :: r => (false, r)
  | _ => (false, l)
  end.

(** The rest of a digit run: more digits, each optionally preceded by one
    underscore.  Returns the accumulated value, the number of digits read
    and the unread input. *)
Fixpoint digits_rest (acc : Z) (cnt : Z) (l : list ascii)
  : Z * Z * list ascii :=
  match l with
  | c :: r =>
      match digit_val c with
      | Some d => digits_rest (10 * acc + d) (cnt + 1) r
      | None =>
          if Ascii.eqb c "_"
          then match r with
               | c' :: _ => if is_digit c' then digits_rest acc cnt r
                            else (acc, cnt, l)
               | [] => (acc, cnt, l)
               end
          else (acc, cnt, l)
      end
  | [] => (acc, cnt, [])
  end.

(** [digitpart ::= digit (["_"] digit)*] *)
Definition digitpart (l : list ascii) : option (Z * Z * list ascii) :=
  match l with
  | c :: r =>
      match digit_val c with
      | Some d => Some (digits_rest d 1 r)
      | None => None
      end
  | [] => None
  end.

(** [sys.int_info.default_max_str_digits]: the number of digits, the
    underscores not counted, above which [int] refuses a decimal text. *)
Definition int_max_str_digits : Z := 4300.

(** [PyLong_FromString] in base 10 on the text. *)
Definition int_of_text (text : list ascii) : option Z :=
  let '(neg, l) := sign (strip text) in
  match digitpart l with
  | Some (v, cnt, []) =>
      if cnt <=? int_max_str_digits then Some (if neg then - v else v)
      else None
  | _ => None
  end.

(** [int(s)] for a [str] in base 10; [None] stands for [ValueError]. *)
Definition int_of_str (s : string) : option Z :=
  match ascii_text s with
  | Some text => int_of_text text
  | None => None
  end.

(** [int(x)] *)
Definition py_int (x : PyVal) : option PyNum :=
  match x with
  | PyInt z => Some (NInt z)
  | PyStr s => NInt <$> int_of_str s
  end.

(** The binary64 nearest to [(-1)^neg * m * 10^k], ties to even.  For a
    negative [k] the quotient is computed to more than 60 bits with a
    sticky last bit, which rounds as the exact quotient does. *)
Definition float_of_decimal (neg : bool) (m k : Z) : spec_float :=
  if m <=? 0 then S754_zero neg
  else if 0 <=? k
  then binary_normalize prec emax (cond_Zopp neg (m * 10 ^ k)) 0 neg
  else
    let d := 10 ^ (- k) in
    let s := Z.log2 d + 64 in
    let q := (m * 2 ^ s) / d in
    let r := (m * 2 ^ s) mod d in
    let sticky := if r =? 0 then 0 else 1 in
    binary_normalize prec emax (cond_Zopp neg (2 * q + sticky)) (- s - 1) neg.

Definition lower (c : ascii) : ascii :=
  let n := code c in
  if (65 <=? n) && (n <=? 90) then ascii_of_nat (Z.to_nat (n + 32)) else c.

Definition is_word (w : string) (l : list ascii) : bool :=
  if decide (map lower l = list_ascii_of_string w) then true else false.

Definition opt_digitpart (l : list ascii) : Z * Z * list ascii :=
  match digitpart l with
  | Some r => r
  | None => (0, 0, l)
  end.

(** The decimal exponent, if one is written, and nothing after it. *)
Definition exponent (l : list ascii) : option Z :=
  match l with
  | [] => Some 0
  | c :: r =>
      if Ascii.eqb (lower c) "e"
      then let '(neg, r') := sign r in
           match digitpart r' with
           | Some (v, _, []) => Some (if neg then - v else v)
           | _ => None
           end
      else None
  end.

(** [PyFloat_FromString] on the text. *)
Definition float_of_text (text : list ascii) : option spec_float :=
  let '(neg, l) := sign (strip text) in
  if is_word "inf" l || is_word "infinity" l then Some (S754_infinity neg)
  else if is_word "nan" l then Some S754_nan
  else
    let '(ip, icnt, l1) := opt_digitpart l in
    let '(fp, fcnt, l2) :=
      match l1 with
      | "."%char :: r => opt_digitpart r
      | _ => (0, 0, l1)
      end in
    if icnt + fcnt =? 0 then None
    else match exponent l2 with
         | Some e => Some (float_of_decimal neg (ip * 10 ^ fcnt + fp) (e - fcnt))
         | None => None
         end.

(** [float(s)] for a [str]; [None] stands for [ValueError]. *)
Definition float_of_str (s : string) : option spec_float :=
  match ascii_text s with
  | Some text => float_of_text text
  | None => None
  end.

(** [float(x)]; an [int] too large for a binary64 raises [OverflowError],
    which is [None] here as well. *)
Definition py_float (x : PyVal) : option PyNum :=
  match x with
  | PyInt z =>
      match binary_normalize prec emax z 0 false with
      | S754_infinity _ => None
      | f => Some (NFloat f)
      end
  | PyStr s => NFloat <$> float_of_str s
  end.

(** [a <= b] between numbers; an [int] and a [float] compare by exact
    value. *)
Definition int_le_float (a : Z) (f : spec_float) : bool :=
  match f with
  | S754_nan => false
  | S754_infinity s => negb s
  | S754_zero _ => a <=? 0
  | S754_finite s m e =>
      let v := cond_Zopp s (Z.pos m) in
      if 0 <=? e then a <=? v * 2 ^ e else a * 2 ^ (- e) <=? v
  end.

Definition float_le_int (f : spec_float) (b : Z) : bool :=
  match f with
  | S754_nan => false
  | S754_infinity s => s
  | S754_zero _ => 0 <=? b
  | S754_finite s m e =>
      let v := cond_Zopp s (Z.pos m) in
      if 0 <=? e then v * 2 ^ e <=? b else v <=? b * 2 ^ (- e)
  end.

Definition py_le (a b : PyNum) : bool :=
  match a, b with
  | NInt x, NInt y => x <=? y
  | NFloat x, NFloat y => SFleb x y
  | NInt x, NFloat y => int_le_float x y
  | NFloat x, NInt y => float_le_int x y
  end.

End PyRuntime.

Import PyRuntime.

(** ** Entities of [tarski.syntax] *)

(** The identity of a [FirstOrderLanguage] instance, the subject of the
    [is self] and [!= self] tests. *)
Abbreviation lang_id := nat.

(** The two encoders [fol.py] passes to [Interval]. *)
Inductive encoder : Type :=
| EncFloat   (* lambda x: float(x) *)
| EncInt.    (* lambda x: int(x) *)

Definition encode (e : encoder) (x : PyVal) : option PyNum :=
  match e with
  | EncFloat => py_float x
  | EncInt => py_int x
  end.

(** The bounds and the encoder an [Interval] is given. *)
Record Bounds : Type := mkBounds {
  lower_bound : PyNum;
  upper_bound : PyNum;
  encode_fn : encoder
}.

(** Modelled from the spec: the class [Sort] and its subclass [Interval],
    which [tarski.syntax] defines.  "Sort: identity = name (unique within a
    Language). Attributes: optional bounds (lower, upper) and a cast
    function when it is an interval sort; a builtin flag; a back-reference
    to its owning Language".  [Sort(name, language)] has no bounds and is
    not builtin. *)
Record Sort : Type := mkSort {
  sort_name : string;
  sort_language : lang_id;
  sort_builtin : bool;
  sort_interval : option Bounds
}.

(** [Interval(lower, upper, encode, name, language)], with the arguments in
    the order [fol.py] passes them. *)
Definition Interval (lb ub : PyNum) (enc : encoder) (name : string)
    (lang : lang_id) : Sort :=
  mkSort name lang false (Some (mkBounds lb ub enc)).

(** [s.builtin = b] *)
Definition set_builtin (b : bool) (s : Sort) : Sort :=
  mkSort (sort_name s) (sort_language s) b (sort_interval s).

(** What identifies a sort: its language and its name.  A Python set of
    sorts, or a dictionary keyed by sorts, is modelled by the set of these
    identities. *)
Abbreviation sort_id := (lang_id * string)%type.

Definition id_of (s : Sort) : sort_id := (sort_language s, sort_name s).

(** Modelled from the spec: equality of [Sort] handles ([==], and with it
    hashing), which [tarski.syntax] defines.  "Sort: identity = name
    (unique within a Language)": two handles are the same sort when they
    carry the same name and belong to the same instance. *)
Definition sort_eqb (s t : Sort) : bool :=
  bool_decide (id_of s = id_of t).

(** [x in xs] on a Python list of sorts. *)
Definition sort_in (s : Sort) (xs : list Sort) : bool :=
  existsb (sort_eqb s) xs.

(** Modelled from the spec: [Interval.cast], which [tarski.syntax] defines.
    "Rejection occurs when the literal cannot be interpreted as the target
    representation"; "bound checking against the interval's [lower, upper]
    is part of this contract".  The encoders are those of [fol.py]. *)
Definition cast (s : Sort) (x : PyVal) : option PyNum :=
  match sort_interval s with
  | Some b =>
      match encode (encode_fn b) x with
      | Some y =>
          if py_le (lower_bound b) y && py_le y (upper_bound b)
          then Some y else None
      | None => None
      end
  | None => None
  end.

(** Modelled from the spec: the class [Predicate], which [tarski.syntax]
    defines.  "Predicate: name (unique) + ordered sequence of argument
    sorts"; [Predicate(name, language, *sorts)]. *)
Record Predicate : Type := mkPredicate {
  pred_name : string;
  pred_language : lang_id;
  pred_sort : list Sort
}.

(** Modelled from the spec: the class [Function], which [tarski.syntax]
    defines.  "Function: name (unique) + ordered sequence of argument
    sorts"; [Function(name, language, *sorts)]. *)
Record Function : Type := mkFunction {
  func_name : string;
  func_language : lang_id;
  func_sort : list Sort
}.

(** Modelled from the spec: the class [Constant], which [tarski.syntax]
    defines.  "Constant: name + owning sort"; [Constant(name, sort)] holds
    the two arguments it is given. *)
Record Constant : Type := mkConstant {
  const_symbol : PyVal;
  const_sort : Sort
}.


(** Modelled from the spec: the class [Variable], which [tarski.syntax]
    defines.  "Variable: name + sort"; [Variable(name, sort)].  The class
    name is a reserved word here. *)
Record Variable_ : Type := mkVariable {
  var_symbol : string;
  var_sort : Sort
}.

Global Instance PyVal_eq_dec : EqDecision PyVal.
Proof. solve_decision. Defined.

Global Instance PyVal_countable : Countable PyVal.
Proof.
  refine (inj_countable'
            (λ v, match v with PyStr s => inl s | PyInt z => inr z end)
            (λ x, match x with inl s => PyStr s | inr z => PyInt z end) _).
  by intros [].
Defined.

(** ** Exceptions and results *)

(** Modelled from the spec: the exceptions of [tarski.errors], with the
    arguments [fol.py] raises them with (the message of a [LanguageError]
    or [SemanticError] is left out), and those of Python that the code can
    meet. *)
Inductive exn : Type :=
| DuplicateSortDefinition (name : string) (existing : Sort)
| DuplicatePredicateDefinition (name : string) (existing : Predicate)
| DuplicateFunctionDefinition (name : string) (existing : Function)
| DuplicateConstantDefinition (name : PyVal) (existing : Constant)
| UndefinedSort (name : string)
| UndefinedPredicate (name : string)
| UndefinedFunction (name : string)
| UndefinedConstant (name : PyVal)
| UndefinedElement (name : string)
| LanguageMismatch (obj : Sort) (owner this : lang_id)
| LanguageError
| SemanticError
| KeyError
| RecursionError
| OtherError (msg : string).

Inductive result (A : Type) : Type :=
| Ok (a : A)
| Raise (e : exn).
Arguments Ok {A} a.
Arguments Raise {A} e.

(** An operator handler: a callable of two domain values that returns or
    raises. *)
Abbreviation handler := (PyNum → PyNum → result PyNum).

(** ** The language *)

(** The attributes [__init__] assigns.  [self] is the identity of the
    instance.  [_element_containers] is left out: it maps the entity
    classes to the dictionaries below, the same objects, and is only read,
    by [_retrieve_object]. *)
Record FirstOrderLanguage : Type := mkLanguage {
  self : lang_id;
  name : string;
  _sorts : gmap string Sort;
  (* pairs of names of sorts, lhs is a subset of rhs *)
  _sort_hierarchy : gset (string * string);
  (* a defaultdict(set): a key read before it was written is created with
     the empty set; the members are sorts, kept by their identity *)
  _possible_promotions : gmap string (gset sort_id);
  _functions : gmap string Function;
  _predicates : gmap string Predicate;
  _constants : gmap PyVal Constant;
  _variables : list Variable_;
  (* keyed by the tuple (operator, t1, t2) *)
  _operators : gmap (string * sort_id * sort_id) handler;
  language_components_frozen : bool;
  theories : list string
}.

(** Assignments to one attribute. *)
Definition with_sorts (f : gmap string Sort → gmap string Sort)
    (L : FirstOrderLanguage) : FirstOrderLanguage :=
  mkLanguage (self L) (name L) (f (_sorts L)) (_sort_hierarchy L)
    (_possible_promotions L) (_functions L) (_predicates L) (_constants L)
    (_variables L) (_operators L) (language_components_frozen L) (theories L).

Definition with_sort_hierarchy
    (f : gset (string * string) → gset (string * string))
    (L : FirstOrderLanguage) : FirstOrderLanguage :=
  mkLanguage (self L) (name L) (_sorts L) (f (_sort_hierarchy L))
    (_possible_promotions L) (_functions L) (_predicates L) (_constants L)
    (_variables L) (_operators L) (language_components_frozen L) (theories L).

Definition with_possible_promotions
    (f : gmap string (gset sort_id) → gmap string (gset sort_id))
    (L : FirstOrderLanguage) : FirstOrderLanguage :=
  mkLanguage (self L) (name L) (_sorts L) (_sort_hierarchy L)
    (f (_possible_promotions L)) (_functions L) (_predicates L) (_constants L)
    (_variables L) (_operators L) (language_components_frozen L) (theories L).

Definition with_functions (f : gmap string Function → gmap string Function)
    (L : FirstOrderLanguage) : FirstOrderLanguage :=
  mkLanguage (self L) (name L) (_sorts L) (_sort_hierarchy L)
    (_possible_promotions L) (f (_functions L)) (_predicates L) (_constants L)
    (_variables L) (_operators L) (language_components_frozen L) (theories L).

Definition with_predicates (f : gmap string Predicate → gmap string Predicate)
    (L : FirstOrderLanguage) : FirstOrderLanguage :=
  mkLanguage (self L) (name L) (_sorts L) (_sort_hierarchy L)
    (_possible_promotions L) (_functions L) (f (_predicates L)) (_constants L)
    (_variables L) (_operators L) (language_components_frozen L) (theories L).

Definition with_constants (f : gmap PyVal Constant → gmap PyVal Constant)
    (L : FirstOrderLanguage) : FirstOrderLanguage :=
  mkLanguage (self L) (name L) (_sorts L) (_sort_hierarchy L)
    (_possible_promotions L) (_functions L) (_predicates L) (f (_constants L))
    (_variables L) (_operators L) (language_components_frozen L) (theories L).

Definition with_operators
    (f : gmap (string * sort_id * sort_id) handler
         → gmap (string * sort_id * sort_id) handler)
    (L : FirstOrderLanguage) : FirstOrderLanguage :=
  mkLanguage (self L) (name L) (_sorts L) (_sort_hierarchy L)
    (_possible_promotions L) (_functions L) (_predicates L) (_constants L)
    (_variables L) (f (_operators L)) (language_components_frozen L)
    (theories L).

(** ** Methods as state-passing computations

    A call takes the language as it is and returns what the call returned or
    raised, with the language as the call left it: an exception does not undo
    the assignments made before it. *)

Definition M (A : Type) : Type :=
  FirstOrderLanguage → result A * FirstOrderLanguage.

Global Instance M_ret : MRet M := λ A a L, (Ok a, L).

Global Instance M_bind : MBind M := λ A B k m L,
  match m L with
  | (Ok a, L') => k a L'
  | (Raise e, L') => (Raise e, L')
  end.

Definition raise {A : Type} (e : exn) : M A := λ L, (Raise e, L).

Definition get : M FirstOrderLanguage := λ L, (Ok L, L).

Definition modify (f : FirstOrderLanguage → FirstOrderLanguage) : M unit :=
  λ L, (Ok tt, f L).

(** [for x in xs: body(x)] *)
Fixpoint for_each {A : Type} (body : A → M unit) (xs : list A) : M unit :=
  match xs with
  | [] => mret tt
  | x :: rest => body x ;; for_each body rest
  end.

(** [[f(x) for x in xs]] *)
Fixpoint comprehension {A B : Type} (f : A → M B) (xs : list A) : M (list B) :=
  match xs with
  | [] => mret []
  | x :: rest => y ← f x; ys ← comprehension f rest; mret (y :: ys)
  end.

(** *** The inclusion closure of [tarski.syntax] *)

(** One round of following parent edges from a set of sort names. *)
Definition parents_step (E : gset (string * string)) (S : gset string)
    : gset string :=
  S ∪ set_map snd (filter (λ e, e.1 ∈ S) E).

(** A sort name and every name reached from it along the edges.  Each
    round that is not yet closed adds the target of some edge, so as many
    rounds as there are edges suffice ([ancestors_or_self_spec]). *)
Definition ancestors_or_self (E : gset (string * string)) (s : string)
    : gset string :=
  Nat.iter (size E) (parents_step E) {[ s ]}.

(** Modelled from the spec: [inclusion_closure], which [tarski.syntax]
    defines.  "Promotion / inclusion closure: the set of all transitive
    ancestors of a sort in the hierarchy graph", together with the sort
    itself ("[promotion_set(p) ∪ {p}] for each parent [p]").  The graph is
    that of the language the sort belongs to, read when the call is made. *)
Definition inclusion_closure (E : gset (string * string)) (s : Sort)
    : gset sort_id :=
  set_map (λ n, (sort_language s, n)) (ancestors_or_self E (sort_name s)).

(** *** Sorts *)

Definition has_sort (name : string) : M bool :=
  L ← get;
  mret (bool_decide (is_Some (_sorts L !! name))).

Definition get_sort (name : string) : M Sort :=
  present ← has_sort name;
  if negb present then raise (UndefinedSort name)
  else
    L ← get;
    match _sorts L !! name with
    | Some s => mret s
    | None => raise KeyError
    end.

(** [self._sorts[key]], the body of the properties [Object], [Real],
    [Integer] and [Natural]. *)
Definition sorts_item (key : string) : M Sort :=
  L ← get;
  match _sorts L !! key with
  | Some s => mret s
  | None => raise KeyError
  end.

Definition Object : M Sort := sorts_item "object".
Definition Real : M Sort := sorts_item "Real".
Definition Integer : M Sort := sorts_item "Integer".
Definition Natural : M Sort := sorts_item "Natural".

(** [self._possible_promotions[key]] on the defaultdict: a missing key is
    first stored with the empty set. *)
Definition promotions_item (key : string) : M (gset sort_id) :=
  L ← get;
  match _possible_promotions L !! key with
  | Some s => mret s
  | None => modify (with_possible_promotions <[ key := ∅ ]>) ;; mret ∅
  end.

(** The edge is added, then the promotion set of [lhs.name] is read from
    the defaultdict, then the closure of [rhs] is computed and added. *)
Definition set_parent (lhs rhs : Sort) : M unit :=
  L ← get;
  if negb (bool_decide (sort_language rhs = self L))
  then raise LanguageError
  else
    modify (with_sort_hierarchy
              (λ E, E ∪ {[ (sort_name lhs, sort_name rhs) ]})) ;;
    cur ← promotions_item (sort_name lhs);
    L' ← get;
    modify (with_possible_promotions
              <[ sort_name lhs :=
                   cur ∪ inclusion_closure (_sort_hierarchy L') rhs ]>).

(** How a call of [inclusion_closure] ends: it returns a set of sorts, it
    raises, or it does not return. *)
Inductive closure_outcome : Type :=
| Returns (found : gset sort_id)
| Raises (e : exn)
| Hangs.

(** [set_parent] with [inclusion_closure] as a parameter: a function of the
    language as the call finds it and of the sort it is given.  The edge is
    stored and the promotion set of [lhs.name] is read before the closure
    is called; when the closure raises, the exception leaves [set_parent]
    with the edge stored; when it does not return, neither does
    [set_parent], which is [None]. *)
Definition set_parent_over
    (closure : FirstOrderLanguage → Sort → closure_outcome)
    (lhs rhs : Sort) (L : FirstOrderLanguage)
    : option (result unit * FirstOrderLanguage) :=
  if negb (bool_decide (sort_language rhs = self L))
  then Some (Raise LanguageError, L)
  else
    let L1 := with_sort_hierarchy
                (λ E, E ∪ {[ (sort_name lhs, sort_name rhs) ]}) L in
    match promotions_item (sort_name lhs) L1 with
    | (Ok cur, L2) =>
        match closure L2 rhs with
        | Returns found =>
            Some (Ok tt,
                  with_possible_promotions
                    <[ sort_name lhs := cur ∪ found ]> L2)
        | Raises e => Some (Raise e, L2)
        | Hangs => None
        end
    | (Raise e, L2) => Some (Raise e, L2)
    end.

(** The closure [set_parent] is modelled with. *)
Definition total_closure (L : FirstOrderLanguage) (s : Sort)
    : closure_outcome :=
  Returns (inclusion_closure (_sort_hierarchy L) s).

(** [super_sorts] is [None] or a list of sorts.  The [append] extends the
    list of the caller in place, which the language does not hold. *)
Definition sort (name : string) (super_sorts : option (list Sort)) : M Sort :=
  present ← has_sort name;
  L ← get;
  if (present : bool)
  then match _sorts L !! name with
       | Some s => raise (DuplicateSortDefinition name s)
       | None => raise KeyError
       end
  else
    let sort := mkSort name (self L) false None in
    modify (with_sorts <[ name := sort ]>) ;;
    (* MRJ: setup promotions table *)
    osort ← get_sort "object";
    let super_sorts := default [] super_sorts in
    let super_sorts :=
      if negb (sort_in osort super_sorts)
      then super_sorts ++ [osort]
      else super_sorts in
    for_each (set_parent sort) super_sorts ;;
    mret sort.

(** *** The builtin sorts *)

(** The four sort objects the constructor creates for the instance [this].
    The attribute [pi] set on the reals is not part of the model. *)
Definition object_sort (this : lang_id) : Sort :=
  mkSort "object" this false None.

Definition real_sort (this : lang_id) : Sort :=
  set_builtin true
    (Interval (NFloat (float_of_decimal true 340282 33))
              (NFloat (float_of_decimal false 340282 33))
              EncFloat "Real" this).

Definition integer_sort (this : lang_id) : Sort :=
  set_builtin true
    (Interval (NInt (- (2 ^ 31 - 1))) (NInt (2 ^ 31 - 1))
              EncInt "Integer" this).

Definition natural_sort (this : lang_id) : Sort :=
  set_builtin true
    (Interval (NInt 0) (NInt (2 ^ 32 - 1)) EncInt "Natural" this).

Definition _build_the_objects : M unit :=
  L ← get;
  let sort := object_sort (self L) in
  modify (with_sorts <[ "object" := sort ]>).

Definition _build_the_reals : M unit :=
  L ← get;
  let the_reals := real_sort (self L) in
  modify (with_sorts <[ "Real" := the_reals ]>) ;;
  o ← Object;
  set_parent the_reals o.

Definition _build_the_integers : M unit :=
  L ← get;
  let the_ints := integer_sort (self L) in
  modify (with_sorts <[ "Integer" := the_ints ]>) ;;
  r ← Real;
  set_parent the_ints r.

Definition _build_the_naturals : M unit :=
  L ← get;
  let the_nats := natural_sort (self L) in
  modify (with_sorts <[ "Natural" := the_nats ]>) ;;
  i ← Integer;
  set_parent the_nats i.

Definition _build_builtin_sorts : M unit :=
  _build_the_objects ;;
  _build_the_reals ;;
  _build_the_integers ;;
  _build_the_naturals.

(** The attributes assigned by [__init__] before [_build_builtin_sorts]. *)
Definition blank (this : lang_id) (name : string) : FirstOrderLanguage :=
  mkLanguage this name ∅ ∅ ∅ ∅ ∅ ∅ [] ∅ false [].

(** [FirstOrderLanguage.__init__]: what the constructor returns or raises
    and the instance it leaves. *)
Definition __init__ (this : lang_id) (name : string)
    : result unit * FirstOrderLanguage :=
  _build_builtin_sorts (blank this name).

(** [language(name)], for the instance whose identity is [this]. *)
Definition language (this : lang_id) (name : string) : FirstOrderLanguage :=
  snd (__init__ this name).

(** *** Symbols *)

(** What a caller may hand over where a sort is expected: the name of a
    sort, a sort, or an object of another type. *)
Inductive PyObj : Type :=
| ObjStr (s : string)
| ObjSort (s : Sort)
| ObjOther.

(** [_retrieve_object(obj, Sort)]: every call in [fol.py] passes [Sort] as
    the type, whose container is [self._sorts]. *)
Definition _retrieve_object (obj : PyObj) : M Sort :=
  L ← get;
  match obj with
  | ObjOther => raise LanguageError
  | ObjSort s =>
      if negb (bool_decide (sort_language s = self L))
      then raise (LanguageMismatch s (sort_language s) (self L))
      else mret s
  | ObjStr n =>
      (* obj must be a string, which we take as the name of a language
         element *)
      match _sorts L !! n with
      | None => raise (UndefinedElement n)
      | Some s => mret s
      end
  end.

Definition variable (name : string) (sort : PyObj) : M Variable_ :=
  sort ← _retrieve_object sort;
  mret (mkVariable name sort).

Definition constant (name : PyVal) (sort : PyObj) : M Constant :=
  sort ← _retrieve_object sort;
  if sort_builtin sort
  then
    let actual := cast sort name in
    match actual with
    | Some _ => mret (mkConstant name sort)
    | None => raise SemanticError
    end
  else
    L ← get;
    match _constants L !! name with
    | Some c => raise (DuplicateConstantDefinition name c)
    | None =>
        modify (with_constants <[ name := mkConstant name sort ]>) ;;
        mret (mkConstant name sort)
    end.

Definition has_constant (name : PyVal) : M bool :=
  L ← get;
  mret (bool_decide (is_Some (_constants L !! name))).

Definition get_constant (name : PyVal) : M Constant :=
  present ← has_constant name;
  if negb present then raise (UndefinedConstant name)
  else
    L ← get;
    match _constants L !! name with
    | Some c => mret c
    | None => raise KeyError
    end.

Definition predicate (name : string) (args : list PyObj) : M Predicate :=
  L ← get;
  match _predicates L !! name with
  | Some p => raise (DuplicatePredicateDefinition name p)
  | None =>
      types ← comprehension _retrieve_object args;
      let predicate := mkPredicate name (self L) types in
      modify (with_predicates <[ name := predicate ]>) ;;
      mret predicate
  end.

Definition has_predicate (name : string) : M bool :=
  L ← get;
  mret (bool_decide (is_Some (_predicates L !! name))).

Definition get_predicate (name : string) : M Predicate :=
  present ← has_predicate name;
  if negb present then raise (UndefinedPredicate name)
  else
    L ← get;
    match _predicates L !! name with
    | Some p => mret p
    | None => raise KeyError
    end.

Definition function (name : string) (args : list PyObj) : M Function :=
  L ← get;
  match _functions L !! name with
  | Some f => raise (DuplicateFunctionDefinition name f)
  | None =>
      types ← comprehension _retrieve_object args;
      let func := mkFunction name (self L) types in
      modify (with_functions <[ name := func ]>) ;;
      mret func
  end.

Definition has_function (name : string) : M bool :=
  L ← get;
  mret (bool_decide (is_Some (_functions L !! name))).

Definition get_function (name : string) : M Function :=
  present ← has_function name;
  if negb present then raise (UndefinedFunction name)
  else
    L ← get;
    match _functions L !! name with
    | Some f => mret f
    | None => raise KeyError
    end.

(** *** Subtyping queries *)

Definition is_strict_subtype (t st : Sort) : M bool :=
  promotions ← promotions_item (sort_name t);
  mret (bool_decide (id_of st ∈ promotions)).

(** [t == st or self.is_strict_subtype(t, st)]: the right operand is
    evaluated only when the left one is false. *)
Definition is_subtype (t st : Sort) : M bool :=
  if sort_eqb t st then mret true else is_strict_subtype t st.

Definition are_vertically_related (t1 t2 : Sort) : M bool :=
  up ← is_subtype t1 t2;
  if (up : bool) then mret true else is_subtype t2 t1.

(** *** Operators *)

Definition register_operator_handler (operator : string) (t1 t2 : Sort)
    (h : handler) : M unit :=
  modify (with_operators <[ (operator, id_of t1, id_of t2) := h ]>).

(** The lookup and the call of the handler are both inside the [try]: a
    [KeyError] from either is turned into a [LanguageError]. *)
Definition dispatch_operator (operator : string) (t1 t2 : Sort)
    (lhs rhs : PyNum) : M PyNum :=
  L ← get;
  match _operators L !! (operator, id_of t1, id_of t2) with
  | None => raise LanguageError
  | Some h =>
      match h lhs rhs with
      | Ok v => mret v
      | Raise KeyError => raise LanguageError
      | Raise e => raise e
      end
  end.

(** *** The properties of the class *)

(** What consuming a generator gives: the items it yielded, then how it
    ended. *)
Definition iteration (A : Type) : Type := list A * result unit.

(** [for x in self._variables: yield x] *)
Definition variables (L : FirstOrderLanguage) : iteration Variable_ :=
  (_variables L, Ok tt).

(** [return self._sort_hierarchy] *)
Definition sort_hierarchy (L : FirstOrderLanguage) : gset (string * string) :=
  _sort_hierarchy L.

(** [for s in self.sorts: yield s]: the generator iterates a new generator
    of the same property, whose first step does the same.  [depth] is the
    number of Python stack frames still available; with none left the
    interpreter raises [RecursionError] in the innermost generator, and each
    enclosing [for] passes it on. *)
Fixpoint sorts (depth : nat) (L : FirstOrderLanguage) : iteration Sort :=
  match depth with
  | O => ([], Raise RecursionError)
  | S d =>
      let '(items, ending) := sorts d L in
      (items, ending)
  end.

(** [self._predicates.values()] and [self._functions.values()].  A view of
    a Python dictionary lists the values in the order of insertion; the
    lists here hold the same values, once each, in the order of the names.
    The theorems speak of membership, repetition and length only. *)
Definition predicates (L : FirstOrderLanguage) : list Predicate :=
  (map_to_list (_predicates L)).*2.

Definition functions (L : FirstOrderLanguage) : list Function :=
  (map_to_list (_functions L)).*2.

(** *** The description *)

(** [str(n)] for a length. *)
Definition str_of_len (n : nat) : string := pretty n.

(** [FirstOrderLanguage.__str__] *)
Definition __str__ (L : FirstOrderLanguage) : string :=
  name L +:+ ": Tarski language with " +:+ str_of_len (size (_sorts L))
  +:+ " sorts, " +:+ str_of_len (size (_functions L))
  +:+ " function symbols, " +:+ str_of_len (size (_predicates L))
  +:+ " predicate symbols and " +:+ str_of_len (length (_variables L))
  +:+ " variables".

(** ** Calls and the states a language can be in *)

(** A call of a method of the class by a client; [handler] arguments are
    the callables registered. *)
Inductive call : Type :=
| CallSort (name : string) (super_sorts : option (list Sort))
| CallSetParent (lhs rhs : Sort)
| CallVariable (name : string) (sort : PyObj)
| CallConstant (name : PyVal) (sort : PyObj)
| CallPredicate (name : string) (args : list PyObj)
| CallFunction (name : string) (args : list PyObj)
| CallRegisterOperatorHandler (operator : string) (t1 t2 : Sort) (h : handler)
| CallDispatchOperator (operator : string) (t1 t2 : Sort) (lhs rhs : PyNum)
| CallHasSort (name : string)
| CallGetSort (name : string)
| CallHasConstant (name : PyVal)
| CallGetConstant (name : PyVal)
| CallHasPredicate (name : string)
| CallGetPredicate (name : string)
| CallHasFunction (name : string)
| CallGetFunction (name : string)
| CallIsSubtype (t st : Sort)
| CallIsStrictSubtype (t st : Sort)
| CallAreVerticallyRelated (t1 t2 : Sort).

(** The language a call leaves behind, whether it returned or raised. *)
Definition after (c : call) (L : FirstOrderLanguage) : FirstOrderLanguage :=
  match c with
  | CallSort n ss => snd (sort n ss L)
  | CallSetParent lhs rhs => snd (set_parent lhs rhs L)
  | CallVariable n s => snd (variable n s L)
  | CallConstant n s => snd (constant n s L)
  | CallPredicate n args => snd (predicate n args L)
  | CallFunction n args => snd (function n args L)
  | CallRegisterOperatorHandler op t1 t2 h =>
      snd (register_operator_handler op t1 t2 h L)
  | CallDispatchOperator op t1 t2 lhs rhs =>
      snd (dispatch_operator op t1 t2 lhs rhs L)
  | CallHasSort n => snd (has_sort n L)
  | CallGetSort n => snd (get_sort n L)
  | CallHasConstant n => snd (has_constant n L)
  | CallGetConstant n => snd (get_constant n L)
  | CallHasPredicate n => snd (has_predicate n L)
  | CallGetPredicate n => snd (get_predicate n L)
  | CallHasFunction n => snd (has_function n L)
  | CallGetFunction n => snd (get_function n L)
  | CallIsSubtype t st => snd (is_subtype t st L)
  | CallIsStrictSubtype t st => snd (is_strict_subtype t st L)
  | CallAreVerticallyRelated t1 t2 => snd (are_vertically_related t1 t2 L)
  end.

(** The states of the instance [this] after construction and any sequence
    of calls, each one [allowed] in the state it is made in. *)
Inductive reachable_by (allowed : FirstOrderLanguage → call → Prop)
    (this : lang_id) (nm : string) : FirstOrderLanguage → Prop :=
| reachable_init : reachable_by allowed this nm (language this nm)
| reachable_call (c : call) (L : FirstOrderLanguage) :
    reachable_by allowed this nm L →
    allowed L c →
    reachable_by allowed this nm (after c L).

Definition reachable : lang_id → string → FirstOrderLanguage → Prop :=
  reachable_by (λ _ _, True).

(** Every call but a [set_parent] made by the client on a sort named
    ["object"]. *)
Definition keeps_root (L : FirstOrderLanguage) (c : call) : Prop :=
  match c with
  | CallSetParent lhs _ => sort_name lhs ≠ "object"
  | _ => True
  end.

(** Every call but a [set_parent] made by the client, the parents given to
    [sort] being sorts of other languages or sorts this language holds. *)
Definition registers_only (L : FirstOrderLanguage) (c : call) : Prop :=
  match c with
  | CallSetParent _ _ => False
  | CallSort _ super_sorts =>
      Forall (λ p, sort_language p = self L → is_Some (_sorts L !! sort_name p))
             (default [] super_sorts)
  | _ => True
  end.

(** ** Notions used in the theorems *)

(** The hierarchy as a relation on sort names, and the absence of cycles. *)
Definition edge (E : gset (string * string)) (x y : string) : Prop :=
  (x, y) ∈ E.

Definition acyclic (E : gset (string * string)) : Prop :=
  ∀ x, ¬ tc (edge E) x x.

(** The names collected after [n] rounds from [s]. *)
Definition rounds (E : gset (string * string)) (s : string) (n : nat)
    : gset string :=
  Nat.iter n (parents_step E) {[ s ]}.

(** The promotion set of a sort name: what a read of the defaultdict
    gives. *)
Definition promotion_set (L : FirstOrderLanguage) (key : string)
    : gset sort_id :=
  default ∅ (_possible_promotions L !! key).

(** [preserves R m]: whatever [m] returns or raises, the language it leaves
    is related by [R] to the one it was given. *)
Definition preserves {A : Type} (R : relation FirstOrderLanguage) (m : M A)
    : Prop :=
  ∀ L, R L (snd (m L)).

(** A computation that never changes the language. *)
Abbreviation read_only := (preserves eq).

(** A computation that changes nothing when it raises. *)
Definition atomic {A : Type} (m : M A) : Prop :=
  ∀ L e, fst (m L) = Raise e → snd (m L) = L.

(** [L'] is [L] except that its promotions table may hold more keys, and
    every key reads as it did. *)
Definition reads_as (L L' : FirstOrderLanguage) : Prop :=
  L' = with_possible_promotions (λ _, _possible_promotions L') L
  ∧ _possible_promotions L ⊆ _possible_promotions L'
  ∧ ∀ key, promotion_set L' key = promotion_set L key.

(** The promotion set of [key] is the same in [L'] as in [L]. *)
Definition keeps (key : string) (L L' : FirstOrderLanguage) : Prop :=
  promotion_set L' key = promotion_set L key.

(** The sorts and the edges are the same in [L'] as in [L]. *)
Definition same_graph (L L' : FirstOrderLanguage) : Prop :=
  _sorts L' = _sorts L ∧ _sort_hierarchy L' = _sort_hierarchy L.

(** Growth, which no call undoes: [L'] holds every sort, edge, promotion
    and symbol of [L], under the same identity and name, and the same
    variables. *)
Record extends (L L' : FirstOrderLanguage) : Prop := mkExtends {
  ext_self : self L' = self L;
  ext_name : name L' = name L;
  ext_sorts : _sorts L ⊆ _sorts L';
  ext_hierarchy : _sort_hierarchy L ⊆ _sort_hierarchy L';
  ext_promotions : ∀ key, promotion_set L key ⊆ promotion_set L' key;
  ext_functions : _functions L ⊆ _functions L';
  ext_predicates : _predicates L ⊆ _predicates L';
  ext_constants : _constants L ⊆ _constants L';
  ext_variables : _variables L' = _variables L
}.

(** Every edge leads to a sort the language holds. *)
Definition targets_registered (L : FirstOrderLanguage) : Prop :=
  ∀ x y, edge (_sort_hierarchy L) x y → is_Some (_sorts L !! y).

(** The language a [set_parent] that does not raise leaves. *)
Definition linked (lhs rhs : Sort) (L : FirstOrderLanguage)
    : FirstOrderLanguage :=
  let E := _sort_hierarchy L ∪ {[ (sort_name lhs, sort_name rhs) ]} in
  with_possible_promotions
    <[ sort_name lhs :=
         promotion_set L (sort_name lhs) ∪ inclusion_closure E rhs ]>
    (with_sort_hierarchy (λ _, E) L).

(** The parents [sort] links a new sort to: those given, with the root
    appended unless it is among them. *)
Definition parents_of (osort : Sort) (super_sorts : option (list Sort))
    : list Sort :=
  if negb (sort_in osort (default [] super_sorts))
  then default [] super_sorts ++ [osort]
  else default [] super_sorts.

(** The language [__init__] builds, written out: the four sorts are
    stored and linked in the order of [_build_builtin_sorts]. *)
Definition built (this : lang_id) (nm : string) : FirstOrderLanguage :=
  let L0 := with_sorts <[ "object" := object_sort this ]> (blank this nm) in
  let L1 := linked (real_sort this) (object_sort this)
              (with_sorts <[ "Real" := real_sort this ]> L0) in
  let L2 := linked (integer_sort this) (real_sort this)
              (with_sorts <[ "Integer" := integer_sort this ]> L1) in
  linked (natural_sort this) (integer_sort this)
    (with_sorts <[ "Natural" := natural_sort this ]> L2).

(** A rank that every edge of the builtin hierarchy climbs. *)
Definition builtin_rank (s : string) : nat :=
  if decide (s = "object") then 3
  else if decide (s = "Real") then 2
  else if decide (s = "Integer") then 1
  else 0.

(** The strict pairs among Natural, Integer, Real and Object. *)
Definition chain (this : lang_id) : list (Sort * Sort) :=
  [ (natural_sort this, integer_sort this);
    (integer_sort this, real_sort this);
    (real_sort this, object_sort this);
    (natural_sort this, real_sort this);
    (natural_sort this, object_sort this);
    (integer_sort this, object_sort this) ].



(** The language [set_parent] leaves when the closure raises: the edge is
    stored, and the promotion set of [lhs.name] was read. *)
Definition edge_stored (lhs rhs : Sort) (L : FirstOrderLanguage)
    : FirstOrderLanguage :=
  snd (promotions_item (sort_name lhs)
         (with_sort_hierarchy
            (λ E, E ∪ {[ (sort_name lhs, sort_name rhs) ]}) L)).

(** The ways to name a sort to [constant]: the object or its name. *)
Definition names (s : Sort) (ref : PyObj) : Prop :=
  ref = ObjSort s ∨ ref = ObjStr (sort_name s).

(** [L'] is [L] except for its edges and its promotions table. *)
Definition relinked (L L' : FirstOrderLanguage) : Prop :=
  L' = with_possible_promotions (λ _, _possible_promotions L')
         (with_sort_hierarchy (λ _, _sort_hierarchy L') L).

(** The sort [sort(name, ...)] creates in [L]. *)
Definition new_sort (L : FirstOrderLanguage) (name : string) : Sort :=
  mkSort name (self L) false None.

(** What [[_retrieve_object(a, Sort) for a in args]] gives in [L]. *)
Definition resolved (L : FirstOrderLanguage) (args : list PyObj)
    : result (list Sort) :=
  fst (comprehension _retrieve_object args L).

(** The names of the three sorts [__init__] marks as builtin. *)
Definition numeric_names : list string := ["Real"; "Integer"; "Natural"].

(** Every sort the language holds is stored under its own name and belongs
    to the language, and only the numeric sorts are builtin. *)
Definition sorts_well_registered (L : FirstOrderLanguage) : Prop :=
  ∀ k s, _sorts L !! k = Some s →
    sort_name s = k ∧ sort_language s = self L
    ∧ (sort_builtin s = true → k ∈ numeric_names).

(** Every symbol the language holds is stored under its own name, and
    refers to sorts of the language only; the sort of a stored constant is
    not builtin. *)
Definition symbols_well_registered (L : FirstOrderLanguage) : Prop :=
  (∀ k p, _predicates L !! k = Some p →
     pred_name p = k ∧ pred_language p = self L
     ∧ Forall (λ s, sort_language s = self L) (pred_sort p))
  ∧ (∀ k f, _functions L !! k = Some f →
       func_name f = k ∧ func_language f = self L
       ∧ Forall (λ s, sort_language s = self L) (func_sort f))
  ∧ (∀ k c, _constants L !! k = Some c →
       const_symbol c = k ∧ sort_language (const_sort c) = self L
       ∧ sort_builtin (const_sort c) = false).

(** Every member of a promotion set is a sort of the language that is
    reached from the key along at least one edge. *)
Definition promotions_sound (L : FirstOrderLanguage) : Prop :=
  ∀ k i, i ∈ promotion_set L k →
    i.1 = self L ∧ tc (edge (_sort_hierarchy L)) k i.2.

(** Every name reached from a key along at least one edge is in its
    promotion set. *)
Definition promotions_complete (L : FirstOrderLanguage) : Prop :=
  ∀ k y, tc (edge (_sort_hierarchy L)) k y →
    (self L, y) ∈ promotion_set L k.

(** No edge leads to [n]. *)
Definition no_edge_into (n : string) (L : FirstOrderLanguage) : Prop :=
  ∀ x y, edge (_sort_hierarchy L) x y → y ≠ n.

(** The names of the four sorts [__init__] builds. *)
Definition builtin_names : list string :=
  ["object"; "Real"; "Integer"; "Natural"].

(** The edges [__init__] builds. *)
Definition builtin_edges : list (string * string) :=
  [("Real", "object"); ("Integer", "Real"); ("Natural", "Integer")].

(** ** Scenarios *)

(** Three sorts of the language with identity 0. *)
Definition sort_a : Sort := mkSort "a" 0 false None.
Definition sort_b : Sort := mkSort "b" 0 false None.
Definition sort_c : Sort := mkSort "c" 0 false None.

(** [a = sort("a")], [b = sort("b", [a])], [c = sort("c")], then
    [set_parent(a, c)]. *)
Definition three_sorts : M unit :=
  a ← sort "a" None;
  b ← sort "b" (Some [a]);
  c ← sort "c" None;
  set_parent a c.

(** [item = sort("item")], [heavy_item = sort("heavy_item", [item])], then
    the three queries of the end-to-end example. *)
Definition items : M (bool * bool * bool) :=
  item ← sort "item" None;
  heavy_item ← sort "heavy_item" (Some [item]);
  o ← Object;
  i ← Integer;
  below_item ← is_subtype heavy_item item;
  below_object ← is_subtype heavy_item o;
  related ← are_vertically_related item i;
  mret (below_item, below_object, related).

(** A handler that adds two domain values: [lambda lhs, rhs: lhs + rhs]. *)
Definition py_add : handler := λ lhs rhs,
  match lhs, rhs with
  | NInt x, NInt y => Ok (NInt (x + y))
  | NFloat x, NFloat y => Ok (NFloat (SFadd prec emax x y))
  | NInt x, NFloat y =>
      match binary_normalize prec emax x 0 false with
      | S754_infinity _ => Raise (OtherError "OverflowError")
      | f => Ok (NFloat (SFadd prec emax f y))
      end
  | NFloat x, NInt y =>
      match binary_normalize prec emax y 0 false with
      | S754_infinity _ => Raise (OtherError "OverflowError")
      | f => Ok (NFloat (SFadd prec emax x f))
      end
  end.


(** ** The builtin symbols of [tarski/syntax/builtins.py] *)

(** [s.lower()] on a [str] of ASCII characters. *)
Definition str_lower (s : string) : string :=
  string_of_list_ascii (map lower (list_ascii_of_string s)).

(** What the call of an [Enum] class on something that is the value of no
    member raises. *)
Definition ValueError : exn := OtherError "ValueError".

(** [Table with negated counterparts of builtin predicates.]  The keys of
    the dictionary display are distinct. *)
Definition symbol_complements : gmap string string :=
  list_to_map
    [ ("=", "!="); ("!=", "="); ("<", ">="); ("<=", ">"); (">", "<=");
      (">=", "<") ].

Module BuiltinPredicateSymbol.

Inductive t : Type := EQ | NE | LT | LE | GT | GE.

(** The members, in the order of their definition. *)
Definition members : list t := [EQ; NE; LT; LE; GT; GE].

Definition value (m : t) : string :=
  match m with
  | EQ => "="
  | NE => "!="
  | LT => "<"
  | LE => "<="
  | GT => ">"
  | GE => ">="
  end.

(** [BuiltinPredicateSymbol(v)]: the member whose value is [v], the first
    one defined when several have it. *)
Definition by_value (v : string) : result t :=
  match find (λ m, bool_decide (value m = v)) members with
  | Some m => Ok m
  | None => Raise ValueError
  end.

Definition __str__ (m : t) : string := str_lower (value m).

Definition complement (m : t) : result t :=
  match symbol_complements !! value m with
  | Some v => by_value v
  | None => Raise KeyError
  end.

End BuiltinPredicateSymbol.

Module BuiltinFunctionSymbol.

Inductive t : Type :=
| ADD | SUB | MUL | MATMUL | DIV | POW | MOD | MIN | MAX | ABS | SIN | COS
| TAN | ATAN | ASIN | EXP | LOG | ERF | ERFC | SGN | SQRT | NORMAL | GAMMA
| KRON | DIRAC | BERNOULLI | DISCRETE | POISSON.

(** The members, in the order of their definition. *)
Definition members : list t :=
  [ ADD; SUB; MUL; MATMUL; DIV; POW; MOD; MIN; MAX; ABS; SIN; COS; TAN; ATAN;
    ASIN; EXP; LOG; ERF; ERFC; SGN; SQRT; NORMAL; GAMMA; KRON; DIRAC;
    BERNOULLI; DISCRETE; POISSON ].

Definition value (m : t) : string :=
  match m with
  | ADD => "+"
  | SUB => "-"
  | MUL => "*"
  | MATMUL => "@"
  | DIV => "/"
  | POW => "**"
  | MOD => "%"
  | MIN => "min"
  | MAX => "max"
  | ABS => "abs"
  | SIN => "sin"
  | COS => "cos"
  | TAN => "tan"
  | ATAN => "atan"
  | ASIN => "asin"
  | EXP => "exp"
  | LOG => "log"
  | ERF => "erf"
  | ERFC => "erfc"
  | SGN => "sgn"
  | SQRT => "sqrt"
  | NORMAL => "normal"
  | GAMMA => "gamma"
  | KRON => "kron"
  | DIRAC => "dirac"
  | BERNOULLI => "bernoulli"
  | DISCRETE => "discrete"
  | POISSON => "poisson"
  end.

(** [BuiltinFunctionSymbol(v)] *)
Definition by_value (v : string) : result t :=
  match find (λ m, bool_decide (value m = v)) members with
  | Some m => Ok m
  | None => Raise ValueError
  end.

Definition __str__ (m : t) : string := str_lower (value m).

End BuiltinFunctionSymbol.

Global Instance BuiltinPredicateSymbol_eq_dec :
  EqDecision BuiltinPredicateSymbol.t.
Proof. solve_decision. Defined.

Global Instance BuiltinFunctionSymbol_eq_dec :
  EqDecision BuiltinFunctionSymbol.t.
Proof. solve_decision. Defined.

Definition get_equality_predicates : list BuiltinPredicateSymbol.t :=
  [BuiltinPredicateSymbol.EQ; BuiltinPredicateSymbol.NE].

Definition get_arithmetic_predicates : list BuiltinPredicateSymbol.t :=
  [ BuiltinPredicateSymbol.LT; BuiltinPredicateSymbol.LE;
    BuiltinPredicateSymbol.GT; BuiltinPredicateSymbol.GE ].

Definition get_arithmetic_binary_functions : list BuiltinFunctionSymbol.t :=
  [ BuiltinFunctionSymbol.ADD; BuiltinFunctionSymbol.SUB;
    BuiltinFunctionSymbol.MUL; BuiltinFunctionSymbol.DIV;
    BuiltinFunctionSymbol.POW; BuiltinFunctionSymbol.MOD ].

Definition get_arithmetic_unary_functions : list BuiltinFunctionSymbol.t :=
  [BuiltinFunctionSymbol.SQRT].

Definition get_special_binary_functions : list BuiltinFunctionSymbol.t :=
  [BuiltinFunctionSymbol.MIN; BuiltinFunctionSymbol.MAX].

Definition get_special_unary_functions : list BuiltinFunctionSymbol.t :=
  [ BuiltinFunctionSymbol.ABS; BuiltinFunctionSymbol.SIN;
    BuiltinFunctionSymbol.COS; BuiltinFunctionSymbol.TAN;
    BuiltinFunctionSymbol.ATAN; BuiltinFunctionSymbol.ASIN;
    BuiltinFunctionSymbol.EXP; BuiltinFunctionSymbol.LOG;
    BuiltinFunctionSymbol.ERF; BuiltinFunctionSymbol.ERFC;
    BuiltinFunctionSymbol.SGN ].

Definition get_random_binary_functions : list BuiltinFunctionSymbol.t :=
  [BuiltinFunctionSymbol.NORMAL; BuiltinFunctionSymbol.GAMMA].

Definition get_random_unary_functions : list BuiltinFunctionSymbol.t := [].

Definition get_predicate_from_symbol (symbol : string)
    : result BuiltinPredicateSymbol.t :=
  BuiltinPredicateSymbol.by_value symbol.

Definition get_function_from_symbol (symbol : string)
    : result BuiltinFunctionSymbol.t :=
  BuiltinFunctionSymbol.by_value symbol.

(** The usual reading of the six predicate symbols on integers. *)
Definition holds (p : BuiltinPredicateSymbol.t) (x y : Z) : bool :=
  match p with
  | BuiltinPredicateSymbol.EQ => (x =? y)%Z
  | BuiltinPredicateSymbol.NE => negb (x =? y)%Z
  | BuiltinPredicateSymbol.LT => (x <? y)%Z
  | BuiltinPredicateSymbol.LE => (x <=? y)%Z
  | BuiltinPredicateSymbol.GT => (x >? y)%Z
  | BuiltinPredicateSymbol.GE => (x >=? y)%Z
  end.

(** The function symbols that none of the [get_*_functions] lists holds. *)
Definition unclassified_functions : list BuiltinFunctionSymbol.t :=
  [ BuiltinFunctionSymbol.MATMUL; BuiltinFunctionSymbol.KRON;
    BuiltinFunctionSymbol.DIRAC; BuiltinFunctionSymbol.BERNOULLI;
    BuiltinFunctionSymbol.DISCRETE; BuiltinFunctionSymbol.POISSON ].

Definition classified_functions : list BuiltinFunctionSymbol.t :=
  get_arithmetic_binary_functions ++ get_arithmetic_unary_functions
  ++ get_special_binary_functions ++ get_special_unary_functions
  ++ get_random_binary_functions ++ get_random_unary_functions.

(** * Theorems *)

(** ** The conversions *)

Example int_of_str_3 : py_int (PyStr "3") = Some (NInt 3).
Proof. reflexivity. Qed.

Example int_of_str_3_5 : py_int (PyStr "3.5") = None.
Proof. reflexivity. Qed.

Example int_of_str_padded : py_int (PyStr " -1_000 ") = Some (NInt (-1000)).
Proof. reflexivity. Qed.

Example int_of_str_bad_underscore : py_int (PyStr "1__0") = None.
Proof. reflexivity. Qed.

(** Digits and spaces of other scripts count: the Arabic-Indic digits one
    to three, and a no-break space (U+00A0) after the digits. *)
Example int_of_str_other_digits : py_int (PyStr "١٢٣") = Some (NInt 123).
Proof. reflexivity. Qed.

Example int_of_str_no_break_space :
  py_int (PyStr ("12" +:+ String (ascii_of_nat 194)
                            (String (ascii_of_nat 160) EmptyString)))
  = Some (NInt 12).
Proof. reflexivity. Qed.

(** The unit separator (U+001F) is white space to [str.strip], not to
    [int]. *)
Example int_of_str_unit_separator :
  py_int (PyStr ("12" +:+ String (ascii_of_nat 31) EmptyString)) = None.
Proof. reflexivity. Qed.

(** ** Literals that [int] refuses *)

Lemma code_ascii_of_code (n : Z) :
  (0 <= n < 256)%Z → code (ascii_of_code n) = n.
Proof.
  intros Hn. unfold code, ascii_of_code.
  rewrite nat_ascii_embedding by lia. lia.
Qed.


Lemma code_bounds (c : ascii) : (0 <= code c < 256)%Z.
Proof. unfold code. pose proof (nat_ascii_bounded c). lia. Qed.










(** ** Running computations *)

Lemma run_bind {A B : Type} (m : M A) (k : A → M B) (L : FirstOrderLanguage) :
  (m ≫= k) L =
  match m L with
  | (Ok a, L') => k a L'
  | (Raise e, L') => (Raise e, L')
  end.
Proof. reflexivity. Qed.

(** Unfolds the plumbing of a method body applied to a language. *)
Ltac run :=
  unfold mbind, M_bind, mret, M_ret, get, modify, raise; simpl.

(** Decides an equation between concrete finite sets by listing both. *)
Ltac evaluate_set :=
  apply set_eq; intros ?; rewrite <- !elem_of_elements;
  match goal with
  | |- _ ∈ ?l ↔ _ ∈ ?r =>
      let l' := eval vm_compute in l in
      let r' := eval vm_compute in r in
      replace l with l' by (vm_compute; reflexivity);
      replace r with r' by (vm_compute; reflexivity)
  end;
  set_solver.

(** Decides a closed statement about concrete languages by evaluation. *)
Ltac evaluate :=
  first
    [ evaluate_set
    | vm_compute; reflexivity
    | vm_compute; discriminate
    | apply (bool_decide_unpack _); vm_compute; exact I ].

Section Preserves.

Context (R : relation FirstOrderLanguage) `{!PreOrder R}.

Lemma preserves_ret {A : Type} (a : A) : preserves R (mret a : M A).
Proof. intros L. simpl. reflexivity. Qed.

Lemma preserves_raise {A : Type} (e : exn) : preserves R (@raise A e).
Proof. intros L. simpl. reflexivity. Qed.

Lemma preserves_get : preserves R get.
Proof. intros L. simpl. reflexivity. Qed.

Lemma preserves_modify f : (∀ L, R L (f L)) → preserves R (modify f).
Proof. intros Hf L. apply Hf. Qed.

Lemma preserves_bind {A B : Type} (m : M A) (k : A → M B) :
  preserves R m → (∀ a, preserves R (k a)) → preserves R (m ≫= k).
Proof.
  intros Hm Hk L. rewrite run_bind. specialize (Hm L).
  destruct (m L) as [[a|e] L']; simpl in *; [|done].
  etrans; [exact Hm | apply Hk].
Qed.

Lemma preserves_for_each {A : Type} (body : A → M unit) (xs : list A) :
  (∀ x, preserves R (body x)) → preserves R (for_each body xs).
Proof.
  intros Hb. induction xs as [|x xs IH]; simpl.
  - apply preserves_ret.
  - apply preserves_bind; [apply Hb | intros _; apply IH].
Qed.

Lemma preserves_comprehension {A B : Type} (f : A → M B) (xs : list A) :
  (∀ x, preserves R (f x)) → preserves R (comprehension f xs).
Proof.
  intros Hf. induction xs as [|x xs IH]; simpl.
  - apply preserves_ret.
  - apply preserves_bind; [apply Hf|]. intros y.
    apply preserves_bind; [apply IH|]. intros ys. apply preserves_ret.
Qed.

End Preserves.

Lemma read_only_preserves {A : Type} (R : relation FirstOrderLanguage)
    `{!Reflexive R} (m : M A) :
  read_only m → preserves R m.
Proof. intros Hm L. rewrite <- (Hm L). reflexivity. Qed.

(** Splits a goal about a method body along its binds and branches. *)
Ltac frame :=
  repeat first
    [ apply preserves_ret | apply preserves_raise | apply preserves_get
    | apply preserves_bind; [exact _ | | intros ?]
    | apply preserves_bind; [| intros ?]
    | match goal with
      | |- preserves _ (match ?x with _ => _ end) => destruct x
      | |- preserves _ (if ?x then _ else _) => destruct x
      end ];
  try exact _; try done.

(** *** Queries of the namespaces *)

Lemma read_only_has_sort n : read_only (has_sort n).
Proof. unfold has_sort. frame. Qed.

Lemma read_only_get_sort n : read_only (get_sort n).
Proof. unfold get_sort. frame. Qed.

Lemma read_only_retrieve_object obj : read_only (_retrieve_object obj).
Proof. unfold _retrieve_object. frame. Qed.

Lemma read_only_variable n s : read_only (variable n s).
Proof. unfold variable. frame. Qed.

Lemma read_only_has_constant n : read_only (has_constant n).
Proof. unfold has_constant. frame. Qed.

Lemma read_only_get_constant n : read_only (get_constant n).
Proof. unfold get_constant. frame. Qed.

Lemma read_only_has_predicate n : read_only (has_predicate n).
Proof. unfold has_predicate. frame. Qed.

Lemma read_only_get_predicate n : read_only (get_predicate n).
Proof. unfold get_predicate. frame. Qed.

Lemma read_only_has_function n : read_only (has_function n).
Proof. unfold has_function. frame. Qed.

Lemma read_only_get_function n : read_only (get_function n).
Proof. unfold get_function. frame. Qed.

Lemma read_only_dispatch_operator op t1 t2 lhs rhs :
  read_only (dispatch_operator op t1 t2 lhs rhs).
Proof. unfold dispatch_operator. frame. Qed.

(** *** Queries of the promotions table *)

Global Instance reads_as_preorder : PreOrder reads_as.
Proof.
  split.
  - intros L. split; [by destruct L | split; [reflexivity | done]].
  - intros L1 L2 L3 (E12 & S12 & P12) (E23 & S23 & P23).
    split; [|split].
    + rewrite E23 at 1. rewrite E12 at 1. by destruct L1.
    + by etrans.
    + intros k. by rewrite P23.
Qed.

Lemma reads_as_promotions_item key : preserves reads_as (promotions_item key).
Proof.
  intros L. unfold promotions_item. rewrite run_bind. simpl.
  destruct (_possible_promotions L !! key) as [S|] eqn:HS; simpl.
  - reflexivity.
  - split; [|split].
    + by destruct L.
    + simpl. by apply insert_subseteq.
    + intros k. unfold promotion_set. simpl.
      destruct (decide (key = k)) as [->|Hne].
      * by rewrite lookup_insert_eq, HS.
      * by rewrite lookup_insert_ne.
Qed.

Lemma reads_as_is_strict_subtype t st :
  preserves reads_as (is_strict_subtype t st).
Proof.
  unfold is_strict_subtype. apply preserves_bind; [apply _| |].
  - apply reads_as_promotions_item.
  - intros S. apply preserves_ret. apply _.
Qed.

Lemma reads_as_is_subtype t st : preserves reads_as (is_subtype t st).
Proof.
  unfold is_subtype. destruct (sort_eqb t st).
  - apply preserves_ret, _.
  - apply reads_as_is_strict_subtype.
Qed.

Lemma reads_as_are_vertically_related t1 t2 :
  preserves reads_as (are_vertically_related t1 t2).
Proof.
  unfold are_vertically_related. apply preserves_bind; [apply _| |].
  - apply reads_as_is_subtype.
  - intros [|]; [apply preserves_ret, _ | apply reads_as_is_subtype].
Qed.

(** ** The inclusion closure is the set of ancestors *)

Section Closure.

Variable E : gset (string * string).

Lemma elem_of_parents_step (S : gset string) (y : string) :
  y ∈ parents_step E S ↔ y ∈ S ∨ ∃ x, x ∈ S ∧ edge E x y.
Proof.
  unfold parents_step, edge. rewrite elem_of_union, elem_of_map.
  split.
  - intros [?|[[x y'] [-> [Hx He]%elem_of_filter]]]; [by left|].
    right. by exists x.
  - intros [?|(x & Hx & He)]; [by left|]. right.
    exists (x, y). split; [done|]. by apply elem_of_filter.
Qed.

Lemma parents_step_incl (S : gset string) : S ⊆ parents_step E S.
Proof. intros x Hx. apply elem_of_parents_step. by left. Qed.

Lemma parents_step_bound (s : string) (S : gset string) :
  S ⊆ {[ s ]} ∪ set_map snd E →
  parents_step E S ⊆ {[ s ]} ∪ set_map snd E.
Proof.
  intros HS y [Hy|(x & Hx & He)]%elem_of_parents_step; [by apply HS|].
  apply elem_of_union_r, elem_of_map. by exists (x, y).
Qed.

Lemma rounds_S s n : rounds E s (S n) = parents_step E (rounds E s n).
Proof. reflexivity. Qed.

Lemma rounds_bound s n : rounds E s n ⊆ {[ s ]} ∪ set_map snd E.
Proof.
  induction n as [|n IH].
  - unfold rounds. simpl. apply union_subseteq_l.
  - rewrite rounds_S. by apply parents_step_bound.
Qed.

Lemma rounds_sound s n y : y ∈ rounds E s n → rtc (edge E) s y.
Proof.
  revert y. induction n as [|n IH]; intros y.
  - unfold rounds. simpl. intros ->%elem_of_singleton. done.
  - rewrite rounds_S.
    intros [Hy|(x & Hx & He)]%elem_of_parents_step; [by apply IH|].
    eapply rtc_r; [by apply IH | done].
Qed.

Lemma size_remove_le (X : gset string) (x : string) :
  size (X ∖ {[ x ]}) ≤ size X.
Proof. apply subseteq_size, subseteq_difference_l. reflexivity. Qed.

Lemma size_list_to_set_le (l : list string) :
  size (list_to_set l : gset string) ≤ length l.
Proof.
  induction l as [|x l IH].
  - by rewrite list_to_set_nil, size_empty.
  - rewrite list_to_set_cons, size_union_alt, size_singleton. simpl.
    pose proof (size_remove_le (list_to_set l) x). lia.
Qed.

Lemma size_targets : size (set_map snd E : gset string) ≤ size E.
Proof.
  unfold set_map. etrans; [apply size_list_to_set_le|].
  by rewrite length_fmap.
Qed.

Lemma size_rounds s n : size (rounds E s n) ≤ S (size E).
Proof.
  pose proof (subseteq_size _ _ (rounds_bound s n)) as Hle.
  rewrite size_union_alt, size_singleton in Hle.
  pose proof (size_remove_le (set_map snd E) s).
  pose proof size_targets. lia.
Qed.

(** Either a round has closed the set, or every round so far added a
    name. *)
Lemma rounds_progress s n :
  parents_step E (rounds E s n) = rounds E s n ∨ S n ≤ size (rounds E s n).
Proof.
  induction n as [|n [Hfix|Hsize]].
  - right. change (rounds E s 0) with ({[ s ]} : gset string).
    by rewrite size_singleton.
  - left. by rewrite rounds_S, !Hfix.
  - destruct (decide (parents_step E (rounds E s n) = rounds E s n))
      as [Hfix|Hne].
    + left. by rewrite rounds_S, !Hfix.
    + right. rewrite rounds_S.
      assert (rounds E s n ⊂ parents_step E (rounds E s n)) as Hlt.
      { split; [apply parents_step_incl|].
        intros Hback. apply Hne. apply set_eq. intros x. split.
        - apply Hback.
        - apply parents_step_incl. }
      apply subset_size in Hlt. lia.
Qed.

Lemma ancestors_closed s :
  parents_step E (ancestors_or_self E s) = ancestors_or_self E s.
Proof.
  change (ancestors_or_self E s) with (rounds E s (size E)).
  destruct (rounds_progress s (size E)) as [Hfix|Hsize]; [done|].
  symmetry. apply set_subseteq_size_eq; [apply parents_step_incl|].
  rewrite <- rounds_S.
  pose proof (size_rounds s (S (size E))). lia.
Qed.

(** The model of the closure computes what the spec describes: the sort
    itself and every sort reached by following parent edges. *)
Lemma ancestors_or_self_spec s y :
  y ∈ ancestors_or_self E s ↔ rtc (edge E) s y.
Proof.
  split; [apply rounds_sound|].
  revert y. apply rtc_ind_r; [|intros y z Hsy He IH].
  - change (ancestors_or_self E s) with (rounds E s (size E)).
    induction (size E) as [|n IH];
      [unfold rounds; simpl; by apply elem_of_singleton|].
    rewrite rounds_S. by apply parents_step_incl.
  - rewrite <- ancestors_closed. apply elem_of_parents_step.
    right. by exists y.
Qed.

End Closure.

Lemma elem_of_inclusion_closure E (s : Sort) (i : sort_id) :
  i ∈ inclusion_closure E s ↔
  i.1 = sort_language s ∧ rtc (edge E) (sort_name s) i.2.
Proof.
  unfold inclusion_closure. rewrite elem_of_map. split.
  - intros (n & -> & Hn). split; [done|]. by apply ancestors_or_self_spec.
  - destruct i as [l n]. simpl. intros [-> Hn]. exists n.
    split; [done|]. by apply ancestors_or_self_spec.
Qed.

Lemma inclusion_closure_self E (s : Sort) : id_of s ∈ inclusion_closure E s.
Proof. apply elem_of_inclusion_closure. by split. Qed.

(** ** [set_parent] *)

Lemma set_parent_own lhs rhs L :
  sort_language rhs = self L →
  set_parent lhs rhs L = (Ok tt, linked lhs rhs L).
Proof.
  intros Hown. unfold set_parent, linked, promotions_item, promotion_set.
  run. rewrite bool_decide_true by done. simpl.
  destruct (_possible_promotions L !! sort_name lhs) as [S|] eqn:HS; simpl.
  - done.
  - unfold with_possible_promotions, with_sort_hierarchy. simpl.
    by rewrite insert_insert_eq.
Qed.

Lemma set_parent_foreign lhs rhs L :
  sort_language rhs ≠ self L →
  set_parent lhs rhs L = (Raise LanguageError, L).
Proof.
  intros Hforeign. unfold set_parent. run.
  by rewrite bool_decide_false.
Qed.

Lemma set_parent_cases lhs rhs L :
  set_parent lhs rhs L = (Ok tt, linked lhs rhs L)
  ∨ set_parent lhs rhs L = (Raise LanguageError, L).
Proof.
  destruct (decide (sort_language rhs = self L)).
  - left. by apply set_parent_own.
  - right. by apply set_parent_foreign.
Qed.

Lemma promotion_set_linked lhs rhs L key :
  promotion_set (linked lhs rhs L) key =
  if decide (key = sort_name lhs)
  then promotion_set L key
       ∪ inclusion_closure
           (_sort_hierarchy L ∪ {[ (sort_name lhs, sort_name rhs) ]}) rhs
  else promotion_set L key.
Proof.
  unfold promotion_set at 1. unfold linked. simpl.
  case_decide as Hk.
  - subst. by rewrite lookup_insert_eq.
  - by rewrite lookup_insert_ne.
Qed.

(** ** Growth *)

Global Instance extends_preorder : PreOrder extends.
Proof.
  split.
  - intros L. by split.
  - intros L1 L2 L3 [] []. split; try (by etrans).
    intros key. etrans; eauto.
Qed.

Lemma reads_as_extends L L' : reads_as L L' → extends L L'.
Proof.
  intros (E & S & P). split; try (by rewrite E).
  intros key. by rewrite P.
Qed.

Lemma extends_linked lhs rhs L : extends L (linked lhs rhs L).
Proof.
  split; try done.
  - simpl. set_solver.
  - intros key. rewrite promotion_set_linked. case_decide; set_solver.
Qed.

Lemma extends_set_parent lhs rhs : preserves extends (set_parent lhs rhs).
Proof.
  intros L. destruct (set_parent_cases lhs rhs L) as [-> | ->]; simpl.
  - apply extends_linked.
  - reflexivity.
Qed.

Lemma extends_sort n supers : preserves extends (sort n supers).
Proof.
  intros L. unfold sort, has_sort. run.
  destruct (_sorts L !! n) as [s|] eqn:Hn; simpl; [reflexivity|].
  set (new := mkSort n (self L) false None).
  set (L1 := with_sorts <[ n := new ]> L).
  assert (extends L L1) as H1.
  { split; try done. simpl. by apply insert_subseteq. }
  pose proof (read_only_get_sort "object" L1) as Hro.
  destruct (get_sort "object" L1) as [[o|e] L2]; simpl in *; subst L2;
    [|done].
  match goal with
  | |- context [for_each ?f ?xs L1] =>
      pose proof (preserves_for_each extends f xs
                    (extends_set_parent new) L1) as Hfe;
      destruct (for_each f xs L1) as [[[]|e] L3]
  end; simpl in *; by etrans.
Qed.

Lemma extends_constant n s : preserves extends (constant n s).
Proof.
  unfold constant. apply preserves_bind; [exact _| |].
  - by apply read_only_preserves, read_only_retrieve_object.
  - intros srt. destruct (sort_builtin srt).
    + destruct (cast srt n); frame.
    + intros L. run.
      destruct (_constants L !! n) eqn:Hn; simpl; [reflexivity|].
      split; try done. simpl. by apply insert_subseteq.
Qed.

Lemma extends_predicate n args : preserves extends (predicate n args).
Proof.
  intros L. unfold predicate. run.
  destruct (_predicates L !! n) eqn:Hn; simpl; [reflexivity|].
  pose proof (preserves_comprehension eq _retrieve_object args
                read_only_retrieve_object L) as Hro.
  destruct (comprehension _retrieve_object args L) as [[types|e] L'];
    simpl in *; subst L'; [|reflexivity].
  split; try done. simpl. by apply insert_subseteq.
Qed.

Lemma extends_function n args : preserves extends (function n args).
Proof.
  intros L. unfold function. run.
  destruct (_functions L !! n) eqn:Hn; simpl; [reflexivity|].
  pose proof (preserves_comprehension eq _retrieve_object args
                read_only_retrieve_object L) as Hro.
  destruct (comprehension _retrieve_object args L) as [[types|e] L'];
    simpl in *; subst L'; [|reflexivity].
  split; try done. simpl. by apply insert_subseteq.
Qed.

Lemma extends_register_operator_handler op t1 t2 h :
  preserves extends (register_operator_handler op t1 t2 h).
Proof. intros L. by split. Qed.

(** A relation that the registrations of symbols and operators preserve,
    and that holds when only keys were added to the promotions table, holds
    across every call across which it holds for [sort] and [set_parent]. *)
Lemma after_related (R : relation FirstOrderLanguage) `{!PreOrder R} :
  (∀ L L', reads_as L L' → R L L') →
  (∀ n s, preserves R (constant n s)) →
  (∀ n args, preserves R (predicate n args)) →
  (∀ n args, preserves R (function n args)) →
  (∀ op t1 t2 h, preserves R (register_operator_handler op t1 t2 h)) →
  ∀ c L,
    match c with
    | CallSort n supers => R L (snd (sort n supers L))
    | CallSetParent lhs rhs => R L (snd (set_parent lhs rhs L))
    | _ => True
    end →
    R L (after c L).
Proof.
  intros Hreads Hconstant Hpredicate Hfunction Hregister c L Hc.
  destruct c; unfold after; try exact Hc.
  - apply (read_only_preserves R), read_only_variable.
  - apply Hconstant.
  - apply Hpredicate.
  - apply Hfunction.
  - apply Hregister.
  - apply (read_only_preserves R), read_only_dispatch_operator.
  - apply (read_only_preserves R), read_only_has_sort.
  - apply (read_only_preserves R), read_only_get_sort.
  - apply (read_only_preserves R), read_only_has_constant.
  - apply (read_only_preserves R), read_only_get_constant.
  - apply (read_only_preserves R), read_only_has_predicate.
  - apply (read_only_preserves R), read_only_get_predicate.
  - apply (read_only_preserves R), read_only_has_function.
  - apply (read_only_preserves R), read_only_get_function.
  - apply Hreads, reads_as_is_subtype.
  - apply Hreads, reads_as_is_strict_subtype.
  - apply Hreads, reads_as_are_vertically_related.
Qed.

(** Every call leaves a language that extends the one it was made on. *)
Lemma extends_after c L : extends L (after c L).
Proof.
  apply (after_related extends).
  - apply reads_as_extends.
  - apply extends_constant.
  - apply extends_predicate.
  - apply extends_function.
  - apply extends_register_operator_handler.
  - destruct c; try done; [apply extends_sort | apply extends_set_parent].
Qed.

Lemma reachable_by_extends allowed this nm L :
  reachable_by allowed this nm L → extends (language this nm) L.
Proof.
  induction 1 as [|c L HL IH Hc]; [reflexivity|].
  etrans; [exact IH | apply extends_after].
Qed.

(** ** [sort] and the constructor *)

#[local] Arguments set_parent : simpl never.
#[local] Arguments get_sort : simpl never.

Lemma get_sort_registered k s L :
  _sorts L !! k = Some s → get_sort k L = (Ok s, L).
Proof.
  intros Hk. unfold get_sort, has_sort. run. rewrite Hk. simpl.
  by rewrite Hk.
Qed.

Lemma sort_fresh n supers L o :
  _sorts L !! n = None →
  _sorts L !! "object" = Some o →
  let new := mkSort n (self L) false None in
  sort n supers L
  = match for_each (set_parent new) (parents_of o supers)
            (with_sorts <[ n := new ]> L) with
    | (Ok _, L') => (Ok new, L')
    | (Raise e, L') => (Raise e, L')
    end.
Proof.
  intros Hn Ho new.
  assert (n ≠ "object") as Hne by (intros ->; congruence).
  unfold sort, has_sort. run. rewrite Hn. simpl.
  rewrite (get_sort_registered "object" o).
  2:{ simpl. by rewrite lookup_insert_ne. }
  reflexivity.
Qed.

Lemma init_built this nm : __init__ this nm = (Ok tt, built this nm).
Proof.
  unfold __init__, _build_builtin_sorts, _build_the_objects,
    _build_the_reals, _build_the_integers, _build_the_naturals,
    Object, Real, Integer, Natural, sorts_item.
  run.
  do 3 (rewrite lookup_insert_ne by done; rewrite lookup_insert_eq;
        rewrite set_parent_own by done; simpl).
  done.
Qed.

Lemma language_built this nm : language this nm = built this nm.
Proof. unfold language. by rewrite init_built. Qed.

(** The end-to-end example of the specification: [heavy_item] is a subtype
    of [item] and of [object]; [item] and [Integer] are unrelated. *)
Example items_end_to_end :
  fst (items (language 0 "L")) = Ok (true, true, false).
Proof. evaluate. Qed.

(** The bounds of the reals are the binary64 values Python reads
    [3.40282e+38] as, and [float] of a decimal string rounds to nearest. *)
Example float_of_str_bound :
  float_of_str "-3.40282e+38"
  = Some (S754_finite true 9007189542424620 75)
  ∧ float_of_str "0.1" = Some (S754_finite false 7205759403792794 (-56))
  ∧ float_of_str "1e400" = Some (S754_infinity false)
  ∧ float_of_str "." = None.
Proof. split_and!; reflexivity. Qed.

(** ** Failed registrations *)

Lemma sort_duplicate n supers s L :
  _sorts L !! n = Some s →
  sort n supers L = (Raise (DuplicateSortDefinition n s), L).
Proof.
  intros Hn. unfold sort, has_sort. run. by rewrite Hn.
Qed.

Lemma atomic_predicate n args : atomic (predicate n args).
Proof.
  intros L e. unfold predicate. run.
  destruct (_predicates L !! n) eqn:Hn; simpl; [done|].
  pose proof (preserves_comprehension eq _retrieve_object args
                read_only_retrieve_object L) as Hro.
  destruct (comprehension _retrieve_object args L) as [[types|e'] L'];
    simpl in *; by subst L'.
Qed.

Lemma atomic_function n args : atomic (function n args).
Proof.
  intros L e. unfold function. run.
  destruct (_functions L !! n) eqn:Hn; simpl; [done|].
  pose proof (preserves_comprehension eq _retrieve_object args
                read_only_retrieve_object L) as Hro.
  destruct (comprehension _retrieve_object args L) as [[types|e'] L'];
    simpl in *; by subst L'.
Qed.

Lemma atomic_constant n s : atomic (constant n s).
Proof.
  intros L e. unfold constant. run.
  pose proof (read_only_retrieve_object s L) as Hro.
  destruct (_retrieve_object s L) as [[srt|e'] L']; simpl in *; subst L';
    [|done].
  destruct (sort_builtin srt).
  - by destruct (cast srt n).
  - by destruct (_constants L !! n).
Qed.

Lemma atomic_variable n s : atomic (variable n s).
Proof. intros L e _. symmetry. apply read_only_variable. Qed.

(** C1, at a failing input: a language with identity 0, and as parents its
    own [Real] followed by the [object] sort of the language with identity
    1.  The call raises [LanguageError] from [set_parent], after the new
    sort was stored, its edge to [Real] added and its promotion set
    filled. *)
Theorem C1_sort_failure_is_not_atomic :
  let L := language 0 "L" in
  let foreign := object_sort 1 in
  let r := sort "a" (Some [real_sort 0; foreign]) L in
  _sorts (language 1 "K") !! "object" = Some foreign
  ∧ fst r = Raise LanguageError
  ∧ _sorts L !! "a" = None
  ∧ _sorts (snd r) !! "a" = Some (mkSort "a" 0 false None)
  ∧ (("a", "Real") ∉ _sort_hierarchy L)
  ∧ (("a", "Real") ∈ _sort_hierarchy (snd r))
  ∧ _possible_promotions L !! "a" = None
  ∧ promotion_set (snd r) "a" = {[ (0, "Real"); (0, "object") ]}
  ∧ snd r ≠ L.
Proof.
  split_and!; [evaluate.. |].
  intros H. apply (f_equal (λ L, _sorts L !! "a")) in H.
    vm_compute in H. discriminate.
Qed.

(** ** Stale promotion sets *)

(** [set_parent] writes the promotion set of its first argument only. *)
Lemma set_parent_writes_one_key lhs rhs L key :
  sort_name lhs ≠ key →
  promotion_set (snd (set_parent lhs rhs L)) key = promotion_set L key.
Proof.
  intros Hne. destruct (set_parent_cases lhs rhs L) as [-> | ->]; simpl.
  - by rewrite promotion_set_linked, decide_False.
  - reflexivity.
Qed.

(** C3, at a failing input: after [a = sort("a")], [b = sort("b", [a])],
    [c = sort("c")] and [set_parent(a, c)], the edges lead from [b] to [a]
    and from [a] to [c], so [c] is reached from [b]; but the promotion set
    of [b] is still the one computed when [b] was registered: [c] is
    missing and [is_strict_subtype(b, c)] answers [False]. *)
Theorem C3_promotions_of_children_are_stale :
  let r := three_sorts (language 0 "L") in
  let L := snd r in
  fst r = Ok tt
  ∧ _sorts L !! "a" = Some sort_a
  ∧ _sorts L !! "b" = Some sort_b
  ∧ _sorts L !! "c" = Some sort_c
  ∧ edge (_sort_hierarchy L) "b" "a"
  ∧ edge (_sort_hierarchy L) "a" "c"
  ∧ tc (edge (_sort_hierarchy L)) "b" "c"
  ∧ promotion_set L "a" = {[ (0, "c"); (0, "object") ]}
  ∧ promotion_set L "b" = {[ (0, "a"); (0, "object") ]}
  ∧ (id_of sort_c ∉ promotion_set L "b")
  ∧ fst (is_strict_subtype sort_b sort_c L) = Ok false.
Proof.
  intros r L.
  assert (edge (_sort_hierarchy L) "b" "a") as Hba by evaluate.
  assert (edge (_sort_hierarchy L) "a" "c") as Hac by evaluate.
  split_and!;
    [evaluate | evaluate | evaluate | evaluate | exact Hba | exact Hac
    | | evaluate..].
  eapply tc_l; [exact Hba | by apply tc_once].
Qed.

(** ** Iterating the properties *)

(** C6, for every language and every depth of the Python stack: iterating
    [sorts] yields no sort and ends in [RecursionError]; it never yields the
    registered sorts. *)
Theorem C6_sorts_never_yields (depth : nat) (L : FirstOrderLanguage) :
  sorts depth L = ([], Raise RecursionError).
Proof.
  induction depth as [|d IH]; simpl; [done|]. by rewrite IH.
Qed.

(** The sibling properties do list their namespaces. *)
Lemma elem_of_predicates L p :
  p ∈ predicates L ↔ ∃ n, _predicates L !! n = Some p.
Proof.
  unfold predicates. rewrite list_elem_of_fmap. split.
  - intros ([n q] & -> & Hq%elem_of_map_to_list). by exists n.
  - intros (n & Hn). exists (n, p). by rewrite elem_of_map_to_list.
Qed.

Lemma elem_of_functions L f :
  f ∈ functions L ↔ ∃ n, _functions L !! n = Some f.
Proof.
  unfold functions. rewrite list_elem_of_fmap. split.
  - intros ([n q] & -> & Hq%elem_of_map_to_list). by exists n.
  - intros (n & Hn). exists (n, f). by rewrite elem_of_map_to_list.
Qed.

(** ** Operator dispatch *)

Lemma register_operator_handler_lookup op t1 t2 h L :
  _operators (snd (register_operator_handler op t1 t2 h L))
    !! (op, id_of t1, id_of t2) = Some h.
Proof. simpl. apply lookup_insert_eq. Qed.

Lemma register_operator_handler_other op t1 t2 h L key :
  key ≠ (op, id_of t1, id_of t2) →
  _operators (snd (register_operator_handler op t1 t2 h L)) !! key
  = _operators L !! key.
Proof. intros Hne. simpl. by apply lookup_insert_ne. Qed.

(** C7: [dispatch_operator] looks up exactly the triple.  With a handler
    stored under it that returns a value, the call returns that value;
    with no handler under it the call raises [LanguageError], whatever is
    stored under other triples.  Neither changes the language. *)
Theorem C7_dispatch_is_exact (L : FirstOrderLanguage) (operator : string)
    (t1 t2 : Sort) (lhs rhs : PyNum) :
  (∀ h v,
      _operators L !! (operator, id_of t1, id_of t2) = Some h →
      h lhs rhs = Ok v →
      dispatch_operator operator t1 t2 lhs rhs L = (Ok v, L))
  ∧ (_operators L !! (operator, id_of t1, id_of t2) = None →
     dispatch_operator operator t1 t2 lhs rhs L = (Raise LanguageError, L)).
Proof.
  split.
  - intros h v Hh Hv. unfold dispatch_operator. run. by rewrite Hh, Hv.
  - intros Hnone. unfold dispatch_operator. run. by rewrite Hnone.
Qed.

(** The example of C7: with [+] registered on (Integer, Integer) and on
    (Real, Real), dispatching on (Integer, Integer) adds 2 and 3 to 5, and
    dispatching on (Integer, Real) raises [LanguageError], although Integer
    is a strict subtype of Real. *)
Lemma C7_dispatch_example :
  let Int := integer_sort 0 in
  let Rea := real_sort 0 in
  let L := snd (register_operator_handler "+" Rea Rea py_add
             (snd (register_operator_handler "+" Int Int py_add
                (language 0 "L")))) in
  dispatch_operator "+" Int Int (NInt 2) (NInt 3) L = (Ok (NInt 5), L)
  ∧ fst (is_strict_subtype Int Rea L) = Ok true
  ∧ ∀ lhs rhs,
      dispatch_operator "+" Int Rea lhs rhs L = (Raise LanguageError, L).
Proof.
  intros Int Rea L. split_and!.
  - apply (proj1 (C7_dispatch_is_exact L "+" Int Int (NInt 2) (NInt 3))
             py_add (NInt 5)); [|reflexivity].
    unfold L. rewrite register_operator_handler_other by done.
    apply register_operator_handler_lookup.
  - evaluate.
  - intros lhs rhs.
    apply (proj2 (C7_dispatch_is_exact L "+" Int Rea lhs rhs)).
    unfold L. do 2 rewrite register_operator_handler_other by done.
    reflexivity.
Defined.

(** ** Queries *)

(** C5, at a counterexample: on a new language, asking whether [object] is
    a strict subtype of [Natural] stores the key ["object"] in the
    promotions table. *)
Lemma C5_is_strict_subtype_writes :
  let L := language 0 "L" in
  let L' := snd (is_strict_subtype (object_sort 0) (natural_sort 0) L) in
  _possible_promotions L !! "object" = None
  ∧ _possible_promotions L' !! "object" = Some ∅
  ∧ L' ≠ L.
Proof.
  split_and!; [evaluate.. |].
  intros H. apply (f_equal (λ L, _possible_promotions L !! "object")) in H.
  vm_compute in H. discriminate.
Qed.

(** C5 as amended: the namespace queries leave the language as it is; the
    three subtyping queries leave every attribute but the promotions table
    as it is, and in the table they at most add keys, every key reading as
    before. *)
Theorem C5_queries_frame :
  (∀ n, read_only (has_sort n))
  ∧ (∀ n, read_only (get_sort n))
  ∧ (∀ n, read_only (has_predicate n))
  ∧ (∀ n, read_only (get_predicate n))
  ∧ (∀ n, read_only (has_function n))
  ∧ (∀ n, read_only (get_function n))
  ∧ (∀ n, read_only (has_constant n))
  ∧ (∀ n, read_only (get_constant n))
  ∧ (∀ t st, preserves reads_as (is_subtype t st))
  ∧ (∀ t st, preserves reads_as (is_strict_subtype t st))
  ∧ (∀ t1 t2, preserves reads_as (are_vertically_related t1 t2)).
Proof.
  split_and!.
  - apply read_only_has_sort.
  - apply read_only_get_sort.
  - apply read_only_has_predicate.
  - apply read_only_get_predicate.
  - apply read_only_has_function.
  - apply read_only_get_function.
  - apply read_only_has_constant.
  - apply read_only_get_constant.
  - apply reads_as_is_subtype.
  - apply reads_as_is_strict_subtype.
  - apply reads_as_are_vertically_related.
Qed.

(** ** Variables *)

Lemma built_variables this nm : _variables (built this nm) = [].
Proof. reflexivity. Qed.

Lemma reachable_variables allowed this nm L :
  reachable_by allowed this nm L → _variables L = [].
Proof.
  intros HL%reachable_by_extends. rewrite (ext_variables _ _ HL).
  rewrite language_built. apply built_variables.
Qed.

(** C10: in every state a language can be in, the variable set is empty
    and iterating [variables] yields nothing; [variable] never changes the
    language, and for a sort of this language, given as an object or by
    name, it returns the variable of that name and sort. *)
Theorem C10_variables_are_never_stored (this : lang_id) (nm : string)
    (L : FirstOrderLanguage) :
  reachable this nm L →
  _variables L = []
  ∧ variables L = ([], Ok tt)
  ∧ (∀ n ref, snd (variable n ref L) = L)
  ∧ (∀ n s, sort_language s = self L →
       fst (variable n (ObjSort s) L) = Ok (mkVariable n s))
  ∧ (∀ n k s, _sorts L !! k = Some s →
       fst (variable n (ObjStr k) L) = Ok (mkVariable n s)).
Proof.
  intros HL. pose proof (reachable_variables _ _ _ _ HL) as Hv.
  split_and!.
  - done.
  - unfold variables. by rewrite Hv.
  - intros n ref. symmetry. apply read_only_variable.
  - intros n s Hs. unfold variable, _retrieve_object. run.
    by rewrite bool_decide_true.
  - intros n k s Hk. unfold variable, _retrieve_object. run. by rewrite Hk.
Qed.

(** C10 at a language on which a variable was created: the theorem applies
    and gives the empty iteration and the next variable. *)
Lemma C10_witness :
  let L := after (CallVariable "x" (ObjStr "Real")) (language 0 "L") in
  reachable 0 "L" L ∧ variables L = ([], Ok tt)
  ∧ fst (variable "y" (ObjStr "Real") L)
    = Ok (mkVariable "y" (real_sort 0)).
Proof.
  intros L.
  assert (reachable 0 "L" L) as HL.
  { apply reachable_call; [apply reachable_init | exact I]. }
  destruct (C10_variables_are_never_stored 0 "L" L HL)
    as (_ & Hiter & _ & _ & Hname).
  split_and!; [exact HL | exact Hiter |].
  apply Hname. vm_compute. reflexivity.
Defined.

(** ** What the constructor establishes and no call undoes *)

Lemma promotion_set_with_sorts f L key :
  promotion_set (with_sorts f L) key = promotion_set L key.
Proof. reflexivity. Qed.

Lemma linked_promotes lhs rhs L (i : sort_id) :
  i.1 = sort_language rhs →
  rtc (edge (_sort_hierarchy L ∪ {[ (sort_name lhs, sort_name rhs) ]}))
      (sort_name rhs) i.2 →
  i ∈ promotion_set (linked lhs rhs L) (sort_name lhs).
Proof.
  intros Hl Hr. rewrite promotion_set_linked, decide_True by done.
  apply elem_of_union_r, elem_of_inclusion_closure. by split.
Qed.

Lemma linked_keeps lhs rhs L key (i : sort_id) :
  i ∈ promotion_set L key → i ∈ promotion_set (linked lhs rhs L) key.
Proof. apply (ext_promotions _ _ (extends_linked lhs rhs L)). Qed.

(** Follows one edge of a concrete hierarchy. *)
Ltac follow_edge y :=
  apply (rtc_l _ _ y); [unfold edge; simpl; set_solver |].

Lemma built_chain this nm :
  let P := promotion_set (built this nm) in
  (this, "object") ∈ P "Real"
  ∧ (this, "Real") ∈ P "Integer"
  ∧ (this, "object") ∈ P "Integer"
  ∧ (this, "Integer") ∈ P "Natural"
  ∧ (this, "Real") ∈ P "Natural"
  ∧ (this, "object") ∈ P "Natural".
Proof.
  unfold built. split_and!.
  - do 2 (apply linked_keeps; rewrite promotion_set_with_sorts).
    by apply (linked_promotes (real_sort this) (object_sort this)).
  - apply linked_keeps. rewrite promotion_set_with_sorts.
    by apply (linked_promotes (integer_sort this) (real_sort this)).
  - apply linked_keeps. rewrite promotion_set_with_sorts.
    apply (linked_promotes (integer_sort this) (real_sort this)); [done|].
    follow_edge "object". done.
  - by apply (linked_promotes (natural_sort this) (integer_sort this)).
  - apply (linked_promotes (natural_sort this) (integer_sort this)); [done|].
    follow_edge "Real". done.
  - apply (linked_promotes (natural_sort this) (integer_sort this)); [done|].
    follow_edge "Real". follow_edge "object". done.
Qed.

Lemma built_root this nm : promotion_set (built this nm) "object" = ∅.
Proof.
  unfold built.
  do 3 (rewrite promotion_set_linked, decide_False by done;
        rewrite promotion_set_with_sorts).
  reflexivity.
Qed.

Lemma built_sorts this nm :
  _sorts (built this nm) !! "object" = Some (object_sort this)
  ∧ _sorts (built this nm) !! "Real" = Some (real_sort this)
  ∧ _sorts (built this nm) !! "Integer" = Some (integer_sort this)
  ∧ _sorts (built this nm) !! "Natural" = Some (natural_sort this).
Proof. unfold built. simpl. split_and!; by simplify_map_eq. Qed.

Lemma reachable_self allowed this nm L :
  reachable_by allowed this nm L → self L = this.
Proof.
  intros HL%reachable_by_extends. rewrite (ext_self _ _ HL).
  by rewrite language_built.
Qed.

Lemma reachable_sorts allowed this nm L :
  reachable_by allowed this nm L →
  _sorts L !! "object" = Some (object_sort this)
  ∧ _sorts L !! "Real" = Some (real_sort this)
  ∧ _sorts L !! "Integer" = Some (integer_sort this)
  ∧ _sorts L !! "Natural" = Some (natural_sort this).
Proof.
  intros HL%reachable_by_extends. rewrite language_built in HL.
  destruct (built_sorts this nm) as (Ho & Hr & Hi & Hn).
  pose proof (ext_sorts _ _ HL) as Hsub.
  split_and!; by eapply lookup_weaken.
Qed.

Lemma is_strict_subtype_result t st L :
  fst (is_strict_subtype t st L)
  = Ok (bool_decide (id_of st ∈ promotion_set L (sort_name t))).
Proof.
  unfold is_strict_subtype, promotions_item, promotion_set. run.
  by destruct (_possible_promotions L !! sort_name t).
Qed.

Lemma is_subtype_result t st L :
  fst (is_subtype t st L)
  = Ok (sort_eqb t st
        || bool_decide (id_of st ∈ promotion_set L (sort_name t))).
Proof.
  unfold is_subtype. destruct (sort_eqb t st); [done|].
  apply is_strict_subtype_result.
Qed.

(** *** The promotion set of one key *)

Global Instance keeps_preorder key : PreOrder (keeps key).
Proof.
  split; [by intros L|]. intros L1 L2 L3 H12 H23. unfold keeps in *.
  by rewrite H23.
Qed.

Lemma reads_as_keeps key L L' : reads_as L L' → keeps key L L'.
Proof. intros (_ & _ & HP). apply HP. Qed.

Lemma keeps_set_parent key lhs rhs :
  sort_name lhs ≠ key → preserves (keeps key) (set_parent lhs rhs).
Proof.
  intros Hne L. destruct (set_parent_cases lhs rhs L) as [-> | ->]; simpl.
  - unfold keeps. by rewrite promotion_set_linked, decide_False.
  - reflexivity.
Qed.

Lemma keeps_sort key n supers L :
  is_Some (_sorts L !! key) → keeps key L (snd (sort n supers L)).
Proof.
  intros Hkey. unfold sort, has_sort. run.
  destruct (_sorts L !! n) as [s|] eqn:Hn; simpl; [reflexivity|].
  assert (n ≠ key) as Hne.
  { intros ->. rewrite Hn in Hkey. by destruct Hkey. }
  set (new := mkSort n (self L) false None).
  set (L1 := with_sorts <[ n := new ]> L).
  pose proof (read_only_get_sort "object" L1) as Hro.
  destruct (get_sort "object" L1) as [[o|e] L2]; simpl in *; subst L2;
    [|reflexivity].
  match goal with
  | |- context [for_each ?f ?xs L1] =>
      pose proof (preserves_for_each (keeps key) f xs
                    (λ p, keeps_set_parent key new p Hne) L1) as Hfe;
      destruct (for_each f xs L1) as [[[]|e] L3]
  end; simpl in *; exact Hfe.
Qed.

Lemma keeps_constant key n s : preserves (keeps key) (constant n s).
Proof.
  unfold constant. frame.
Qed.

Lemma keeps_predicate key n args : preserves (keeps key) (predicate n args).
Proof.
  unfold predicate. frame.
  apply preserves_comprehension; [exact _|]. intros x.
  by apply read_only_preserves, read_only_retrieve_object.
Qed.

Lemma keeps_function key n args : preserves (keeps key) (function n args).
Proof.
  unfold function. frame.
  apply preserves_comprehension; [exact _|]. intros x.
  by apply read_only_preserves, read_only_retrieve_object.
Qed.

Lemma keeps_root_after c L :
  keeps_root L c → is_Some (_sorts L !! "object") →
  keeps "object" L (after c L).
Proof.
  intros Hc Hroot. apply (after_related (keeps "object")).
  - apply reads_as_keeps.
  - apply keeps_constant.
  - apply keeps_predicate.
  - apply keeps_function.
  - done.
  - destruct c; try done; [by apply keeps_sort | by apply keeps_set_parent].
Qed.

Lemma reachable_root this nm L :
  reachable_by keeps_root this nm L → promotion_set L "object" = ∅.
Proof.
  induction 1 as [|c L HL IH Hc].
  - rewrite language_built. apply built_root.
  - rewrite <- IH. apply keeps_root_after; [done|].
    destruct (reachable_sorts _ _ _ _ HL) as (-> & _). eauto.
Qed.

(** ** The builtin chain *)

Lemma chain_promoted this nm L :
  extends (built this nm) L →
  Forall (λ p, id_of p.2 ∈ promotion_set L (sort_name p.1)) (chain this).
Proof.
  intros HL.
  pose proof (built_chain this nm) as Hc. cbv zeta in Hc.
  destruct Hc as (H1 & H2 & H3 & H4 & H5 & H6).
  unfold chain. repeat apply Forall_cons_2; [..|apply Forall_nil_2];
    apply (ext_promotions _ _ HL); assumption.
Qed.

(** X29: in every state a language can be in, whatever calls were made
    and whether they returned or raised, [is_strict_subtype] answers [True]
    on the six pairs of the chain; it answers [False] on (Object, Natural)
    after construction, and in every state reached without a [set_parent]
    made by the client on a sort named [object]. *)
Theorem builtin_chain_persists (this : lang_id) (nm : string)
    (L : FirstOrderLanguage) :
  reachable this nm L →
  Forall (λ p, fst (is_strict_subtype p.1 p.2 L) = Ok true) (chain this)
  ∧ fst (is_strict_subtype (object_sort this) (natural_sort this)
           (language this nm)) = Ok false
  ∧ (reachable_by keeps_root this nm L →
     fst (is_strict_subtype (object_sort this) (natural_sort this) L)
     = Ok false).
Proof.
  intros HL. split_and!.
  - eapply Forall_impl; [apply (chain_promoted this nm)|].
    + rewrite <- language_built. by eapply reachable_by_extends.
    + intros [t st] Hp. rewrite is_strict_subtype_result.
      by rewrite bool_decide_true.
  - rewrite is_strict_subtype_result, language_built. simpl.
    by rewrite built_root.
  - intros Hroot. rewrite is_strict_subtype_result. simpl.
    by rewrite (reachable_root _ _ _ Hroot).
Qed.

(** X29 at a language with one more sort registered: the theorem applies
    to a pair of the chain and to the root. *)
Lemma builtin_chain_witness :
  let L := after (CallSort "item" None) (language 0 "L") in
  reachable 0 "L" L
  ∧ fst (is_strict_subtype (natural_sort 0) (object_sort 0) L) = Ok true
  ∧ fst (is_strict_subtype (object_sort 0) (natural_sort 0) L) = Ok false.
Proof.
  intros L.
  assert (reachable 0 "L" L) as HL.
  { apply reachable_call; [apply reachable_init | exact I]. }
  destruct (builtin_chain_persists 0 "L" L HL) as (Hchain & _ & Hroot).
  split_and!; [exact HL | |].
  - unfold chain in Hchain.
    by do 4 apply Forall_cons_1 in Hchain as [_ Hchain];
       apply Forall_cons_1 in Hchain as [Hno _].
  - apply Hroot. apply reachable_call; [apply reachable_init | exact I].
Defined.

(** ** Constants of the builtin sorts *)


Lemma constant_builtin name ref s L :
  fst (_retrieve_object ref L) = Ok s →
  sort_builtin s = true →
  constant name ref L
  = (match cast s name with
     | Some _ => Ok (mkConstant name s)
     | None => Raise SemanticError
     end, L).
Proof.
  intros Href Hb. unfold constant. run.
  pose proof (read_only_retrieve_object ref L) as Hro.
  destruct (_retrieve_object ref L) as [[s'|e] L']; simpl in *; subst L';
    [|done].
  injection Href as ->. rewrite Hb. by destruct (cast s name).
Qed.

Lemma retrieve_builtin allowed this nm L s ref :
  reachable_by allowed this nm L →
  s ∈ [integer_sort this; natural_sort this] →
  names s ref →
  fst (_retrieve_object ref L) = Ok s.
Proof.
  intros HL Hs Href.
  pose proof (reachable_self _ _ _ _ HL) as Hself.
  destruct (reachable_sorts _ _ _ _ HL) as (_ & _ & Hi & Hn).
  unfold _retrieve_object. run.
  set_unfold in Hs. destruct Href as [-> | ->], Hs as [-> | [-> | []]];
    simpl; rewrite ?Hself, ?Hi, ?Hn, ?bool_decide_true; done.
Qed.



(** ** Cycles *)

Lemma tc_target {A : Type} (R : relation A) (P : A → Prop) :
  (∀ x y, R x y → P y) → ∀ x y, tc R x y → P y.
Proof. intros HR x y Hxy. induction Hxy; eauto. Qed.

(** A hierarchy whose edges all climb a rank has no cycle. *)
Lemma acyclic_ranked E (rank : string → nat) :
  (∀ x y, edge E x y → rank x < rank y) → acyclic E.
Proof.
  intros Hrank x Hx.
  assert (∀ a b, tc (edge E) a b → rank a < rank b) as Hlt.
  { intros a b Hab. induction Hab as [a b Hab|a b c Hab _ IH].
    - by apply Hrank.
    - specialize (Hrank _ _ Hab). lia. }
  specialize (Hlt _ _ Hx). lia.
Qed.

(** Edges added from a name that no edge leads to close no cycle. *)
Lemma acyclic_fresh_source E E' (n : string) :
  acyclic E →
  (∀ x y, edge E' x y → edge E x y ∨ x = n) →
  (∀ x y, edge E' x y → y ≠ n) →
  acyclic E'.
Proof.
  intros Hacyc Hsrc Htgt.
  assert (∀ x y, tc (edge E') x y → x ≠ n → tc (edge E) x y) as Hold.
  { intros x y Hxy. induction Hxy as [x y Hxy|x y z Hxy Hyz IH]; intros Hx.
    - apply tc_once. by destruct (Hsrc _ _ Hxy).
    - eapply tc_l; [by destruct (Hsrc _ _ Hxy)|].
      apply IH. by eapply Htgt. }
  intros x Hx. destruct (decide (x = n)) as [->|Hne].
  - by apply (tc_target _ (λ y, y ≠ n) Htgt _ _ Hx).
  - by apply (Hacyc x), Hold.
Qed.

Lemma edge_self_cycle E (s : string) : edge E s s → ¬ acyclic E.
Proof. intros He Hacyc. by apply (Hacyc s), tc_once. Qed.

(** *** What [sort] does to the graph *)

Lemma for_each_set_parent_graph (s : Sort) (xs : list Sort) L :
  let L' := snd (for_each (set_parent s) xs L) in
  _sorts L' = _sorts L
  ∧ ∀ x y, edge (_sort_hierarchy L') x y →
      edge (_sort_hierarchy L) x y
      ∨ (x = sort_name s
         ∧ ∃ p, p ∈ xs ∧ sort_language p = self L ∧ y = sort_name p).
Proof.
  revert L. induction xs as [|p xs IH]; intros L; simpl.
  - split; [done|]. by left.
  - rewrite run_bind.
    destruct (decide (sort_language p = self L)) as [Hown|Hforeign].
    + rewrite set_parent_own by done.
      destruct (IH (linked s p L)) as [Hsorts Hedges].
      split; [by rewrite Hsorts|].
      intros x y [Hxy|(-> & q & Hq & Hl & ->)]%Hedges.
      * unfold edge in Hxy. simpl in Hxy.
        apply elem_of_union in Hxy as [Hxy|Hxy%elem_of_singleton]; [by left|].
        injection Hxy as -> ->. right. split; [done|].
        exists p. split_and!; [apply list_elem_of_here | done..].
      * right. split; [done|]. exists q.
        split_and!; [by apply list_elem_of_further | done..].
    + rewrite set_parent_foreign by done. simpl. split; [done|]. by left.
Qed.

Lemma sort_keeps_acyclic n supers L o :
  _sorts L !! "object" = Some o →
  sort_name o = "object" →
  Forall (λ p, sort_language p = self L → is_Some (_sorts L !! sort_name p))
         (default [] supers) →
  targets_registered L → acyclic (_sort_hierarchy L) →
  let L' := snd (sort n supers L) in
  targets_registered L' ∧ acyclic (_sort_hierarchy L').
Proof.
  intros Ho Hname Hsupers Htargets Hacyc.
  destruct (_sorts L !! n) as [s|] eqn:Hn.
  { by rewrite (sort_duplicate n supers s). }
  rewrite (sort_fresh n supers L o) by done.
  set (new := mkSort n (self L) false None).
  set (L1 := with_sorts <[ n := new ]> L).
  assert (Forall (λ p, sort_language p = self L
                       → is_Some (_sorts L !! sort_name p))
                 (parents_of o supers)) as Hxs.
  { unfold parents_of. destruct (negb _); [|done].
    apply Forall_app. split; [done|]. apply Forall_singleton.
    intros _. rewrite Hname. eauto. }
  destruct (for_each_set_parent_graph new (parents_of o supers) L1)
    as [Hsorts Hedges].
  set (r := for_each (set_parent new) (parents_of o supers) L1) in *.
  assert (∀ x y, edge (_sort_hierarchy r.2) x y
                 → (edge (_sort_hierarchy L) x y ∨ x = n)
                   ∧ is_Some (_sorts L !! y)) as Hnew.
  { intros x y [Hxy|(-> & p & Hp & Hl & ->)]%Hedges.
    - split; [by left|]. by eapply Htargets.
    - split; [by right|]. rewrite Forall_forall in Hxs. by apply Hxs. }
  assert (targets_registered r.2 ∧ acyclic (_sort_hierarchy r.2)) as Hgoal.
  { split.
    - intros x y [_ Hy]%Hnew. rewrite Hsorts. simpl.
      apply lookup_insert_is_Some'. by right.
    - apply (acyclic_fresh_source (_sort_hierarchy L) _ n); [done| |].
      + intros x y Hxy. by apply Hnew.
      + intros x y [_ Hy]%Hnew ->. rewrite Hn in Hy. by destruct Hy. }
  by destruct r as [[[]|e] L2].
Qed.

(** *** Calls that leave the graph alone *)

Global Instance same_graph_preorder : PreOrder same_graph.
Proof.
  split; [by intros L|]. intros L1 L2 L3 [S12 E12] [S23 E23].
  split; congruence.
Qed.

Lemma reads_as_same_graph L L' : reads_as L L' → same_graph L L'.
Proof. intros (E & _ & _). by rewrite E. Qed.

Lemma same_graph_constant n s : preserves same_graph (constant n s).
Proof. unfold constant. frame. Qed.

Lemma same_graph_predicate n args : preserves same_graph (predicate n args).
Proof.
  unfold predicate. frame.
  apply preserves_comprehension; [exact _|]. intros x.
  by apply read_only_preserves, read_only_retrieve_object.
Qed.

Lemma same_graph_function n args : preserves same_graph (function n args).
Proof.
  unfold function. frame.
  apply preserves_comprehension; [exact _|]. intros x.
  by apply read_only_preserves, read_only_retrieve_object.
Qed.

Lemma same_graph_after c L :
  match c with CallSort _ _ | CallSetParent _ _ => False | _ => True end →
  same_graph L (after c L).
Proof.
  intros Hc. apply (after_related same_graph).
  - apply reads_as_same_graph.
  - apply same_graph_constant.
  - apply same_graph_predicate.
  - apply same_graph_function.
  - done.
  - by destruct c.
Qed.

(** *** The hierarchy the constructor builds *)

Lemma built_edges this nm x y :
  edge (_sort_hierarchy (built this nm)) x y →
  (x, y) = ("Real", "object") ∨ (x, y) = ("Integer", "Real")
  ∨ (x, y) = ("Natural", "Integer").
Proof.
  unfold edge, built. simpl.
  rewrite !elem_of_union, !elem_of_singleton, elem_of_empty. tauto.
Qed.

Lemma built_graph this nm :
  targets_registered (built this nm)
  ∧ acyclic (_sort_hierarchy (built this nm)).
Proof.
  split.
  - intros x y Hxy. destruct (built_sorts this nm) as (Ho & Hr & Hi & _).
    destruct (built_edges _ _ _ _ Hxy) as [H|[H|H]]; injection H as -> ->;
      [by rewrite Ho | by rewrite Hr | by rewrite Hi].
  - apply (acyclic_ranked _ builtin_rank). intros x y Hxy.
    destruct (built_edges _ _ _ _ Hxy) as [H|[H|H]]; injection H as -> ->;
      vm_compute; lia.
Qed.

Lemma same_graph_invariant L L' :
  same_graph L L' →
  targets_registered L ∧ acyclic (_sort_hierarchy L) →
  targets_registered L' ∧ acyclic (_sort_hierarchy L').
Proof.
  intros [Hs He] [Htargets Hacyc]. unfold targets_registered.
  by rewrite He, Hs.
Qed.

Lemma reachable_graph this nm L :
  reachable_by registers_only this nm L →
  targets_registered L ∧ acyclic (_sort_hierarchy L).
Proof.
  induction 1 as [|c L HL IH Hc].
  - rewrite language_built. apply built_graph.
  - destruct (reachable_sorts _ _ _ _ HL) as (Ho & _).
    destruct c as [n supers| | | | | | | | | | | | | | | | | |];
      try (by apply (same_graph_invariant L), IH; apply same_graph_after).
    destruct IH as [Htargets Hacyc]. unfold after.
    by apply (sort_keeps_acyclic n supers L (object_sort this)).
Qed.

(** *** [set_parent] whatever the closure does *)

Lemma edge_stored_fields lhs rhs L :
  _sorts (edge_stored lhs rhs L) = _sorts L
  ∧ _sort_hierarchy (edge_stored lhs rhs L)
    = _sort_hierarchy L ∪ {[ (sort_name lhs, sort_name rhs) ]}
  ∧ promotion_set (edge_stored lhs rhs L) (sort_name lhs)
    = promotion_set L (sort_name lhs).
Proof.
  unfold edge_stored, promotions_item, promotion_set. run.
  destruct (_possible_promotions L !! sort_name lhs) eqn:E; simpl;
    rewrite ?E, ?lookup_insert_eq; done.
Qed.

Lemma edge_stored_edge lhs rhs L :
  edge (_sort_hierarchy (edge_stored lhs rhs L)) (sort_name lhs) (sort_name rhs).
Proof.
  unfold edge. destruct (edge_stored_fields lhs rhs L) as (_ & -> & _).
  apply elem_of_union. right. by apply elem_of_singleton.
Qed.

Lemma set_parent_over_foreign closure lhs rhs L :
  sort_language rhs ≠ self L →
  set_parent_over closure lhs rhs L = Some (Raise LanguageError, L).
Proof. intros Hforeign. unfold set_parent_over. by rewrite bool_decide_false. Qed.

Lemma set_parent_over_own closure lhs rhs L :
  sort_language rhs = self L →
  set_parent_over closure lhs rhs L
  = match closure (edge_stored lhs rhs L) rhs with
    | Returns found =>
        Some (Ok tt,
              with_possible_promotions
                <[ sort_name lhs := promotion_set L (sort_name lhs) ∪ found ]>
                (edge_stored lhs rhs L))
    | Raises e => Some (Raise e, edge_stored lhs rhs L)
    | Hangs => None
    end.
Proof.
  intros Hown. unfold set_parent_over, edge_stored, promotion_set.
  rewrite bool_decide_true by done. simpl.
  unfold promotions_item. run.
  by destruct (_possible_promotions L !! sort_name lhs).
Qed.

(** With the closure of the model, [set_parent_over] is [set_parent]. *)
Lemma set_parent_over_total lhs rhs L :
  set_parent_over total_closure lhs rhs L = Some (set_parent lhs rhs L).
Proof.
  destruct (decide (sort_language rhs = self L)) as [Hown|Hforeign].
  - rewrite set_parent_over_own, set_parent_own by done.
    unfold total_closure, linked, edge_stored, promotions_item, promotion_set.
    run. destruct (_possible_promotions L !! sort_name lhs); simpl; [done|].
    unfold with_possible_promotions, with_sort_hierarchy. simpl.
    by rewrite insert_insert_eq.
  - by rewrite set_parent_over_foreign, set_parent_foreign.
Qed.

(** [set_parent] of a sort the language holds to itself: however the
    closure ends, the edge is stored. *)
Lemma self_parent_outcomes closure (s : Sort) L :
  sort_language s = self L →
  is_Some (_sorts L !! sort_name s) →
  (∃ L', set_parent_over closure s s L = Some (Ok tt, L')
         ∧ ¬ acyclic (_sort_hierarchy L'))
  ∨ (∃ e L', set_parent_over closure s s L = Some (Raise e, L')
             ∧ ¬ acyclic (_sort_hierarchy L')
             ∧ has_sort (sort_name s) L' = (Ok true, L')
             ∧ ¬ acyclic (_sort_hierarchy (snd (has_sort (sort_name s) L'))))
  ∨ set_parent_over closure s s L = None.
Proof.
  intros Hown Hs.
  assert (¬ acyclic (_sort_hierarchy (edge_stored s s L))) as Hcyc.
  { apply (edge_self_cycle _ (sort_name s)). apply edge_stored_edge. }
  rewrite set_parent_over_own by done.
  destruct (closure (edge_stored s s L) s) as [found|e|].
  - left. eexists. split; [reflexivity|]. exact Hcyc.
  - right. left. exists e, (edge_stored s s L).
    assert (has_sort (sort_name s) (edge_stored s s L)
            = (Ok true, edge_stored s s L)) as Hhas.
    { unfold has_sort. run.
      destruct (edge_stored_fields s s L) as (-> & _).
      by rewrite bool_decide_true. }
    split_and!; [reflexivity | exact Hcyc | exact Hhas |].
    rewrite Hhas. exact Hcyc.
  - right. right. reflexivity.
Qed.

(** C4, at a counterexample: with a sort [a] registered, the hierarchy is
    acyclic.  [set_parent(a, a)] stores the edge from [a] to itself before
    it calls [inclusion_closure], so whatever the closure does on the graph
    it is called on, one of three things happens.  The call returns, and
    the hierarchy it leaves has a cycle.  Or the call raises what the
    closure raised, the hierarchy it leaves has a cycle, and [has_sort]
    then returns in that language.  Or the call does not return, and so
    raises nothing. *)
Lemma C4_self_parent_stores_a_cycle :
  let a := mkSort "a" 0 false None in
  let L := after (CallSort "a" None) (language 0 "L") in
  _sorts L !! "a" = Some a
  ∧ acyclic (_sort_hierarchy L)
  ∧ ∀ closure,
      (∃ L', set_parent_over closure a a L = Some (Ok tt, L')
             ∧ ¬ acyclic (_sort_hierarchy L'))
      ∨ (∃ e L', set_parent_over closure a a L = Some (Raise e, L')
                 ∧ ¬ acyclic (_sort_hierarchy L')
                 ∧ has_sort "a" L' = (Ok true, L')
                 ∧ ¬ acyclic (_sort_hierarchy (snd (has_sort "a" L'))))
      ∨ set_parent_over closure a a L = None.
Proof.
  intros a L.
  assert (_sorts L !! "a" = Some a) as Ha by evaluate.
  assert (reachable_by registers_only 0 "L" L) as HL.
  { apply reachable_call; [apply reachable_init|]. by apply Forall_nil. }
  split_and!; [exact Ha | by apply (reachable_graph 0 "L") |].
  intros closure. apply (self_parent_outcomes closure a L).
  - by rewrite (reachable_self _ _ _ _ HL).
  - exact (mk_is_Some _ _ Ha).
Qed.

(** C4 as amended: no call checks for cycles.  [set_parent] raises
    [LanguageError] itself exactly when the parent belongs to another
    language, and then leaves the language as it was.  Otherwise it stores
    the edge, also one that closes a cycle, before it calls
    [inclusion_closure], and ends as the closure does: when the closure
    returns, [set_parent] returns with the promotion set extended; when the
    closure raises, [set_parent] raises the same with the edge stored; when
    the closure does not return, neither does [set_parent].  The hierarchy
    is acyclic after construction and after every sequence of calls in
    which the client does not call [set_parent] and gives [sort] parents
    the language holds: [sort] only adds edges from the sort it registers
    to sorts registered before. *)
Theorem C4_cycles_are_not_rejected :
  (∀ closure lhs rhs L,
     (sort_language rhs ≠ self L →
      set_parent_over closure lhs rhs L = Some (Raise LanguageError, L))
     ∧ (sort_language rhs = self L →
        edge (_sort_hierarchy (edge_stored lhs rhs L))
             (sort_name lhs) (sort_name rhs)
        ∧ set_parent_over closure lhs rhs L
          = match closure (edge_stored lhs rhs L) rhs with
            | Returns found =>
                Some (Ok tt,
                      with_possible_promotions
                        <[ sort_name lhs :=
                             promotion_set L (sort_name lhs) ∪ found ]>
                        (edge_stored lhs rhs L))
            | Raises e => Some (Raise e, edge_stored lhs rhs L)
            | Hangs => None
            end))
  ∧ (∀ this nm L,
       reachable_by registers_only this nm L → acyclic (_sort_hierarchy L)).
Proof.
  split.
  - intros closure lhs rhs L. split.
    + apply set_parent_over_foreign.
    + intros Hown. split; [apply edge_stored_edge|].
      by apply set_parent_over_own.
  - intros this nm L HL. by apply (reachable_graph this nm).
Qed.

(** C4 at a language with one more sort registered, which is reached
    without a [set_parent] of the client: the hierarchy is acyclic, a parent
    of another language is refused, and the edge from the new sort to
    itself is stored. *)
Lemma C4_witness :
  let a := mkSort "a" 0 false None in
  let L := after (CallSort "a" None) (language 0 "L") in
  reachable_by registers_only 0 "L" L
  ∧ acyclic (_sort_hierarchy L)
  ∧ set_parent_over total_closure a (object_sort 1) L
    = Some (Raise LanguageError, L)
  ∧ edge (_sort_hierarchy (edge_stored a a L)) "a" "a".
Proof.
  intros a L.
  assert (reachable_by registers_only 0 "L" L) as HL.
  { apply reachable_call; [apply reachable_init|]. by apply Forall_nil. }
  pose proof (reachable_self _ _ _ _ HL) as Hself.
  destruct C4_cycles_are_not_rejected as [Hset Hacyc].
  split_and!; [exact HL | exact (Hacyc 0 "L" L HL) | |]; clearbody L.
  - apply (Hset total_closure a (object_sort 1) L). by rewrite Hself.
  - apply (Hset total_closure a a L). by rewrite Hself.
Defined.

(** *** The root and the closure *)

Lemma built_cycle_through_root this nm L :
  extends (built this nm) L →
  ¬ acyclic (_sort_hierarchy
               (edge_stored (object_sort this) (natural_sort this) L)).
Proof.
  intros HL Hacyc. apply (Hacyc "object").
  assert (∀ x y, edge (_sort_hierarchy (built this nm)) x y →
            edge (_sort_hierarchy
                    (edge_stored (object_sort this) (natural_sort this) L))
                 x y) as Hold.
  { intros x y Hxy. unfold edge.
    destruct (edge_stored_fields (object_sort this) (natural_sort this) L)
      as (_ & -> & _).
    apply elem_of_union. left. by apply (ext_hierarchy _ _ HL). }
  apply (tc_l _ _ "Natural");
    [apply (edge_stored_edge (object_sort this) (natural_sort this))|].
  apply (tc_l _ _ "Integer");
    [apply Hold; unfold edge, built; simpl; set_solver|].
  apply (tc_l _ _ "Real");
    [apply Hold; unfold edge, built; simpl; set_solver|].
  apply tc_once. apply Hold. unfold edge, built. simpl. set_solver.
Qed.

(** X30: [set_parent(Object, Natural)], in a state reached without a
    [set_parent] of the client on a sort named [object], calls
    [inclusion_closure] on a hierarchy with a cycle through the four builtin
    sorts, and what [is_strict_subtype(Object, Natural)] answers afterwards
    follows the closure: when the closure returns, [True] exactly when
    Natural is in the set returned; when it raises, [False] as before; when
    it does not return, neither does [set_parent]. *)
Theorem root_promotion_follows_the_closure (this : lang_id) (nm : string)
    (L : FirstOrderLanguage)
    (closure : FirstOrderLanguage → Sort → closure_outcome) :
  reachable_by keeps_root this nm L →
  let o := object_sort this in
  let n := natural_sort this in
  ¬ acyclic (_sort_hierarchy (edge_stored o n L))
  ∧ fst (is_strict_subtype o n L) = Ok false
  ∧ match closure (edge_stored o n L) n with
    | Returns found =>
        ∃ L', set_parent_over closure o n L = Some (Ok tt, L')
              ∧ fst (is_strict_subtype o n L')
                = Ok (bool_decide (id_of n ∈ found))
    | Raises e =>
        ∃ L', set_parent_over closure o n L = Some (Raise e, L')
              ∧ fst (is_strict_subtype o n L') = Ok false
    | Hangs => set_parent_over closure o n L = None
    end.
Proof.
  intros HL o n.
  pose proof (reachable_self _ _ _ _ HL) as Hself.
  pose proof (reachable_root _ _ _ HL) as Hroot.
  pose proof (reachable_by_extends _ _ _ _ HL) as Hext.
  rewrite language_built in Hext.
  destruct (edge_stored_fields o n L) as (_ & _ & Hset).
  change (sort_name o) with "object" in Hset. rewrite Hroot in Hset.
  split_and!.
  - by apply (built_cycle_through_root this nm).
  - rewrite is_strict_subtype_result.
    change (sort_name o) with "object". by rewrite Hroot.
  - rewrite (set_parent_over_own closure o n L) by (by rewrite Hself).
    destruct (closure (edge_stored o n L) n) as [found|e|].
    + eexists. split; [reflexivity|].
      rewrite is_strict_subtype_result. f_equal.
      change (sort_name o) with "object". rewrite Hroot.
      unfold promotion_set. simpl. rewrite lookup_insert_eq. simpl.
      apply bool_decide_ext. by rewrite (left_id_L ∅ (∪)).
    + eexists. split; [reflexivity|].
      rewrite is_strict_subtype_result.
      change (sort_name o) with "object". by rewrite Hset.
    + reflexivity.
Qed.

(** X30 at a new language: with the closure of the model, which returns,
    the answer becomes [True]; with a closure that raises on the cycle, it
    stays [False]. *)
Lemma root_promotion_witness :
  let L := language 0 "L" in
  let o := object_sort 0 in
  let n := natural_sort 0 in
  reachable_by keeps_root 0 "L" L
  ∧ (∃ L', set_parent_over total_closure o n L = Some (Ok tt, L')
           ∧ fst (is_strict_subtype o n L') = Ok true)
  ∧ (∃ L', set_parent_over (λ _ _, Raises RecursionError) o n L
           = Some (Raise RecursionError, L')
           ∧ fst (is_strict_subtype o n L') = Ok false).
Proof.
  intros L o n.
  pose proof (reachable_init keeps_root 0 "L") as HL.
  split_and!; [exact HL | |].
  - destruct (root_promotion_follows_the_closure 0 "L" L total_closure HL)
      as (_ & _ & L' & Hset & Hq).
    exists L'. split; [exact Hset|]. subst o n. rewrite Hq.
    by rewrite bool_decide_true by apply inclusion_closure_self.
  - exact (proj2 (proj2 (root_promotion_follows_the_closure
                           0 "L" L (λ _ _, Raises RecursionError) HL))).
Defined.

(** ** The root among the promotions *)

Lemma for_each_set_parent_promotes (s : Sort) (xs : list Sort) L p :
  fst (for_each (set_parent s) xs L) = Ok tt →
  p ∈ xs →
  id_of p ∈ promotion_set (snd (for_each (set_parent s) xs L)) (sort_name s).
Proof.
  revert L. induction xs as [|q xs IH]; intros L Hok Hp.
  { by apply elem_of_nil in Hp. }
  simpl in *. rewrite run_bind in *.
  destruct (decide (sort_language q = self L)) as [Hown|Hforeign].
  - rewrite set_parent_own in * by done.
    apply elem_of_cons in Hp as [->|Hp]; [|by apply IH].
    apply (ext_promotions _ _
             (preserves_for_each extends (set_parent s) xs
                (extends_set_parent s) (linked s q L))).
    by apply linked_promotes.
  - by rewrite set_parent_foreign in Hok.
Qed.

Lemma sort_in_true o xs :
  sort_in o xs = true → ∃ p, p ∈ xs ∧ id_of p = id_of o.
Proof.
  unfold sort_in. intros (p & Hp & Heq)%existsb_exists.
  exists p. split; [by apply list_elem_of_In|].
  symmetry. by apply bool_decide_eq_true in Heq.
Qed.

Lemma root_among_parents o supers :
  ∃ p, p ∈ parents_of o supers ∧ id_of p = id_of o.
Proof.
  unfold parents_of. destruct (sort_in o (default [] supers)) eqn:Hin; simpl.
  - by apply sort_in_true.
  - exists o. split; [|done]. apply elem_of_app. right. apply list_elem_of_here.
Qed.

(** A registration that returns has put the root in the promotion set of
    the new sort. *)
Lemma sort_promotes_root n supers L o s :
  _sorts L !! "object" = Some o →
  fst (sort n supers L) = Ok s →
  s = mkSort n (self L) false None
  ∧ id_of o ∈ promotion_set (snd (sort n supers L)) n
  ∧ fst (is_subtype s o (snd (sort n supers L))) = Ok true.
Proof.
  intros Ho Hok.
  destruct (_sorts L !! n) as [s'|] eqn:Hn.
  { by rewrite (sort_duplicate n supers s') in Hok. }
  rewrite (sort_fresh n supers L o) in * by done.
  set (new := mkSort n (self L) false None) in *.
  destruct (root_among_parents o supers) as (p & Hp & Hid).
  pose proof (for_each_set_parent_promotes new (parents_of o supers)
                (with_sorts <[ n := new ]> L) p) as Hpromotes.
  destruct (for_each (set_parent new) (parents_of o supers) _)
    as [[[]|e] L']; simpl in *; [|done].
  injection Hok as <-. rewrite <- Hid.
  split_and!; [done | by apply Hpromotes |].
  rewrite is_subtype_result. rewrite <- Hid.
  rewrite (bool_decide_true (id_of p ∈ _)) by (by apply Hpromotes).
  by rewrite orb_true_r.
Qed.

(** A registration without parents of a new name returns. *)
Lemma sort_without_parents n L o :
  _sorts L !! n = None →
  _sorts L !! "object" = Some o →
  sort_language o = self L →
  fst (sort n None L) = Ok (mkSort n (self L) false None).
Proof.
  intros Hn Ho Hown. rewrite (sort_fresh n None L o) by done.
  unfold parents_of. simpl. rewrite run_bind.
  by rewrite set_parent_own.
Qed.

(** What holds of C8: in every state a language can be in, registering a
    new name without parents returns a sort whose promotion set contains
    the root, and so does every registration that returns. *)
Lemma registered_sort_derives_from_object this nm L n :
  reachable this nm L →
  (_sorts L !! n = None →
   fst (sort n None L) = Ok (mkSort n this false None))
  ∧ (∀ supers s,
       fst (sort n supers L) = Ok s →
       id_of (object_sort this) ∈ promotion_set (snd (sort n supers L)) n
       ∧ fst (is_subtype s (object_sort this) (snd (sort n supers L)))
         = Ok true).
Proof.
  intros HL. destruct (reachable_sorts _ _ _ _ HL) as (Ho & _).
  pose proof (reachable_self _ _ _ _ HL) as Hself. split.
  - intros Hn. rewrite <- Hself. by apply (sort_without_parents n L _ Hn Ho).
  - intros supers s Hok.
    by destruct (sort_promotes_root n supers L _ s Ho Hok) as (_ & ? & ?).
Qed.

(** The builtin sorts below the root have it in their promotion sets after
    construction and ever after. *)
Lemma builtin_sorts_derive_from_object this nm L :
  reachable this nm L →
  Forall (λ key, id_of (object_sort this) ∈ promotion_set L key)
         ["Real"; "Integer"; "Natural"].
Proof.
  intros HL%reachable_by_extends. rewrite language_built in HL.
  pose proof (built_chain this nm) as Hc. cbv zeta in Hc.
  destruct Hc as (H1 & _ & H3 & _ & _ & H6).
  repeat apply Forall_cons_2; [..|apply Forall_nil_2];
    apply (ext_promotions _ _ HL); assumption.
Qed.

(** C8, at a failing input: the registration of C1 with the [object] sort
    of another language as the only parent raises [LanguageError] before
    any parent is set.  The language is left holding the sort [a], which is
    not the root, with an empty promotion set: [is_subtype(a, Object)]
    answers [False]. *)
Theorem C8_failed_registration_leaves_a_sort_without_root :
  let L := language 0 "L" in
  let a := mkSort "a" 0 false None in
  let r := sort "a" (Some [object_sort 1]) L in
  fst r = Raise LanguageError
  ∧ reachable 0 "L" (snd r)
  ∧ _sorts (snd r) !! "a" = Some a
  ∧ fst (get_sort "a" (snd r)) = Ok a
  ∧ sort_name a ≠ "object"
  ∧ promotion_set (snd r) "a" = ∅
  ∧ (id_of (object_sort 0) ∉ promotion_set (snd r) "a")
  ∧ fst (is_strict_subtype a (object_sort 0) (snd r)) = Ok false
  ∧ fst (is_subtype a (object_sort 0) (snd r)) = Ok false.
Proof.
  intros L a r.
  split_and!; [evaluate | | evaluate | evaluate | done | evaluate..].
  apply (reachable_call _ _ _ (CallSort "a" (Some [object_sort 1])));
    [apply reachable_init | exact I].
Qed.

(** ** What each call changes *)

Global Instance relinked_preorder : PreOrder relinked.
Proof.
  split.
  - by intros [].
  - intros L1 L2 L3 H12 H23. unfold relinked in *.
    rewrite H23. simpl. rewrite H12. reflexivity.
Qed.

Lemma reads_as_relinked L L' : reads_as L L' → relinked L L'.
Proof.
  intros (E & _ & _). unfold relinked. rewrite E. by destruct L.
Qed.

Lemma relinked_set_parent lhs rhs : preserves relinked (set_parent lhs rhs).
Proof.
  intros L. destruct (set_parent_cases lhs rhs L) as [-> | ->]; simpl.
  - by destruct L.
  - reflexivity.
Qed.

Lemma retrieve_object_state obj L :
  _retrieve_object obj L = (fst (_retrieve_object obj L), L).
Proof.
  pose proof (read_only_retrieve_object obj L) as H.
  destruct (_retrieve_object obj L); simpl in *. by subst.
Qed.

Lemma comprehension_state args L :
  comprehension _retrieve_object args L = (resolved L args, L).
Proof.
  pose proof (preserves_comprehension eq _retrieve_object args
                read_only_retrieve_object L) as H.
  unfold resolved. destruct (comprehension _ args L); simpl in *. by subst.
Qed.

Lemma resolved_cons a args L :
  resolved L (a :: args)
  = match fst (_retrieve_object a L) with
    | Ok s => match resolved L args with
              | Ok ss => Ok (s :: ss)
              | Raise e => Raise e
              end
    | Raise e => Raise e
    end.
Proof.
  unfold resolved at 1. simpl. rewrite run_bind, retrieve_object_state.
  destruct (fst (_retrieve_object a L)); [|done].
  rewrite run_bind, comprehension_state. by destruct (resolved L args).
Qed.

(** [sort] on a name the language holds changes nothing; on a new name it
    stores the new sort, and then changes edges and promotions only. *)
Lemma sort_effect n supers L :
  _sorts L !! n = None →
  relinked (with_sorts <[ n := new_sort L n ]> L) (snd (sort n supers L)).
Proof.
  intros Hn. unfold sort, has_sort. run. rewrite Hn. simpl.
  fold (new_sort L n).
  set (L1 := with_sorts <[ n := new_sort L n ]> L).
  pose proof (read_only_get_sort "object" L1) as Hro.
  destruct (get_sort "object" L1) as [[o|e] L2]; simpl in *; subst L2;
    [|reflexivity].
  match goal with
  | |- context [for_each ?f ?xs L1] =>
      pose proof (preserves_for_each relinked f xs
                    (relinked_set_parent (new_sort L n)) L1) as Hfe;
      destruct (for_each f xs L1) as [[[]|e] L3]
  end; simpl in *; exact Hfe.
Qed.

Lemma predicate_effect n args L :
  predicate n args L
  = match _predicates L !! n with
    | Some p => (Raise (DuplicatePredicateDefinition n p), L)
    | None =>
        match resolved L args with
        | Ok types =>
            (Ok (mkPredicate n (self L) types),
             with_predicates <[ n := mkPredicate n (self L) types ]> L)
        | Raise e => (Raise e, L)
        end
    end.
Proof.
  unfold predicate. run. destruct (_predicates L !! n); [done|].
  rewrite comprehension_state. by destruct (resolved L args).
Qed.

Lemma function_effect n args L :
  function n args L
  = match _functions L !! n with
    | Some f => (Raise (DuplicateFunctionDefinition n f), L)
    | None =>
        match resolved L args with
        | Ok types =>
            (Ok (mkFunction n (self L) types),
             with_functions <[ n := mkFunction n (self L) types ]> L)
        | Raise e => (Raise e, L)
        end
    end.
Proof.
  unfold function. run. destruct (_functions L !! n); [done|].
  rewrite comprehension_state. by destruct (resolved L args).
Qed.

Lemma constant_effect n ref L :
  constant n ref L
  = match fst (_retrieve_object ref L) with
    | Raise e => (Raise e, L)
    | Ok s =>
        if sort_builtin s
        then (match cast s n with
              | Some _ => Ok (mkConstant n s)
              | None => Raise SemanticError
              end, L)
        else match _constants L !! n with
             | Some c => (Raise (DuplicateConstantDefinition n c), L)
             | None => (Ok (mkConstant n s),
                        with_constants <[ n := mkConstant n s ]> L)
             end
    end.
Proof.
  unfold constant. rewrite run_bind, retrieve_object_state.
  destruct (fst (_retrieve_object ref L)) as [s|e]; [|done].
  run. destruct (sort_builtin s).
  - by destruct (cast s n).
  - by destruct (_constants L !! n).
Qed.

(** The calls that only read, or read the promotions table. *)
Lemma query_effect c L :
  match c with
  | CallSort _ _ | CallSetParent _ _ | CallConstant _ _ | CallPredicate _ _
  | CallFunction _ _ | CallRegisterOperatorHandler _ _ _ _ => False
  | _ => True
  end →
  reads_as L (after c L).
Proof.
  intros Hc. destruct c; try done; unfold after;
    first
      [ apply reads_as_is_subtype
      | apply reads_as_is_strict_subtype
      | apply reads_as_are_vertically_related
      | apply (read_only_preserves reads_as);
        first
          [ apply read_only_variable | apply read_only_dispatch_operator
          | apply read_only_has_sort | apply read_only_get_sort
          | apply read_only_has_constant | apply read_only_get_constant
          | apply read_only_has_predicate | apply read_only_get_predicate
          | apply read_only_has_function | apply read_only_get_function ] ].
Qed.

(** The effect of a call on the language, by cases. *)
Lemma after_cases c L :
  relinked L (after c L)
  ∨ (∃ n supers, c = CallSort n supers ∧ _sorts L !! n = None
       ∧ relinked (with_sorts <[ n := new_sort L n ]> L) (after c L))
  ∨ (∃ n args types, c = CallPredicate n args ∧ _predicates L !! n = None
       ∧ resolved L args = Ok types
       ∧ after c L
         = with_predicates <[ n := mkPredicate n (self L) types ]> L)
  ∨ (∃ n args types, c = CallFunction n args ∧ _functions L !! n = None
       ∧ resolved L args = Ok types
       ∧ after c L
         = with_functions <[ n := mkFunction n (self L) types ]> L)
  ∨ (∃ n ref s, c = CallConstant n ref ∧ _constants L !! n = None
       ∧ fst (_retrieve_object ref L) = Ok s ∧ sort_builtin s = false
       ∧ after c L = with_constants <[ n := mkConstant n s ]> L)
  ∨ (∃ op t1 t2 h, c = CallRegisterOperatorHandler op t1 t2 h
       ∧ after c L = with_operators <[ (op, id_of t1, id_of t2) := h ]> L).
Proof.
  destruct c as [n supers|lhs rhs| |n ref|n args|n args|op t1 t2 h| | | | | | | | | | | | ];
    try (left; apply reads_as_relinked, query_effect; exact I).
  - destruct (_sorts L !! n) as [s|] eqn:Hn.
    + left. simpl. by rewrite (sort_duplicate n supers s).
    + right. left. exists n, supers. split_and!; [done..|].
      by apply sort_effect.
  - left. apply relinked_set_parent.
  - simpl. rewrite constant_effect.
    destruct (fst (_retrieve_object ref L)) as [s|e] eqn:Hs;
      [|by left].
    destruct (sort_builtin s) eqn:Hb; [by left|].
    destruct (_constants L !! n) eqn:Hn; [by left|].
    do 4 right. left. by exists n, ref, s.
  - simpl. rewrite predicate_effect.
    destruct (_predicates L !! n) eqn:Hn; [by left|].
    destruct (resolved L args) as [types|e] eqn:Hr; [|by left].
    do 2 right. left. by exists n, args, types.
  - simpl. rewrite function_effect.
    destruct (_functions L !! n) eqn:Hn; [by left|].
    destruct (resolved L args) as [types|e] eqn:Hr; [|by left].
    do 3 right. left. by exists n, args, types.
  - do 5 right. by exists op, t1, t2, h.
Qed.

(** X4: every call leaves identity, name, variables and the two flags as
    they were, and each registry of entities is changed by one method only,
    which adds one entry under a key that was free: [_sorts] by [sort]
    (also when [sort] then raises), [_predicates] by [predicate],
    [_functions] by [function], [_constants] by [constant] for a sort that
    is not builtin; [_operators] is written by [register_operator_handler]
    only. *)
Theorem each_call_writes_one_registry (c : call) (L : FirstOrderLanguage) :
  let L' := after c L in
  self L' = self L ∧ name L' = name L ∧ _variables L' = _variables L
  ∧ language_components_frozen L' = language_components_frozen L
  ∧ theories L' = theories L
  ∧ (_sorts L' = _sorts L
     ∨ ∃ n supers, c = CallSort n supers ∧ _sorts L !! n = None
         ∧ _sorts L' = <[ n := new_sort L n ]> (_sorts L))
  ∧ (_predicates L' = _predicates L
     ∨ ∃ n args types, c = CallPredicate n args ∧ _predicates L !! n = None
         ∧ resolved L args = Ok types
         ∧ _predicates L'
           = <[ n := mkPredicate n (self L) types ]> (_predicates L))
  ∧ (_functions L' = _functions L
     ∨ ∃ n args types, c = CallFunction n args ∧ _functions L !! n = None
         ∧ resolved L args = Ok types
         ∧ _functions L'
           = <[ n := mkFunction n (self L) types ]> (_functions L))
  ∧ (_constants L' = _constants L
     ∨ ∃ n ref s, c = CallConstant n ref ∧ _constants L !! n = None
         ∧ fst (_retrieve_object ref L) = Ok s ∧ sort_builtin s = false
         ∧ _constants L' = <[ n := mkConstant n s ]> (_constants L))
  ∧ (_operators L' = _operators L
     ∨ ∃ op t1 t2 h, c = CallRegisterOperatorHandler op t1 t2 h
         ∧ _operators L' = <[ (op, id_of t1, id_of t2) := h ]> (_operators L)).
Proof.
  intros L'. subst L'. remember (after c L) as L' eqn:HL'.
  destruct (after_cases c L) as [H|[H|[H|[H|[H|H]]]]]; rewrite <- HL' in H.
  - rewrite H. simpl. split_and!; auto.
  - destruct H as (n & supers & -> & Hn & H). rewrite H. simpl.
    split_and!; auto. right. by exists n, supers.
  - destruct H as (n & args & types & -> & Hn & Hr & H). rewrite H. simpl.
    split_and!; auto. right. by exists n, args, types.
  - destruct H as (n & args & types & -> & Hn & Hr & H). rewrite H. simpl.
    split_and!; auto. right. by exists n, args, types.
  - destruct H as (n & ref & s & -> & Hn & Hr & Hb & H). rewrite H. simpl.
    split_and!; auto. right. by exists n, ref, s.
  - destruct H as (op & t1 & t2 & h & -> & H). rewrite H. simpl.
    split_and!; auto. right. by exists op, t1, t2, h.
Qed.

(** X3: no call, returning or raising, removes or replaces a sort, an
    edge, a member of a promotion set, a predicate, a function or a
    constant: what a registry held before the call it holds after it, under
    the same key.  (The operator table is left out: a handler can be
    replaced.) *)
Theorem no_call_removes_or_replaces (c : call) (L : FirstOrderLanguage) :
  let L' := after c L in
  (∀ k s, _sorts L !! k = Some s → _sorts L' !! k = Some s)
  ∧ (∀ e, e ∈ _sort_hierarchy L → e ∈ _sort_hierarchy L')
  ∧ (∀ k i, i ∈ promotion_set L k → i ∈ promotion_set L' k)
  ∧ (∀ k p, _predicates L !! k = Some p → _predicates L' !! k = Some p)
  ∧ (∀ k f, _functions L !! k = Some f → _functions L' !! k = Some f)
  ∧ (∀ k x, _constants L !! k = Some x → _constants L' !! k = Some x).
Proof.
  intros L'. destruct (extends_after c L) as [_ _ HS HE HP HF HQ HC _].
  fold L' in HS, HE, HP, HF, HQ, HC. split_and!.
  - intros k s Hk. by eapply lookup_weaken.
  - intros e. apply HE.
  - intros k i. apply HP.
  - intros k p Hk. by eapply lookup_weaken.
  - intros k f Hk. by eapply lookup_weaken.
  - intros k x Hk. by eapply lookup_weaken.
Qed.

(** ** What the registries hold *)

Lemma retrieve_object_own obj s L :
  sorts_well_registered L →
  fst (_retrieve_object obj L) = Ok s →
  sort_language s = self L.
Proof.
  intros HL. unfold _retrieve_object. run. destruct obj as [k|t|]; simpl.
  - destruct (_sorts L !! k) as [t|] eqn:Hk; simpl; [|done].
    intros [= <-]. by apply (HL k).
  - case_bool_decide; simpl; [|done]. by intros [= <-].
  - done.
Qed.

Lemma resolved_own args types L :
  sorts_well_registered L →
  resolved L args = Ok types →
  Forall (λ s, sort_language s = self L) types.
Proof.
  intros HL. revert types. induction args as [|a args IH]; intros types.
  - by intros [= <-].
  - rewrite resolved_cons.
    destruct (fst (_retrieve_object a L)) as [s|e] eqn:Hs; [|done].
    destruct (resolved L args) as [ss|e]; [|done].
    intros [= <-]. constructor; [by eapply retrieve_object_own | by apply IH].
Qed.

Lemma built_registry this nm :
  sorts_well_registered (built this nm)
  ∧ symbols_well_registered (built this nm).
Proof.
  split.
  - intros k s. unfold built. simpl. unfold numeric_names.
    rewrite !lookup_insert_Some, lookup_empty.
    intros [[<- <-]|[_ [[<- <-]|[_ [[<- <-]|[_ [[<- <-]|[_ ?]]]]]]]];
      try done; split_and!; try done; intros _; set_solver.
  - by split_and!; intros k x; simpl.
Qed.

Lemma relinked_registry L L' :
  relinked L L' →
  sorts_well_registered L ∧ symbols_well_registered L →
  sorts_well_registered L' ∧ symbols_well_registered L'.
Proof.
  intros H. unfold sorts_well_registered, symbols_well_registered.
  rewrite H. by simpl.
Qed.

Lemma after_registry c L :
  sorts_well_registered L ∧ symbols_well_registered L →
  sorts_well_registered (after c L) ∧ symbols_well_registered (after c L).
Proof.
  intros [HS HY].
  destruct (after_cases c L) as [H|[H|[H|[H|[H|H]]]]].
  - by apply (relinked_registry L).
  - destruct H as (n & supers & _ & Hn & H).
    apply (relinked_registry _ _ H). split; [|done].
    intros k s. simpl. rewrite lookup_insert_Some.
    intros [[<- <-]|[_ Hk]]; [done|]. by apply HS.
  - destruct H as (n & args & types & _ & Hn & Hr & ->).
    split; [done|]. destruct HY as (HP & HF & HC).
    split_and!; [|done..]. intros k p. simpl. rewrite lookup_insert_Some.
    intros [[<- <-]|[_ Hk]]; [|by apply HP].
    split_and!; [done..|]. by apply (resolved_own args).
  - destruct H as (n & args & types & _ & Hn & Hr & ->).
    split; [done|]. destruct HY as (HP & HF & HC).
    split_and!; [done| |done]. intros k p. simpl. rewrite lookup_insert_Some.
    intros [[<- <-]|[_ Hk]]; [|by apply HF].
    split_and!; [done..|]. by apply (resolved_own args).
  - destruct H as (n & ref & s & _ & Hn & Hr & Hb & ->).
    split; [done|]. destruct HY as (HP & HF & HC).
    split_and!; [done..|]. intros k x. simpl. rewrite lookup_insert_Some.
    intros [[<- <-]|[_ Hk]]; [|by apply HC].
    split_and!; [done| |done]. by apply (retrieve_object_own ref).
  - destruct H as (op & t1 & t2 & h & _ & ->). done.
Qed.

Lemma reachable_registry allowed this nm L :
  reachable_by allowed this nm L →
  sorts_well_registered L ∧ symbols_well_registered L.
Proof.
  induction 1 as [|c L HL IH Hc].
  - rewrite language_built. apply built_registry.
  - by apply after_registry.
Qed.

(** X5: in every state a language can be in, every sort it holds is stored
    under its own name and belongs to this language, and the builtin ones
    are exactly those named [Real], [Integer] and [Natural].  What
    [_retrieve_object] returns is a sort of this language, which resolves
    to itself when handed over again; a name resolves to the sort
    [get_sort] returns for it; and the sort of every variable [variable]
    returns belongs to this language. *)
Theorem registered_sorts_belong_to_the_language (this : lang_id)
    (nm : string) (L : FirstOrderLanguage) :
  reachable this nm L →
  (∀ k s, _sorts L !! k = Some s →
     sort_name s = k ∧ sort_language s = this
     ∧ (sort_builtin s = true ↔ k ∈ numeric_names))
  ∧ (∀ obj s, fst (_retrieve_object obj L) = Ok s →
       sort_language s = this
       ∧ _retrieve_object (ObjSort s) L = (Ok s, L))
  ∧ (∀ k s, fst (_retrieve_object (ObjStr k) L) = Ok s →
       sort_name s = k ∧ get_sort k L = (Ok s, L))
  ∧ (∀ n obj v, fst (variable n obj L) = Ok v →
       var_symbol v = n ∧ sort_language (var_sort v) = this).
Proof.
  intros HL. destruct (reachable_registry _ _ _ _ HL) as [HS _].
  pose proof (reachable_self _ _ _ _ HL) as Hself.
  destruct (reachable_sorts _ _ _ _ HL) as (_ & HR & HI & HN).
  split_and!.
  - intros k s Hk. destruct (HS k s Hk) as (Hname & Hlang & Hb).
    split_and!; [done|congruence|]. split; [done|].
    unfold numeric_names. rewrite !elem_of_cons, elem_of_nil.
    intros [->|[->|[->|[]]]].
    + rewrite HR in Hk. by injection Hk as <-.
    + rewrite HI in Hk. by injection Hk as <-.
    + rewrite HN in Hk. by injection Hk as <-.
  - intros obj s Hs. pose proof (retrieve_object_own obj s L HS Hs) as Hown.
    split; [congruence|]. unfold _retrieve_object. run.
    by rewrite bool_decide_true.
  - intros k s. unfold _retrieve_object. run.
    destruct (_sorts L !! k) as [t|] eqn:Hk; simpl; [|done].
    intros [= <-]. split; [by apply (HS k)|]. by apply get_sort_registered.
  - intros n obj v. unfold variable. rewrite run_bind, retrieve_object_state.
    destruct (fst (_retrieve_object obj L)) as [s|e] eqn:Hs; [|done].
    intros [= <-]. split; [done|]. simpl. rewrite <- Hself.
    by apply (retrieve_object_own obj).
Qed.

(** X5 at a language with one more sort registered. *)
Lemma registered_sorts_witness :
  let L := after (CallSort "item" None) (language 0 "L") in
  reachable 0 "L" L
  ∧ ∀ k s, _sorts L !! k = Some s →
      sort_name s = k ∧ sort_language s = 0
      ∧ (sort_builtin s = true ↔ k ∈ numeric_names).
Proof.
  intros L.
  assert (reachable 0 "L" L) as HL.
  { apply reachable_call; [apply reachable_init | exact I]. }
  split; [exact HL|].
  exact (proj1 (registered_sorts_belong_to_the_language 0 "L" L HL)).
Defined.

(** X6: in every state a language can be in, every predicate and function
    it holds is stored under its own name, belongs to this language and has
    argument sorts of this language only; every constant it holds is stored
    under its own symbol, and its sort belongs to this language and is not
    builtin (constants of builtin sorts are never stored). *)
Theorem symbols_refer_to_sorts_of_the_language (this : lang_id)
    (nm : string) (L : FirstOrderLanguage) :
  reachable this nm L →
  (∀ k p, _predicates L !! k = Some p →
     pred_name p = k ∧ pred_language p = this
     ∧ Forall (λ s, sort_language s = this) (pred_sort p))
  ∧ (∀ k f, _functions L !! k = Some f →
       func_name f = k ∧ func_language f = this
       ∧ Forall (λ s, sort_language s = this) (func_sort f))
  ∧ (∀ k c, _constants L !! k = Some c →
       const_symbol c = k ∧ sort_language (const_sort c) = this
       ∧ sort_builtin (const_sort c) = false).
Proof.
  intros HL. destruct (reachable_registry _ _ _ _ HL) as [_ HY].
  rewrite <- (reachable_self _ _ _ _ HL). exact HY.
Qed.

(** X6 at a language with a predicate over two builtin sorts. *)
Lemma symbols_witness :
  let L := after (CallPredicate "heavy" [ObjStr "Integer"; ObjStr "Real"])
             (language 0 "L") in
  reachable 0 "L" L
  ∧ _predicates L !! "heavy"
    = Some (mkPredicate "heavy" 0 [integer_sort 0; real_sort 0])
  ∧ ∀ k p, _predicates L !! k = Some p →
      pred_name p = k ∧ pred_language p = 0
      ∧ Forall (λ s, sort_language s = 0) (pred_sort p).
Proof.
  intros L.
  assert (reachable 0 "L" L) as HL.
  { apply reachable_call; [apply reachable_init | exact I]. }
  split_and!; [exact HL | vm_compute; reflexivity |].
  exact (proj1 (symbols_refer_to_sorts_of_the_language 0 "L" L HL)).
Defined.

(** ** Registering and looking up symbols *)

Lemma resolved_Forall2 args types L :
  resolved L args = Ok types
  ↔ Forall2 (λ a s, fst (_retrieve_object a L) = Ok s) args types.
Proof.
  revert types. induction args as [|a args IH]; intros types.
  - split.
    + intros [= <-]. constructor.
    + by intros ->%Forall2_nil_inv_l.
  - rewrite resolved_cons. split.
    + destruct (fst (_retrieve_object a L)) as [s|e] eqn:Hs; [|done].
      destruct (resolved L args) as [ss|e]; [|done].
      intros [= <-]. constructor; [done|]. by apply IH.
    + intros (s & ss & Hs & Hss & ->)%Forall2_cons_inv_l.
      rewrite Hs. apply IH in Hss. by rewrite Hss.
Qed.

(** The first argument that does not resolve decides the error. *)
Lemma resolved_raises pre a post e L :
  Forall (λ x, ∃ s, fst (_retrieve_object x L) = Ok s) pre →
  fst (_retrieve_object a L) = Raise e →
  resolved L (pre ++ a :: post) = Raise e.
Proof.
  intros Hpre Ha. induction Hpre as [|x pre [s Hx] _ IH]; simpl.
  - by rewrite resolved_cons, Ha.
  - by rewrite resolved_cons, Hx, IH.
Qed.

Lemma get_predicate_result k L :
  get_predicate k L
  = (match _predicates L !! k with
     | Some p => Ok p
     | None => Raise (UndefinedPredicate k)
     end, L).
Proof.
  unfold get_predicate, has_predicate. run.
  destruct (_predicates L !! k) eqn:Hk; simpl; [|done]. by rewrite Hk.
Qed.

Lemma get_function_result k L :
  get_function k L
  = (match _functions L !! k with
     | Some f => Ok f
     | None => Raise (UndefinedFunction k)
     end, L).
Proof.
  unfold get_function, has_function. run.
  destruct (_functions L !! k) eqn:Hk; simpl; [|done]. by rewrite Hk.
Qed.

Lemma get_constant_result k L :
  get_constant k L
  = (match _constants L !! k with
     | Some c => Ok c
     | None => Raise (UndefinedConstant k)
     end, L).
Proof.
  unfold get_constant, has_constant. run.
  destruct (_constants L !! k) eqn:Hk; simpl; [|done]. by rewrite Hk.
Qed.

Lemma get_sort_result k L :
  get_sort k L
  = (match _sorts L !! k with
     | Some s => Ok s
     | None => Raise (UndefinedSort k)
     end, L).
Proof.
  unfold get_sort, has_sort. run.
  destruct (_sorts L !! k) eqn:Hk; simpl; [|done]. by rewrite Hk.
Qed.

(** X9: a call of [predicate] that returns was made on a free name; the
    predicate returned carries the name, the language and the arguments
    resolved in their order; it is stored under the name and nothing else
    changes; afterwards [has_predicate] answers [True], [get_predicate]
    returns it, every other name is looked up as before, and registering
    the name again raises [DuplicatePredicateDefinition] carrying it,
    whatever the arguments. *)
Theorem predicate_round_trip (L : FirstOrderLanguage) (n : string)
    (args : list PyObj) (p : Predicate) :
  fst (predicate n args L) = Ok p →
  let L' := snd (predicate n args L) in
  has_predicate n L = (Ok false, L)
  ∧ pred_name p = n ∧ pred_language p = self L
  ∧ Forall2 (λ a s, fst (_retrieve_object a L) = Ok s) args (pred_sort p)
  ∧ L' = with_predicates <[ n := p ]> L
  ∧ has_predicate n L' = (Ok true, L')
  ∧ get_predicate n L' = (Ok p, L')
  ∧ (∀ k, k ≠ n → fst (get_predicate k L') = fst (get_predicate k L))
  ∧ (∀ args', predicate n args' L'
              = (Raise (DuplicatePredicateDefinition n p), L')).
Proof.
  rewrite predicate_effect.
  destruct (_predicates L !! n) as [q|] eqn:Hn; [done|].
  destruct (resolved L args) as [types|e] eqn:Hr; [|done].
  simpl. intros [= <-]. split_and!; try done.
  - unfold has_predicate. run. by rewrite Hn.
  - by apply resolved_Forall2.
  - unfold has_predicate. run. by rewrite lookup_insert_eq.
  - rewrite get_predicate_result. simpl. by rewrite lookup_insert_eq.
  - intros k Hk. rewrite !get_predicate_result. simpl.
    by rewrite lookup_insert_ne.
  - intros args'. rewrite predicate_effect. simpl.
    by rewrite lookup_insert_eq.
Qed.

(** X9 at a new language: a predicate over [Integer], given by name, and
    [Real], given as an object. *)
Lemma predicate_round_trip_witness :
  let L := language 0 "L" in
  let p := mkPredicate "heavy" 0 [integer_sort 0; real_sort 0] in
  let r := predicate "heavy" [ObjStr "Integer"; ObjSort (real_sort 0)] L in
  fst r = Ok p
  ∧ get_predicate "heavy" (snd r) = (Ok p, snd r)
  ∧ predicate "heavy" [] (snd r)
    = (Raise (DuplicatePredicateDefinition "heavy" p), snd r).
Proof.
  intros L p r.
  assert (fst r = Ok p) as Hr by (vm_compute; reflexivity).
  destruct (predicate_round_trip L "heavy" _ p Hr)
    as (_ & _ & _ & _ & _ & _ & Hget & _ & Hdup).
  split_and!; [exact Hr | exact Hget | exact (Hdup [])].
Defined.

(** X10: the same for [function], [has_function] and [get_function]. *)
Theorem function_round_trip (L : FirstOrderLanguage) (n : string)
    (args : list PyObj) (f : Function) :
  fst (function n args L) = Ok f →
  let L' := snd (function n args L) in
  has_function n L = (Ok false, L)
  ∧ func_name f = n ∧ func_language f = self L
  ∧ Forall2 (λ a s, fst (_retrieve_object a L) = Ok s) args (func_sort f)
  ∧ L' = with_functions <[ n := f ]> L
  ∧ has_function n L' = (Ok true, L')
  ∧ get_function n L' = (Ok f, L')
  ∧ (∀ k, k ≠ n → fst (get_function k L') = fst (get_function k L))
  ∧ (∀ args', function n args' L'
              = (Raise (DuplicateFunctionDefinition n f), L')).
Proof.
  rewrite function_effect.
  destruct (_functions L !! n) as [q|] eqn:Hn; [done|].
  destruct (resolved L args) as [types|e] eqn:Hr; [|done].
  simpl. intros [= <-]. split_and!; try done.
  - unfold has_function. run. by rewrite Hn.
  - by apply resolved_Forall2.
  - unfold has_function. run. by rewrite lookup_insert_eq.
  - rewrite get_function_result. simpl. by rewrite lookup_insert_eq.
  - intros k Hk. rewrite !get_function_result. simpl.
    by rewrite lookup_insert_ne.
  - intros args'. rewrite function_effect. simpl.
    by rewrite lookup_insert_eq.
Qed.

(** X10 at a new language; a name that was not registered raises
    [UndefinedFunction]. *)
Lemma function_round_trip_witness :
  let L := language 0 "L" in
  let f := mkFunction "weight" 0 [object_sort 0; natural_sort 0] in
  let r := function "weight" [ObjStr "object"; ObjStr "Natural"] L in
  fst r = Ok f
  ∧ get_function "weight" (snd r) = (Ok f, snd r)
  ∧ fst (get_function "height" (snd r)) = Raise (UndefinedFunction "height").
Proof.
  intros L f r.
  assert (fst r = Ok f) as Hr by (vm_compute; reflexivity).
  destruct (function_round_trip L "weight" _ f Hr)
    as (_ & _ & _ & _ & _ & _ & Hget & Hother & _).
  split_and!; [exact Hr | exact Hget |].
  rewrite Hother by done. vm_compute. reflexivity.
Defined.

(** X11: how [predicate] and [function] fail.  On a name that is taken
    they raise the duplicate error carrying the symbol held, before any
    argument is looked at.  On a free name, the first argument that does
    not resolve decides: [LanguageError] for an object that is neither a
    name nor a sort, [LanguageMismatch] for a sort of another language,
    [UndefinedElement] for a name the language does not hold.  In each
    case the language is left as it was. *)
Theorem failed_symbol_registrations (L : FirstOrderLanguage) (n : string)
    (args : list PyObj) :
  (∀ p, _predicates L !! n = Some p →
     predicate n args L = (Raise (DuplicatePredicateDefinition n p), L))
  ∧ (∀ f, _functions L !! n = Some f →
       function n args L = (Raise (DuplicateFunctionDefinition n f), L))
  ∧ (∀ pre a post e,
       args = pre ++ a :: post →
       Forall (λ x, ∃ s, fst (_retrieve_object x L) = Ok s) pre →
       fst (_retrieve_object a L) = Raise e →
       (_predicates L !! n = None → predicate n args L = (Raise e, L))
       ∧ (_functions L !! n = None → function n args L = (Raise e, L))
       ∧ (a = ObjOther ∧ e = LanguageError
          ∨ (∃ s, a = ObjSort s ∧ sort_language s ≠ self L
                  ∧ e = LanguageMismatch s (sort_language s) (self L))
          ∨ (∃ k, a = ObjStr k ∧ _sorts L !! k = None
                  ∧ e = UndefinedElement k))).
Proof.
  split_and!.
  - intros p Hn. by rewrite predicate_effect, Hn.
  - intros f Hn. by rewrite function_effect, Hn.
  - intros pre a post e -> Hpre Ha.
    pose proof (resolved_raises pre a post e L Hpre Ha) as Hr.
    split_and!.
    + intros Hn. by rewrite predicate_effect, Hn, Hr.
    + intros Hn. by rewrite function_effect, Hn, Hr.
    + revert Ha. unfold _retrieve_object. run.
      destruct a as [k|s|]; simpl.
      * destruct (_sorts L !! k) eqn:Hk; simpl; [done|].
        intros [= <-]. right. right. by exists k.
      * case_bool_decide; simpl; [done|].
        intros [= <-]. right. left. by exists s.
      * intros [= <-]. by left.
Qed.

(** ** Constants *)

(** X12: a call of [constant] that returns gives the literal paired with
    the sort resolved.  For a builtin sort the cast accepted the literal
    and the language is unchanged.  For any other sort the symbol was
    free; the constant is stored under it and nothing else changes;
    afterwards [get_constant] returns it, every other symbol is looked up
    as before, and creating the symbol again on a sort that is not builtin
    raises [DuplicateConstantDefinition] carrying it. *)
Theorem constant_round_trip (L : FirstOrderLanguage) (n : PyVal)
    (ref : PyObj) (c : Constant) :
  fst (constant n ref L) = Ok c →
  let L' := snd (constant n ref L) in
  fst (_retrieve_object ref L) = Ok (const_sort c)
  ∧ const_symbol c = n
  ∧ (sort_builtin (const_sort c) = true →
       L' = L ∧ is_Some (cast (const_sort c) n))
  ∧ (sort_builtin (const_sort c) = false →
       has_constant n L = (Ok false, L)
       ∧ L' = with_constants <[ n := c ]> L
       ∧ get_constant n L' = (Ok c, L')
       ∧ (∀ k, k ≠ n → fst (get_constant k L') = fst (get_constant k L))
       ∧ (∀ ref' s',
            fst (_retrieve_object ref' L') = Ok s' →
            sort_builtin s' = false →
            constant n ref' L'
            = (Raise (DuplicateConstantDefinition n c), L'))).
Proof.
  rewrite constant_effect.
  destruct (fst (_retrieve_object ref L)) as [s|e] eqn:Hs; [|done].
  destruct (sort_builtin s) eqn:Hb.
  - destruct (cast s n) as [y|] eqn:Hc; [|done]. simpl. intros [= <-]. simpl.
    split_and!; [done..| |by rewrite Hb]. intros _. rewrite Hc. eauto.
  - destruct (_constants L !! n) as [x|] eqn:Hn; [done|].
    simpl. intros [= <-]. simpl.
    split_and!; [done..|by rewrite Hb|]. intros _. split_and!.
    + unfold has_constant. run. by rewrite Hn.
    + done.
    + rewrite get_constant_result. simpl. by rewrite lookup_insert_eq.
    + intros k Hk. rewrite !get_constant_result. simpl.
      by rewrite lookup_insert_ne.
    + intros ref' s' Hs' Hb'. rewrite constant_effect, Hs', Hb'. simpl.
      by rewrite lookup_insert_eq.
Qed.

(** X12 at a language with the sort [item]: a constant of that sort. *)
Lemma constant_round_trip_witness :
  let L := after (CallSort "item" None) (language 0 "L") in
  let c := mkConstant (PyStr "a") (mkSort "item" 0 false None) in
  let r := constant (PyStr "a") (ObjStr "item") L in
  fst r = Ok c
  ∧ get_constant (PyStr "a") (snd r) = (Ok c, snd r)
  ∧ fst (get_constant (PyStr "b") (snd r))
    = Raise (UndefinedConstant (PyStr "b")).
Proof.
  intros L c r.
  assert (fst r = Ok c) as Hr by (vm_compute; reflexivity).
  destruct (constant_round_trip L _ _ c Hr) as (_ & _ & _ & Hstored).
  destruct (Hstored eq_refl) as (_ & _ & Hget & Hother & _).
  split_and!; [exact Hr | exact Hget |].
  rewrite Hother by done. vm_compute. reflexivity.
Defined.

Lemma cast_integer this z :
  cast (integer_sort this) (PyInt z)
  = if bool_decide (- (2 ^ 31 - 1) ≤ z ≤ 2 ^ 31 - 1)%Z
    then Some (NInt z) else None.
Proof.
  unfold cast. simpl.
  destruct (Z.leb_spec (- (2 ^ 31 - 1)) z), (Z.leb_spec z (2 ^ 31 - 1));
    simpl; case_bool_decide; try done; lia.
Qed.

Lemma cast_natural this z :
  cast (natural_sort this) (PyInt z)
  = if bool_decide (0 ≤ z ≤ 2 ^ 32 - 1)%Z then Some (NInt z) else None.
Proof.
  unfold cast. simpl.
  destruct (Z.leb_spec 0 z), (Z.leb_spec z (2 ^ 32 - 1));
    simpl; case_bool_decide; try done; lia.
Qed.

(** X13: with the cast contract of the specification over the bounds
    [fol.py] gives the intervals, [constant] on [Integer] accepts an
    integer literal exactly when it is between [-(2^31 - 1)] and
    [2^31 - 1], and on [Natural] exactly when it is between [0] and
    [2^32 - 1]; otherwise it raises [SemanticError].  The language is
    unchanged in both cases. *)
Theorem integer_literals_are_bounded (this : lang_id) (nm : string)
    (L : FirstOrderLanguage) (z : Z) (ref : PyObj) :
  reachable this nm L →
  (names (integer_sort this) ref →
     constant (PyInt z) ref L
     = (if bool_decide (- (2 ^ 31 - 1) ≤ z ≤ 2 ^ 31 - 1)%Z
        then Ok (mkConstant (PyInt z) (integer_sort this))
        else Raise SemanticError, L))
  ∧ (names (natural_sort this) ref →
       constant (PyInt z) ref L
       = (if bool_decide (0 ≤ z ≤ 2 ^ 32 - 1)%Z
          then Ok (mkConstant (PyInt z) (natural_sort this))
          else Raise SemanticError, L)).
Proof.
  intros HL. split; intros Href.
  - rewrite (constant_builtin _ ref (integer_sort this)); [|  |done].
    + rewrite cast_integer. by case_bool_decide.
    + eapply retrieve_builtin; [done| |done]. apply list_elem_of_here.
  - rewrite (constant_builtin _ ref (natural_sort this)); [|  |done].
    + rewrite cast_natural. by case_bool_decide.
    + eapply retrieve_builtin; [done| |done].
      apply list_elem_of_further, list_elem_of_here.
Qed.

(** X13 at a new language: [3000000000] is a constant of [Natural] but
    not of [Integer], of which [Natural] is a subtype. *)
Lemma integer_literals_witness :
  let L := language 0 "L" in
  reachable 0 "L" L
  ∧ constant (PyInt 3000000000) (ObjStr "Natural") L
    = (Ok (mkConstant (PyInt 3000000000) (natural_sort 0)), L)
  ∧ constant (PyInt 3000000000) (ObjStr "Integer") L
    = (Raise SemanticError, L).
Proof.
  intros L. pose proof (reachable_init (λ _ _, True) 0 "L") as HL.
  destruct (integer_literals_are_bounded 0 "L" L 3000000000
              (ObjStr "Natural") HL) as [_ Hnat].
  destruct (integer_literals_are_bounded 0 "L" L 3000000000
              (ObjStr "Integer") HL) as [Hint _].
  split_and!; [exact HL | |].
  - rewrite Hnat by (by right). by rewrite bool_decide_true by lia.
  - rewrite Hint by (by right). by rewrite bool_decide_false by lia.
Defined.

(** ** Registering sorts *)

Lemma for_each_set_parent_result (s : Sort) (xs : list Sort) L :
  fst (for_each (set_parent s) xs L)
  = if forallb (λ p, bool_decide (sort_language p = self L)) xs
    then Ok tt else Raise LanguageError.
Proof.
  revert L. induction xs as [|p xs IH]; intros L; simpl; [done|].
  rewrite run_bind. case_bool_decide as Hown; simpl.
  - rewrite set_parent_own by done. by rewrite IH.
  - by rewrite set_parent_foreign.
Qed.

Lemma for_each_set_parent_edges (s : Sort) (xs : list Sort) L p :
  fst (for_each (set_parent s) xs L) = Ok tt →
  p ∈ xs →
  edge (_sort_hierarchy (snd (for_each (set_parent s) xs L)))
       (sort_name s) (sort_name p).
Proof.
  revert L. induction xs as [|q xs IH]; intros L Hok Hp.
  { by apply elem_of_nil in Hp. }
  simpl in *. rewrite run_bind in *.
  destruct (decide (sort_language q = self L)) as [Hown|Hforeign].
  - rewrite set_parent_own in * by done.
    apply elem_of_cons in Hp as [->|Hp]; [|by apply IH].
    apply (ext_hierarchy _ _
             (preserves_for_each extends (set_parent s) xs
                (extends_set_parent s) (linked s q L))).
    unfold edge. simpl. set_solver.
  - by rewrite set_parent_foreign in Hok.
Qed.

Lemma forallb_parents_of o supers (f : Sort → bool) :
  f o = true →
  forallb f (parents_of o supers) = forallb f (default [] supers).
Proof.
  intros Ho. unfold parents_of. destruct (negb _); [|done].
  rewrite forallb_app. simpl. rewrite Ho. by rewrite !andb_true_r.
Qed.

(** X7: what [sort] returns or raises, and the hierarchy it leaves, in a
    state reached without a [set_parent] of the client, when every parent
    given is a sort the language holds or a sort of another language:
    [DuplicateSortDefinition] with the sort held when the name is taken;
    otherwise the new sort when every parent given belongs to this
    language, and [LanguageError] when one does not.  The hierarchy is
    acyclic before the call and after it. *)
Theorem sort_result (this : lang_id) (nm : string) (L : FirstOrderLanguage)
    (n : string) (supers : option (list Sort)) :
  reachable_by registers_only this nm L →
  registers_only L (CallSort n supers) →
  fst (sort n supers L)
  = match _sorts L !! n with
    | Some s => Raise (DuplicateSortDefinition n s)
    | None =>
        if forallb (λ p, bool_decide (sort_language p = this))
                   (default [] supers)
        then Ok (mkSort n this false None)
        else Raise LanguageError
    end
  ∧ acyclic (_sort_hierarchy L)
  ∧ acyclic (_sort_hierarchy (snd (sort n supers L))).
Proof.
  intros HL Hsupers. destruct (reachable_sorts _ _ _ _ HL) as (Ho & _).
  pose proof (reachable_self _ _ _ _ HL) as Hself.
  split_and!.
  - destruct (_sorts L !! n) as [s|] eqn:Hn.
    { by rewrite (sort_duplicate n supers s). }
    rewrite (sort_fresh n supers L _ Hn Ho). cbv zeta.
    pose proof (for_each_set_parent_result (mkSort n (self L) false None)
                  (parents_of (object_sort this) supers)
                  (with_sorts <[ n := mkSort n (self L) false None ]> L))
      as Hr.
    rewrite forallb_parents_of in Hr by (by apply bool_decide_eq_true).
    simpl in Hr. rewrite Hself in *.
    destruct (for_each _ _ _) as [[[]|e] L']; simpl in *;
      destruct (forallb _ _); congruence.
  - by apply (reachable_graph this nm).
  - apply (reachable_graph this nm (after (CallSort n supers) L)).
    by apply reachable_call.
Qed.

(** X7 at a new language: a registration that returns, one with a parent
    of the language with identity 1, and one under a name that is
    taken. *)
Lemma sort_result_witness :
  let L := language 0 "L" in
  reachable_by registers_only 0 "L" L
  ∧ fst (sort "item" (Some [real_sort 0]) L)
    = Ok (mkSort "item" 0 false None)
  ∧ fst (sort "item" (Some [real_sort 0; object_sort 1]) L)
    = Raise LanguageError
  ∧ fst (sort "Real" None L)
    = Raise (DuplicateSortDefinition "Real" (real_sort 0))
  ∧ acyclic (_sort_hierarchy (snd (sort "item" (Some [real_sort 0]) L))).
Proof.
  intros L.
  assert (reachable_by registers_only 0 "L" L) as HL by apply reachable_init.
  assert (is_Some (_sorts L !! "Real")) as Hreal.
  { destruct (reachable_sorts _ _ _ _ HL) as (_ & -> & _). eauto. }
  assert (registers_only L (CallSort "item" (Some [real_sort 0]))) as H1.
  { apply Forall_cons. split; [intros _; exact Hreal | apply Forall_nil_2]. }
  assert (registers_only L
            (CallSort "item" (Some [real_sort 0; object_sort 1]))) as H2.
  { apply Forall_cons. split; [intros _; exact Hreal|].
    apply Forall_cons. split; [|apply Forall_nil_2].
    intros Hown. exfalso. rewrite (reachable_self _ _ _ _ HL) in Hown.
    discriminate Hown. }
  assert (registers_only L (CallSort "Real" None)) as H3
    by apply Forall_nil_2.
  split_and!; [exact HL | | | |].
  - rewrite (proj1 (sort_result 0 "L" L _ _ HL H1)). vm_compute. reflexivity.
  - rewrite (proj1 (sort_result 0 "L" L _ _ HL H2)). vm_compute. reflexivity.
  - rewrite (proj1 (sort_result 0 "L" L _ _ HL H3)). vm_compute. reflexivity.
  - exact (proj2 (proj2 (sort_result 0 "L" L _ _ HL H1))).
Defined.

(** X8: after [sort] was called on a free name, [has_sort] answers [True]
    for it and [get_sort] returns the new sort, every other name is looked
    up as before, and a second registration raises
    [DuplicateSortDefinition] carrying the new sort and changes nothing;
    this holds also when the call raised [LanguageError].  When it
    returned, every parent given has an edge from the new sort and is a
    strict supertype of it. *)
Theorem sort_round_trip (this : lang_id) (nm : string)
    (L : FirstOrderLanguage) (n : string) (supers : option (list Sort)) :
  reachable this nm L →
  _sorts L !! n = None →
  let new := mkSort n this false None in
  let L' := snd (sort n supers L) in
  _sorts L' = <[ n := new ]> (_sorts L)
  ∧ has_sort n L' = (Ok true, L')
  ∧ get_sort n L' = (Ok new, L')
  ∧ (∀ k, k ≠ n → fst (get_sort k L') = fst (get_sort k L))
  ∧ (∀ supers',
       sort n supers' L' = (Raise (DuplicateSortDefinition n new), L'))
  ∧ (fst (sort n supers L) = Ok new →
     ∀ p, p ∈ default [] supers →
       edge (_sort_hierarchy L') n (sort_name p)
       ∧ fst (is_strict_subtype new p L') = Ok true).
Proof.
  intros HL Hn new L'.
  pose proof (reachable_self _ _ _ _ HL) as Hself.
  destruct (reachable_sorts _ _ _ _ HL) as (Ho & _).
  assert (_sorts L' = <[ n := new ]> (_sorts L)) as Hsorts.
  { pose proof (sort_effect n supers L Hn) as H. fold L' in H.
    rewrite H. simpl. unfold new_sort. by rewrite Hself. }
  assert (_sorts L' !! n = Some new) as Hnew.
  { rewrite Hsorts. apply lookup_insert_eq. }
  split_and!.
  - done.
  - unfold has_sort. run. by rewrite Hnew.
  - by apply get_sort_registered.
  - intros k Hk. rewrite !get_sort_result. simpl.
    by rewrite Hsorts, lookup_insert_ne.
  - intros supers'. by apply sort_duplicate.
  - intros Hok p Hp. subst L'.
    rewrite (sort_fresh n supers L _ Hn Ho) in *. cbv zeta in *.
    rewrite Hself in *. fold new in Hok |- *.
    assert (p ∈ parents_of (object_sort this) supers) as Hin.
    { unfold parents_of. destruct (negb _); [|done].
      apply elem_of_app. by left. }
    pose proof (for_each_set_parent_promotes new
                  (parents_of (object_sort this) supers)
                  (with_sorts <[ n := new ]> L) p) as Hpromotes.
    pose proof (for_each_set_parent_edges new
                  (parents_of (object_sort this) supers)
                  (with_sorts <[ n := new ]> L) p) as Hedges.
    destruct (for_each (set_parent new) _ _) as [[[]|e] L']; simpl in *;
      [|done].
    split; [by apply Hedges|].
    rewrite is_strict_subtype_result. simpl.
    by rewrite bool_decide_true by (by apply Hpromotes).
Qed.

(** X8 at a new language, for a sort registered below [Integer]. *)
Lemma sort_round_trip_witness :
  let L := language 0 "L" in
  let item := mkSort "item" 0 false None in
  let r := sort "item" (Some [integer_sort 0]) L in
  reachable 0 "L" L
  ∧ fst r = Ok item
  ∧ get_sort "item" (snd r) = (Ok item, snd r)
  ∧ fst (is_strict_subtype item (integer_sort 0) (snd r)) = Ok true.
Proof.
  intros L item r. pose proof (reachable_init (λ _ _, True) 0 "L") as HL.
  assert (_sorts L !! "item" = None) as Hn by (vm_compute; reflexivity).
  assert (fst r = Ok item) as Hr by (vm_compute; reflexivity).
  destruct (sort_round_trip 0 "L" L "item" (Some [integer_sort 0]) HL Hn)
    as (_ & _ & Hget & _ & _ & Hparents).
  split_and!; [exact HL | exact Hr | exact Hget |].
  apply (Hparents Hr). apply list_elem_of_here.
Defined.



(** ** Linking twice *)

Lemma linked_linked lhs rhs L :
  linked lhs rhs (linked lhs rhs L) = linked lhs rhs L.
Proof.
  unfold linked at 1. rewrite promotion_set_linked, decide_True by done.
  assert (_sort_hierarchy (linked lhs rhs L)
          = _sort_hierarchy L ∪ {[ (sort_name lhs, sort_name rhs) ]}) as HE
    by done.
  rewrite HE.
  replace (_sort_hierarchy L ∪ {[ (sort_name lhs, sort_name rhs) ]}
           ∪ {[ (sort_name lhs, sort_name rhs) ]})
    with (_sort_hierarchy L ∪ {[ (sort_name lhs, sort_name rhs) ]})
    by (by rewrite <- (assoc_L (∪)), (idemp_L (∪))).
  set (E := _sort_hierarchy L ∪ {[ (sort_name lhs, sort_name rhs) ]}).
  set (C := inclusion_closure E rhs).
  replace (promotion_set L (sort_name lhs) ∪ C ∪ C)
    with (promotion_set L (sort_name lhs) ∪ C)
    by (by rewrite <- (assoc_L (∪)), (idemp_L (∪))).
  unfold linked. fold E. fold C.
  unfold with_possible_promotions, with_sort_hierarchy. simpl.
  by rewrite insert_insert_eq.
Qed.

(** X15: a second call of [set_parent] with the same arguments returns or
    raises as the first did and leaves the language as the first left
    it. *)
Theorem set_parent_is_idempotent (lhs rhs : Sort) (L : FirstOrderLanguage) :
  let r := set_parent lhs rhs L in
  set_parent lhs rhs (snd r) = r.
Proof.
  intros r. subst r.
  destruct (decide (sort_language rhs = self L)) as [Hown|Hforeign].
  - rewrite (set_parent_own lhs rhs L Hown). simpl.
    rewrite set_parent_own by done. by rewrite linked_linked.
  - rewrite (set_parent_foreign lhs rhs L Hforeign). simpl.
    by apply set_parent_foreign.
Qed.

(** ** Promotion sets and the edges *)

Lemma tc_subrel {A : Type} (R R' : relation A) :
  (∀ x y, R x y → R' x y) → ∀ x y, tc R x y → tc R' x y.
Proof.
  intros Hsub x y. induction 1 as [x y Hxy|x y z Hxy _ IH].
  - apply tc_once. by apply Hsub.
  - eapply tc_l; [by apply Hsub | done].
Qed.

Lemma edge_linked lhs rhs L x y :
  edge (_sort_hierarchy (linked lhs rhs L)) x y
  ↔ edge (_sort_hierarchy L) x y ∨ (x, y) = (sort_name lhs, sort_name rhs).
Proof.
  unfold edge. simpl. by rewrite elem_of_union, elem_of_singleton.
Qed.

Lemma sound_linked lhs rhs L :
  sort_language rhs = self L →
  promotions_sound L → promotions_sound (linked lhs rhs L).
Proof.
  intros Hown HL k i. rewrite promotion_set_linked.
  assert (∀ x y, tc (edge (_sort_hierarchy L)) x y
                 → tc (edge (_sort_hierarchy (linked lhs rhs L))) x y)
    as Hmono.
  { apply tc_subrel. intros x y Hxy. apply edge_linked. by left. }
  assert (i ∈ promotion_set L k
          → i.1 = self L
            ∧ tc (edge (_sort_hierarchy (linked lhs rhs L))) k i.2) as Hold.
  { intros [Hi Htc]%HL. split; [done|]. by apply Hmono. }
  case_decide as Hk; [|exact Hold].
  intros [Hi|Hi]%elem_of_union; [by apply Hold|].
  apply elem_of_inclusion_closure in Hi as [Hlang Hrtc]. subst k.
  split; [by rewrite Hlang|].
  eapply tc_rtc_r; [|exact Hrtc].
  apply tc_once, edge_linked. by right.
Qed.

Lemma sound_set_parent lhs rhs L :
  promotions_sound L → promotions_sound (snd (set_parent lhs rhs L)).
Proof.
  intros HL. destruct (decide (sort_language rhs = self L)).
  - rewrite set_parent_own by done. by apply sound_linked.
  - by rewrite set_parent_foreign.
Qed.

Lemma sound_for_each_set_parent (s : Sort) (xs : list Sort) L :
  promotions_sound L →
  promotions_sound (snd (for_each (set_parent s) xs L)).
Proof.
  revert L. induction xs as [|p xs IH]; intros L HL; simpl; [done|].
  rewrite run_bind. pose proof (sound_set_parent s p L HL) as Hp.
  destruct (set_parent s p L) as [[[]|e] L1]; simpl in *; [|done].
  by apply IH.
Qed.

Lemma sound_sort n supers L :
  promotions_sound L → promotions_sound (snd (sort n supers L)).
Proof.
  intros HL. unfold sort, has_sort. run.
  destruct (_sorts L !! n) as [s|] eqn:Hn; simpl; [done|].
  set (new := mkSort n (self L) false None).
  set (L1 := with_sorts <[ n := new ]> L).
  pose proof (read_only_get_sort "object" L1) as Hro.
  destruct (get_sort "object" L1) as [[o|e] L2]; simpl in *; subst L2;
    [|done].
  match goal with
  | |- context [for_each ?f ?xs L1] =>
      pose proof (sound_for_each_set_parent new xs L1 HL) as Hfe;
      destruct (for_each f xs L1) as [[[]|e] L3]
  end; simpl in *; exact Hfe.
Qed.

Lemma sound_reads_as L L' :
  reads_as L L' → promotions_sound L → promotions_sound L'.
Proof.
  intros (E & _ & HP) HL k i. rewrite HP, E. simpl. apply HL.
Qed.

Lemma sound_after c L :
  promotions_sound L → promotions_sound (after c L).
Proof.
  intros HL.
  destruct c as [n supers|lhs rhs| |n ref|n args|n args|op t1 t2 h
                | | | | | | | | | | | | ];
    try (eapply sound_reads_as; [apply query_effect; exact I | done]);
    simpl.
  - by apply sound_sort.
  - by apply sound_set_parent.
  - rewrite constant_effect.
    destruct (fst (_retrieve_object ref L)) as [s|e]; [|done].
    destruct (sort_builtin s); [done|]. by destruct (_constants L !! n).
  - rewrite predicate_effect. destruct (_predicates L !! n); [done|].
    by destruct (resolved L args).
  - rewrite function_effect. destruct (_functions L !! n); [done|].
    by destruct (resolved L args).
  - done.
Qed.

Lemma sound_blank this nm : promotions_sound (blank this nm).
Proof. intros k i. unfold promotion_set. simpl. set_solver. Qed.

Lemma sound_built this nm : promotions_sound (built this nm).
Proof.
  assert (∀ f L, promotions_sound L → promotions_sound (with_sorts f L))
    as Hstore by done.
  unfold built. cbv zeta.
  do 3 (apply sound_linked; [done|]; apply Hstore).
  apply Hstore, sound_blank.
Qed.

Lemma reachable_sound allowed this nm L :
  reachable_by allowed this nm L → promotions_sound L.
Proof.
  induction 1 as [|c L HL IH Hc].
  - rewrite language_built. apply sound_built.
  - by apply sound_after.
Qed.

(** X16: promotion sets are sound in every state a language can be in.
    When [is_strict_subtype(t, st)] answers [True], [st] belongs to this
    language and its name is reached from the name of [t] along at least
    one edge; when [is_subtype(t, st)] answers [True], the two are the
    same sort or that holds. *)
Theorem strict_subtypes_follow_edges (this : lang_id) (nm : string)
    (L : FirstOrderLanguage) (t st : Sort) :
  reachable this nm L →
  (fst (is_strict_subtype t st L) = Ok true →
     sort_language st = this
     ∧ tc (edge (_sort_hierarchy L)) (sort_name t) (sort_name st))
  ∧ (fst (is_subtype t st L) = Ok true →
       id_of t = id_of st
       ∨ sort_language st = this
         ∧ tc (edge (_sort_hierarchy L)) (sort_name t) (sort_name st)).
Proof.
  intros HL. pose proof (reachable_sound _ _ _ _ HL) as Hsound.
  pose proof (reachable_self _ _ _ _ HL) as Hself.
  assert (id_of st ∈ promotion_set L (sort_name t)
          → sort_language st = this
            ∧ tc (edge (_sort_hierarchy L)) (sort_name t) (sort_name st))
    as Hmember.
  { intros [Hlang Htc]%Hsound. split; [|done]. simpl in Hlang. congruence. }
  split.
  - rewrite is_strict_subtype_result. intros [= H%bool_decide_eq_true].
    by apply Hmember.
  - rewrite is_subtype_result.
    intros [= [H%bool_decide_eq_true|H%bool_decide_eq_true]%orb_true_iff].
    + by left.
    + right. by apply Hmember.
Qed.

(** X16 at a language with one more sort, for that sort and the root. *)
Lemma strict_subtypes_witness :
  let L := after (CallSort "item" None) (language 0 "L") in
  let item := mkSort "item" 0 false None in
  reachable 0 "L" L
  ∧ fst (is_strict_subtype item (object_sort 0) L) = Ok true
  ∧ tc (edge (_sort_hierarchy L)) "item" "object".
Proof.
  intros L item.
  assert (reachable 0 "L" L) as HL.
  { apply reachable_call; [apply reachable_init | exact I]. }
  assert (fst (is_strict_subtype item (object_sort 0) L) = Ok true) as Ht
    by (vm_compute; reflexivity).
  split_and!; [exact HL | exact Ht |].
  exact (proj2 (proj1 (strict_subtypes_follow_edges 0 "L" L item
                         (object_sort 0) HL) Ht)).
Defined.

(** *** When only [sort] adds edges *)

Lemma rtc_subrel {A : Type} (R R' : relation A) :
  (∀ x y, R x y → R' x y) → ∀ x y, rtc R x y → rtc R' x y.
Proof.
  intros Hsub x y. induction 1 as [|x y z Hxy _ IH]; [done|].
  eapply rtc_l; [by apply Hsub | done].
Qed.

(** A path that does not start at [lhs] does not use an edge added at
    [lhs], when no edge leads there. *)
Lemma rtc_avoids lhs rhs L x y :
  no_edge_into (sort_name lhs) L →
  sort_name rhs ≠ sort_name lhs →
  x ≠ sort_name lhs →
  rtc (edge (_sort_hierarchy (linked lhs rhs L))) x y →
  rtc (edge (_sort_hierarchy L)) x y.
Proof.
  intros Hinto Hne Hx. induction 1 as [|x y z Hxy _ IH]; [done|].
  apply edge_linked in Hxy as [Hxy|[= -> ->]]; [|done].
  eapply rtc_l; [done|]. apply IH. by eapply Hinto.
Qed.

Lemma tc_first_edge {A : Type} (R : relation A) x z :
  tc R x z → ∃ y, R x y ∧ rtc R y z.
Proof.
  destruct 1 as [a b Hab|a b c Hab Hbc].
  - by exists b.
  - exists b. split; [done|]. by apply tc_rtc.
Qed.

Lemma complete_linked lhs rhs L :
  sort_language rhs = self L →
  no_edge_into (sort_name lhs) L →
  sort_name rhs ≠ sort_name lhs →
  promotions_complete L →
  promotions_complete (linked lhs rhs L)
  ∧ no_edge_into (sort_name lhs) (linked lhs rhs L).
Proof.
  intros Hown Hinto Hne HL. split.
  - intros k y (m & Hkm & Hmy)%tc_first_edge.
    change (self (linked lhs rhs L)) with (self L).
    apply edge_linked in Hkm as [Hkm|[= -> ->]].
    + apply linked_keeps, HL.
      eapply tc_rtc_r; [by apply tc_once|].
      apply (rtc_avoids lhs rhs); [done..| |done]. by eapply Hinto.
    + apply linked_promotes; [done|]. simpl.
      revert Hmy. apply rtc_subrel. by intros x z Hxz.
  - intros x y [Hxy|[= -> ->]]%edge_linked; [by eapply Hinto | done].
Qed.

Lemma complete_for_each_set_parent (s : Sort) (xs : list Sort) L :
  no_edge_into (sort_name s) L →
  Forall (λ p, sort_language p = self L → sort_name p ≠ sort_name s) xs →
  promotions_complete L →
  promotions_complete (snd (for_each (set_parent s) xs L)).
Proof.
  revert L. induction xs as [|p xs IH]; intros L Hinto Hxs HL; simpl;
    [done|].
  apply Forall_cons_1 in Hxs as [Hp Hxs]. rewrite run_bind.
  destruct (decide (sort_language p = self L)) as [Hown|Hforeign].
  - rewrite set_parent_own by done.
    destruct (complete_linked s p L) as [HL1 Hinto1]; auto.
  - by rewrite set_parent_foreign.
Qed.

Lemma complete_sort n supers L o :
  _sorts L !! "object" = Some o →
  sort_name o = "object" →
  Forall (λ p, sort_language p = self L → is_Some (_sorts L !! sort_name p))
         (default [] supers) →
  targets_registered L →
  promotions_complete L →
  promotions_complete (snd (sort n supers L)).
Proof.
  intros Ho Hname Hsupers Htargets HL.
  destruct (_sorts L !! n) as [s|] eqn:Hn.
  { by rewrite (sort_duplicate n supers s). }
  rewrite (sort_fresh n supers L o) by done.
  set (new := mkSort n (self L) false None).
  set (L1 := with_sorts <[ n := new ]> L).
  assert (∀ k, is_Some (_sorts L !! k) → k ≠ n) as Hfresh.
  { intros k Hk ->. rewrite Hn in Hk. by destruct Hk. }
  pose proof (complete_for_each_set_parent new (parents_of o supers) L1)
    as Hfe.
  destruct (for_each (set_parent new) (parents_of o supers) L1)
    as [[[]|e] L2]; simpl in *; apply Hfe; try done.
  all: try (intros x y Hxy; apply Hfresh; by eapply Htargets).
  all: unfold parents_of; destruct (negb _);
    [apply Forall_app; split|];
    try (eapply Forall_impl; [exact Hsupers|]; intros p Hp Hown;
         by apply Hfresh, Hp);
    apply Forall_singleton; intros _; apply Hfresh; rewrite Hname; eauto.
Qed.

Lemma keeps_after key c L :
  match c with CallSort _ _ | CallSetParent _ _ => False | _ => True end →
  keeps key L (after c L).
Proof.
  intros Hc. apply (after_related (keeps key)).
  - apply reads_as_keeps.
  - apply keeps_constant.
  - apply keeps_predicate.
  - apply keeps_function.
  - done.
  - by destruct c.
Qed.

Lemma complete_blank this nm : promotions_complete (blank this nm).
Proof.
  intros k y (m & Hkm & _)%tc_first_edge. unfold edge in Hkm. simpl in Hkm.
  set_solver.
Qed.

Lemma complete_built this nm : promotions_complete (built this nm).
Proof.
  assert (∀ f L, promotions_complete L → promotions_complete (with_sorts f L))
    as Hstore by done.
  unfold built. cbv zeta.
  apply complete_linked; [done| |done|apply Hstore].
  { intros x y. unfold edge. simpl.
    rewrite !elem_of_union, !elem_of_singleton, elem_of_empty.
    by intros [[[]|[= -> ->]]|[= -> ->]]. }
  apply complete_linked; [done| |done|apply Hstore].
  { intros x y. unfold edge. simpl.
    rewrite !elem_of_union, !elem_of_singleton, elem_of_empty.
    by intros [[]|[= -> ->]]. }
  apply complete_linked; [done| |done|apply Hstore].
  { intros x y. unfold edge. simpl. by rewrite elem_of_empty. }
  apply Hstore, complete_blank.
Qed.

Lemma complete_after c L :
  match c with CallSort _ _ | CallSetParent _ _ => False | _ => True end →
  promotions_complete L → promotions_complete (after c L).
Proof.
  intros Hc HL k y. destruct (same_graph_after c L Hc) as [_ HE].
  rewrite HE, (ext_self _ _ (extends_after c L)), (keeps_after k c L Hc).
  apply HL.
Qed.

Lemma reachable_complete this nm L :
  reachable_by registers_only this nm L → promotions_complete L.
Proof.
  induction 1 as [|c L HL IH Hc].
  - rewrite language_built. apply complete_built.
  - destruct (reachable_graph _ _ _ HL) as [Htargets _].
    destruct (reachable_sorts _ _ _ _ HL) as (Ho & _).
    destruct c as [n supers|lhs rhs| | | | | | | | | | | | | | | | | ];
      try (by apply complete_after).
    by apply (complete_sort n supers L (object_sort this)).
Qed.

(** X17: as long as the client does not call [set_parent] itself (the
    parents given to [sort] being sorts of other languages or sorts this
    language holds), [is_strict_subtype(t, st)] answers [True] exactly when
    [st] belongs to this language and its name is reached from the name of
    [t] along at least one edge. *)
Theorem strict_subtypes_are_the_paths (this : lang_id) (nm : string)
    (L : FirstOrderLanguage) (t st : Sort) :
  reachable_by registers_only this nm L →
  fst (is_strict_subtype t st L) = Ok true
  ↔ sort_language st = this
    ∧ tc (edge (_sort_hierarchy L)) (sort_name t) (sort_name st).
Proof.
  intros HL. pose proof (reachable_sound _ _ _ _ HL) as Hsound.
  pose proof (reachable_complete _ _ _ HL) as Hcomplete.
  pose proof (reachable_self _ _ _ _ HL) as Hself.
  rewrite is_strict_subtype_result. split.
  - intros [= [Hlang Htc]%bool_decide_eq_true%Hsound].
    split; [|done]. simpl in Hlang. congruence.
  - intros [Hlang Htc%Hcomplete]. f_equal. apply bool_decide_eq_true.
    unfold id_of. by rewrite Hlang, <- Hself.
Qed.

(** X17 at a language with [item] below [Natural] and [heavy] below
    [item]: [Real] is reached from [heavy] along four edges. *)
Lemma strict_subtypes_are_the_paths_witness :
  let L := after (CallSort "heavy" (Some [mkSort "item" 0 false None]))
             (after (CallSort "item" (Some [natural_sort 0]))
                (language 0 "L")) in
  reachable_by registers_only 0 "L" L
  ∧ tc (edge (_sort_hierarchy L)) "heavy" "Real"
  ∧ fst (is_strict_subtype (mkSort "heavy" 0 false None) (real_sort 0) L)
    = Ok true.
Proof.
  intros L.
  assert (reachable_by registers_only 0 "L" L) as HL.
  { apply reachable_call; [apply reachable_call; [apply reachable_init|]|].
    - apply Forall_singleton. intros _. vm_compute. eauto.
    - apply Forall_singleton. intros _. vm_compute. eauto. }
  assert (tc (edge (_sort_hierarchy L)) "heavy" "Real") as Hpath.
  { apply (tc_l _ _ "item"); [unfold edge; evaluate|].
    apply (tc_l _ _ "Natural"); [unfold edge; evaluate|].
    apply (tc_l _ _ "Integer"); [unfold edge; evaluate|].
    apply tc_once. unfold edge. evaluate. }
  split_and!; [exact HL | exact Hpath |].
  by apply (strict_subtypes_are_the_paths 0 "L" L _ _ HL).
Defined.

(** *** The order of the sorts *)

Lemma is_subtype_true t st L :
  fst (is_subtype t st L) = Ok true
  ↔ id_of t = id_of st ∨ id_of st ∈ promotion_set L (sort_name t).
Proof.
  rewrite is_subtype_result. unfold sort_eqb. split.
  - intros [= [H|H]%orb_true_iff]; apply bool_decide_eq_true in H; auto.
  - intros [H|H]; f_equal; apply orb_true_iff; [left|right];
      by apply bool_decide_eq_true.
Qed.

(** X18: as long as the client does not call [set_parent] itself,
    [is_subtype] is reflexive, transitive and antisymmetric on sorts, and
    [is_strict_subtype] never holds in both directions nor between sorts of
    one name. *)
Theorem subtyping_is_a_partial_order (this : lang_id) (nm : string)
    (L : FirstOrderLanguage) :
  reachable_by registers_only this nm L →
  (∀ a, fst (is_subtype a a L) = Ok true)
  ∧ (∀ a b c,
       fst (is_subtype a b L) = Ok true →
       fst (is_subtype b c L) = Ok true →
       fst (is_subtype a c L) = Ok true)
  ∧ (∀ a b,
       fst (is_subtype a b L) = Ok true →
       fst (is_subtype b a L) = Ok true →
       id_of a = id_of b)
  ∧ (∀ a b,
       fst (is_strict_subtype a b L) = Ok true →
       sort_name a ≠ sort_name b
       ∧ fst (is_strict_subtype b a L) = Ok false).
Proof.
  intros HL. pose proof (reachable_sound _ _ _ _ HL) as Hsound.
  pose proof (reachable_complete _ _ _ HL) as Hcomplete.
  pose proof (reachable_self _ _ _ _ HL) as Hself.
  destruct (reachable_graph _ _ _ HL) as [_ Hacyclic].
  assert (∀ a b, id_of b ∈ promotion_set L (sort_name a) →
                 id_of a ∈ promotion_set L (sort_name b) → False) as Hasym.
  { intros a b [_ Hab]%Hsound [_ Hba]%Hsound.
    apply (Hacyclic (sort_name a)). by etrans. }
  split_and!.
  - intros a. apply is_subtype_true. by left.
  - intros a b c. rewrite !is_subtype_true.
    intros [Hab|Hab] [Hbc|Hbc].
    + left. congruence.
    + right. injection Hab as Hl Hn. by rewrite Hn.
    + right. by rewrite <- Hbc.
    + right. destruct (Hsound _ _ Hab) as [_ Htab].
      destruct (Hsound _ _ Hbc) as [Hlc Htbc].
      assert (id_of c = (self L, sort_name c)) as -> by (by rewrite <- Hlc).
      apply Hcomplete. by etrans.
  - intros a b. rewrite !is_subtype_true.
    intros [Hab|Hab] [Hba|Hba]; [done..|]. by destruct (Hasym a b).
  - intros a b. rewrite !is_strict_subtype_result.
    intros [= Hab%bool_decide_eq_true]. split.
    + intros Hn. destruct (Hsound _ _ Hab) as [_ Htc].
      apply (Hacyclic (sort_name a)). simpl in Htc. by rewrite <- Hn in Htc.
    + f_equal. apply bool_decide_eq_false. intros Hba. by apply (Hasym a b).
Qed.

(** X18 at a language with [item] below [Natural]. *)
Lemma partial_order_witness :
  let L := after (CallSort "item" (Some [natural_sort 0])) (language 0 "L") in
  let item := mkSort "item" 0 false None in
  reachable_by registers_only 0 "L" L
  ∧ fst (is_subtype item (real_sort 0) L) = Ok true
  ∧ fst (is_strict_subtype (natural_sort 0) item L) = Ok false.
Proof.
  intros L item.
  assert (reachable_by registers_only 0 "L" L) as HL.
  { apply reachable_call; [apply reachable_init|].
    apply Forall_singleton. intros _. vm_compute. eauto. }
  destruct (subtyping_is_a_partial_order 0 "L" L HL)
    as (_ & Htrans & _ & Hstrict).
  split_and!; [exact HL | |].
  - apply (Htrans item (natural_sort 0) (real_sort 0));
      vm_compute; reflexivity.
  - apply (Hstrict item (natural_sort 0)). vm_compute. reflexivity.
Defined.

Lemma are_vertically_related_result t1 t2 L :
  fst (are_vertically_related t1 t2 L)
  = Ok ((sort_eqb t1 t2
         || bool_decide (id_of t2 ∈ promotion_set L (sort_name t1)))
        || (sort_eqb t2 t1
            || bool_decide (id_of t1 ∈ promotion_set L (sort_name t2)))).
Proof.
  unfold are_vertically_related. rewrite run_bind.
  pose proof (is_subtype_result t1 t2 L) as Hup.
  destruct (reads_as_is_subtype t1 t2 L) as (_ & _ & Hsame).
  destruct (is_subtype t1 t2 L) as [[up|e] L1]; simpl in *; [|done].
  injection Hup as Hup. rewrite <- Hup. destruct up; simpl; [done|].
  by rewrite is_subtype_result, Hsame.
Qed.

(** X19: [are_vertically_related] answers the same for both orders of its
    arguments, and [True] exactly when [is_subtype] does for one of the
    orders, although its first query may add a key to the promotions
    table before the second reads it.  A sort is a subtype of itself and
    related to itself, and these two calls leave the language exactly as it
    was. *)
Theorem vertical_relation_is_symmetric (t1 t2 : Sort)
    (L : FirstOrderLanguage) :
  fst (are_vertically_related t1 t2 L) = fst (are_vertically_related t2 t1 L)
  ∧ (fst (are_vertically_related t1 t2 L) = Ok true
     ↔ fst (is_subtype t1 t2 L) = Ok true
       ∨ fst (is_subtype t2 t1 L) = Ok true)
  ∧ is_subtype t1 t1 L = (Ok true, L)
  ∧ are_vertically_related t1 t1 L = (Ok true, L).
Proof.
  assert (sort_eqb t1 t1 = true) as Hrefl by (by apply bool_decide_eq_true).
  split_and!.
  - rewrite !are_vertically_related_result. f_equal. apply orb_comm.
  - rewrite are_vertically_related_result, !is_subtype_result. split.
    + intros [= [H|H]%orb_true_iff]; rewrite H; auto.
    + intros [[= H]|[= H]]; rewrite H; [done|]. by rewrite orb_true_r.
  - unfold is_subtype. by rewrite Hrefl.
  - unfold are_vertically_related, is_subtype. rewrite Hrefl. by run.
Qed.

(** ** The constructor *)

Lemma built_names this nm k :
  is_Some (_sorts (built this nm) !! k) ↔ k ∈ builtin_names.
Proof.
  unfold built, builtin_names. simpl.
  rewrite !lookup_insert_is_Some, lookup_empty, !elem_of_cons, elem_of_nil.
  split.
  - intros [->|[_ [->|[_ [->|[_ [->|[_ []%is_Some_None]]]]]]]]; auto.
  - intros [->|[->|[->|[->|[]]]]];
      repeat first [by left | right; split; [done|]].
Qed.

(** X1: for every identity and name the constructor returns, and the
    language it leaves holds exactly the four sorts [object], [Real],
    [Integer] and [Natural]: the root a plain sort, the three numeric ones
    builtin intervals of this language stored under their names.  Its
    edges are exactly those of the numeric tower, its promotion sets are
    exactly what these edges reach, and every other registry is empty. *)
Theorem constructor_builds_the_builtin_sorts (this : lang_id) (nm : string) :
  let L := language this nm in
  __init__ this nm = (Ok tt, L)
  ∧ self L = this ∧ name L = nm
  ∧ (∀ k, is_Some (_sorts L !! k) ↔ k ∈ builtin_names)
  ∧ _sorts L !! "object" = Some (mkSort "object" this false None)
  ∧ Forall (λ k, ∃ s, _sorts L !! k = Some s ∧ sort_name s = k
                      ∧ sort_language s = this ∧ sort_builtin s = true
                      ∧ is_Some (sort_interval s))
           numeric_names
  ∧ (∀ x y, edge (_sort_hierarchy L) x y ↔ (x, y) ∈ builtin_edges)
  ∧ (∀ k i, i ∈ promotion_set L k
            ↔ i.1 = this ∧ tc (edge (_sort_hierarchy L)) k i.2)
  ∧ _predicates L = ∅ ∧ _functions L = ∅ ∧ _constants L = ∅
  ∧ _operators L = ∅ ∧ _variables L = []
  ∧ language_components_frozen L = false ∧ theories L = [].
Proof.
  intros L. subst L. rewrite init_built, language_built.
  destruct (built_sorts this nm) as (Ho & Hr & Hi & Hn).
  split_and!;
    [reflexivity | reflexivity | reflexivity | | | | | |reflexivity..].
  - apply built_names.
  - exact Ho.
  - unfold numeric_names.
    repeat apply Forall_cons_2; [..|apply Forall_nil_2]; eexists;
      (split; [eassumption|]); split_and!; try reflexivity;
      by eexists.
  - intros x y. unfold edge, built, builtin_edges. simpl.
    rewrite !elem_of_union, !elem_of_singleton, elem_of_empty.
    rewrite !elem_of_cons, elem_of_nil. tauto.
  - intros k i. split.
    + apply sound_built.
    + intros [Hi' Htc]. destruct i as [l y]. simpl in *. subst l.
      by apply complete_built.
Qed.

(** X2: whatever calls were made, returning or raising, the properties
    [Object], [Real], [Integer] and [Natural] return the sorts the
    constructor built and never raise [KeyError]; identity and name are
    those given to the constructor; a registration under one of the four
    names raises [DuplicateSortDefinition] and changes nothing; and the
    property [sort_hierarchy] still holds the edges of the numeric
    tower. *)
Theorem builtin_sorts_persist (this : lang_id) (nm : string)
    (L : FirstOrderLanguage) :
  reachable this nm L →
  self L = this ∧ name L = nm
  ∧ Object L = (Ok (object_sort this), L)
  ∧ Real L = (Ok (real_sort this), L)
  ∧ Integer L = (Ok (integer_sort this), L)
  ∧ Natural L = (Ok (natural_sort this), L)
  ∧ (∀ k supers, k ∈ builtin_names →
       ∃ s, sort k supers L = (Raise (DuplicateSortDefinition k s), L))
  ∧ (∀ e, e ∈ builtin_edges → e ∈ sort_hierarchy L).
Proof.
  intros HL. destruct (reachable_sorts _ _ _ _ HL) as (Ho & Hr & Hi & Hn).
  pose proof (reachable_by_extends _ _ _ _ HL) as Hext.
  rewrite language_built in Hext.
  split_and!.
  - by eapply reachable_self.
  - by rewrite (ext_name _ _ Hext).
  - unfold Object, sorts_item. run. by rewrite Ho.
  - unfold Real, sorts_item. run. by rewrite Hr.
  - unfold Integer, sorts_item. run. by rewrite Hi.
  - unfold Natural, sorts_item. run. by rewrite Hn.
  - intros k supers. unfold builtin_names.
    rewrite !elem_of_cons, elem_of_nil.
    intros [->|[->|[->|[->|[]]]]]; eexists; by apply sort_duplicate.
  - intros e He. apply (ext_hierarchy _ _ Hext). revert He.
    unfold builtin_edges. rewrite !elem_of_cons, elem_of_nil. simpl.
    rewrite !elem_of_union, !elem_of_singleton. tauto.
Qed.

(** X2 at a language on which a sort was registered and the root was given
    a parent by the client. *)
Lemma builtin_sorts_persist_witness :
  let L := after (CallSetParent (object_sort 0) (natural_sort 0))
             (after (CallSort "item" None) (language 0 "L")) in
  reachable 0 "L" L
  ∧ Real L = (Ok (real_sort 0), L)
  ∧ ("Integer", "Real") ∈ sort_hierarchy L.
Proof.
  intros L.
  assert (reachable 0 "L" L) as HL.
  { apply reachable_call; [apply reachable_call; [apply reachable_init|]|];
      exact I. }
  destruct (builtin_sorts_persist 0 "L" L HL)
    as (_ & _ & _ & Hreal & _ & _ & _ & Hedges).
  split_and!; [exact HL | exact Hreal |].
  apply Hedges. apply list_elem_of_further, list_elem_of_here.
Defined.

(** ** Registering and dispatching operators *)

(** X20: [register_operator_handler] never raises and writes the operator
    table only.  Dispatching on the triple just registered applies the
    handler registered: its value is returned, a [KeyError] it raises
    becomes a [LanguageError], any other exception passes through.  A
    second registration on a triple replaces the first, and dispatching on
    any other triple gives what it gave before. *)
Theorem registered_handler_is_dispatched (operator : string) (t1 t2 : Sort)
    (h h0 : handler) (lhs rhs : PyNum) (L : FirstOrderLanguage) :
  let key := (operator, id_of t1, id_of t2) in
  let L' := snd (register_operator_handler operator t1 t2 h L) in
  register_operator_handler operator t1 t2 h L
  = (Ok tt, with_operators <[ key := h ]> L)
  ∧ dispatch_operator operator t1 t2 lhs rhs L'
    = (match h lhs rhs with
       | Ok v => Ok v
       | Raise KeyError => Raise LanguageError
       | Raise e => Raise e
       end, L')
  ∧ snd (register_operator_handler operator t1 t2 h
           (snd (register_operator_handler operator t1 t2 h0 L))) = L'
  ∧ (∀ op u1 u2,
       (op, id_of u1, id_of u2) ≠ key →
       dispatch_operator op u1 u2 lhs rhs L'
       = (fst (dispatch_operator op u1 u2 lhs rhs L), L')).
Proof.
  intros key L'. split_and!.
  - done.
  - unfold dispatch_operator. run. rewrite lookup_insert_eq.
    by destruct (h lhs rhs) as [v|[]].
  - subst L'. unfold register_operator_handler, modify, with_operators.
    simpl. by rewrite insert_insert_eq.
  - intros op u1 u2 Hne. unfold dispatch_operator. run.
    rewrite lookup_insert_ne by done.
    destruct (_operators L !! (op, id_of u1, id_of u2)) as [g|]; [|done].
    by destruct (g lhs rhs) as [v|[]].
Qed.


(** ** Listing the symbols *)

Lemma NoDup_values {A : Type} (key : A → string) (m : gmap string A) :
  (∀ k x, m !! k = Some x → key x = k) →
  NoDup (map_to_list m).*2.
Proof.
  intros Hkey. apply NoDup_fmap_2_strong; [|apply NoDup_map_to_list].
  intros [k1 x1] [k2 x2] H1%elem_of_map_to_list H2%elem_of_map_to_list.
  simpl. intros <-. f_equal.
  by rewrite <- (Hkey _ _ H1), <- (Hkey _ _ H2).
Qed.

Lemma elem_of_values {A : Type} (key : A → string) (m : gmap string A) x :
  (∀ k x, m !! k = Some x → key x = k) →
  x ∈ (map_to_list m).*2 ↔ m !! key x = Some x.
Proof.
  intros Hkey. rewrite list_elem_of_fmap. split.
  - intros ([k y] & -> & Hy%elem_of_map_to_list). simpl.
    by rewrite (Hkey _ _ Hy).
  - intros Hx. exists (key x, x). split; [done|].
    by apply elem_of_map_to_list.
Qed.

(** X22: in every state a language can be in, the properties [predicates]
    and [functions] list every symbol held exactly once: the lists have no
    duplicates, as many items as the registries have keys, and an item is
    listed exactly when it is stored under its own name. *)
Theorem symbols_are_listed_once (this : lang_id) (nm : string)
    (L : FirstOrderLanguage) :
  reachable this nm L →
  NoDup (predicates L) ∧ NoDup (functions L)
  ∧ length (predicates L) = size (_predicates L)
  ∧ length (functions L) = size (_functions L)
  ∧ (∀ p, p ∈ predicates L ↔ _predicates L !! pred_name p = Some p)
  ∧ (∀ f, f ∈ functions L ↔ _functions L !! func_name f = Some f).
Proof.
  intros HL. destruct (reachable_registry _ _ _ _ HL) as [_ (HP & HF & _)].
  assert (∀ k p, _predicates L !! k = Some p → pred_name p = k) as HPn.
  { intros k p Hk. by destruct (HP k p Hk). }
  assert (∀ k f, _functions L !! k = Some f → func_name f = k) as HFn.
  { intros k f Hk. by destruct (HF k f Hk). }
  unfold predicates, functions. split_and!.
  - by apply (NoDup_values pred_name).
  - by apply (NoDup_values func_name).
  - by rewrite length_fmap, length_map_to_list.
  - by rewrite length_fmap, length_map_to_list.
  - intros p. by apply elem_of_values.
  - intros f. by apply elem_of_values.
Qed.

(** X22 at a language with two predicates. *)
Lemma symbols_are_listed_once_witness :
  let L := after (CallPredicate "le" [ObjStr "Integer"; ObjStr "Integer"])
             (after (CallPredicate "heavy" [ObjStr "object"])
                (language 0 "L")) in
  reachable 0 "L" L ∧ NoDup (predicates L) ∧ length (predicates L) = 2.
Proof.
  intros L.
  assert (reachable 0 "L" L) as HL.
  { apply reachable_call; [apply reachable_call; [apply reachable_init|]|];
      exact I. }
  destruct (symbols_are_listed_once 0 "L" L HL) as (Hnodup & _ & Hlen & _).
  split_and!; [exact HL | exact Hnodup |].
  rewrite Hlen. vm_compute. reflexivity.
Defined.

(** ** The description of a language *)

Lemma size_built_sorts this nm : size (_sorts (built this nm)) = 4.
Proof.
  unfold built. simpl.
  rewrite !map_size_insert_None, map_size_empty; [done|..];
    by rewrite ?lookup_insert_ne by done.
Qed.

(** X23: in every state a language can be in, [__str__] gives the name the
    constructor was given, the number of sorts, which is at least four and
    grows by one with every registration on a free name, the numbers of
    items that [functions] and [predicates] list, and always
    [0 variables]. *)
Theorem description_counts_the_registries (this : lang_id) (nm : string)
    (L : FirstOrderLanguage) :
  reachable this nm L →
  __str__ L
  = nm +:+ ": Tarski language with " +:+ str_of_len (size (_sorts L))
    +:+ " sorts, " +:+ str_of_len (length (functions L))
    +:+ " function symbols, " +:+ str_of_len (length (predicates L))
    +:+ " predicate symbols and 0 variables"
  ∧ 4 ≤ size (_sorts L)
  ∧ (∀ n supers, _sorts L !! n = None →
       size (_sorts (snd (sort n supers L))) = S (size (_sorts L)))
  ∧ __str__ (language this nm)
    = nm +:+ ": Tarski language with 4 sorts, 0 function symbols, "
      +:+ "0 predicate symbols and 0 variables".
Proof.
  intros HL. pose proof (reachable_by_extends _ _ _ _ HL) as Hext.
  rewrite language_built in *.
  split_and!.
  - unfold __str__, predicates, functions.
    rewrite (reachable_variables _ _ _ _ HL), (ext_name _ _ Hext).
    by rewrite !length_fmap, !length_map_to_list.
  - rewrite <- (size_built_sorts this nm).
    apply map_subseteq_size, (ext_sorts _ _ Hext).
  - intros n supers Hn. pose proof (sort_effect n supers L Hn) as H.
    rewrite H. simpl. by rewrite map_size_insert_None.
  - unfold __str__. rewrite size_built_sorts. reflexivity.
Qed.

(** X23 at a language with a sort and a predicate registered. *)
Lemma description_witness :
  let L := after (CallPredicate "heavy" [ObjStr "item"])
             (after (CallSort "item" None) (language 0 "L")) in
  reachable 0 "L" L
  ∧ __str__ L
    = "L: Tarski language with 5 sorts, 0 function symbols, 1 predicate symbols and 0 variables".
Proof.
  intros L.
  assert (reachable 0 "L" L) as HL.
  { apply reachable_call; [apply reachable_call; [apply reachable_init|]|];
      exact I. }
  split; [exact HL|].
  rewrite (proj1 (description_counts_the_registries 0 "L" L HL)).
  vm_compute. reflexivity.
Defined.

(** ** The builtin symbols *)

Lemma by_value_find {A : Type} (value : A → string) (members : list A)
    (v : string) (m : A) :
  find (λ m, bool_decide (value m = v)) members = Some m → value m = v.
Proof.
  intros H. apply find_some in H as [_ H]. by apply bool_decide_eq_true in H.
Qed.

Lemma by_value_none {A : Type} (value : A → string) (members : list A)
    (v : string) :
  v ∉ value <$> members →
  find (λ m, bool_decide (value m = v)) members = None.
Proof.
  intros Hv. destruct (find _ members) as [m|] eqn:H; [|done].
  apply find_some in H as [Hin H]. apply bool_decide_eq_true in H.
  exfalso. apply Hv. rewrite <- H. apply list_elem_of_fmap_2.
  by apply list_elem_of_In.
Qed.


(** X24: [complement] returns for every predicate symbol (the table has
    an entry for every value, and every entry is the value of a member);
    the complement differs from the symbol, its complement is the symbol
    again, and it is an equality predicate exactly when the symbol is one
    and an arithmetic predicate exactly when the symbol is one, every
    symbol being in exactly one of the two lists. *)
Theorem complement_is_an_involution (p : BuiltinPredicateSymbol.t) :
  ∃ q, BuiltinPredicateSymbol.complement p = Ok q
       ∧ q ≠ p
       ∧ BuiltinPredicateSymbol.complement q = Ok p
       ∧ (p ∈ get_equality_predicates ↔ q ∈ get_equality_predicates)
       ∧ (p ∈ get_arithmetic_predicates ↔ q ∈ get_arithmetic_predicates)
       ∧ (p ∈ get_equality_predicates ↔ p ∉ get_arithmetic_predicates).
Proof.
  destruct p; eexists; (split; [vm_compute; reflexivity|]);
    (split; [discriminate|]); (split; [vm_compute; reflexivity|]);
    apply (bool_decide_unpack _); vm_compute; exact I.
Qed.

(** X25: the table of complements is the table of negations: under the
    usual reading of the six symbols on integers, the complement of a
    symbol holds of two integers exactly when the symbol does not. *)
Theorem complement_negates (p q : BuiltinPredicateSymbol.t) (x y : Z) :
  BuiltinPredicateSymbol.complement p = Ok q →
  holds q x y = negb (holds p x y).
Proof.
  intros H. destruct p; vm_compute in H; injection H as <-; simpl.
  - done.
  - by rewrite negb_involutive.
  - by rewrite Z.geb_leb, Z.ltb_antisym, negb_involutive.
  - by rewrite Z.gtb_ltb, Z.leb_antisym, negb_involutive.
  - by rewrite Z.gtb_ltb, Z.leb_antisym.
  - by rewrite Z.geb_leb, Z.ltb_antisym.
Qed.

(** X25 for [<] and its complement [>=] at 2 and 3. *)
Lemma complement_negates_witness :
  BuiltinPredicateSymbol.complement BuiltinPredicateSymbol.LT
  = Ok BuiltinPredicateSymbol.GE
  ∧ holds BuiltinPredicateSymbol.GE 2 3
    = negb (holds BuiltinPredicateSymbol.LT 2 3).
Proof.
  split; [vm_compute; reflexivity|].
  apply complement_negates. vm_compute. reflexivity.
Defined.

(** X26: [get_predicate_from_symbol] inverts [value] and [__str__] on the
    predicate symbols, returns only the member whose value it was given,
    and raises [ValueError] on every other string. *)
Theorem predicate_symbol_round_trip :
  (∀ p, get_predicate_from_symbol (BuiltinPredicateSymbol.value p) = Ok p)
  ∧ (∀ p, get_predicate_from_symbol (BuiltinPredicateSymbol.__str__ p) = Ok p)
  ∧ (∀ s p, get_predicate_from_symbol s = Ok p →
       s = BuiltinPredicateSymbol.value p)
  ∧ (∀ s, s ∉ ["="; "!="; "<"; "<="; ">"; ">="] →
       get_predicate_from_symbol s = Raise ValueError).
Proof.
  split; [|split; [|split]].
  - intros []; vm_compute; reflexivity.
  - intros []; vm_compute; reflexivity.
  - intros s p. unfold get_predicate_from_symbol,
      BuiltinPredicateSymbol.by_value.
    destruct (find _ _) as [m|] eqn:H; [|done].
    intros [= ->]. symmetry. by apply by_value_find in H.
  - intros s Hs. unfold get_predicate_from_symbol,
      BuiltinPredicateSymbol.by_value.
    by rewrite by_value_none.
Qed.

(** X27: [get_function_from_symbol] inverts [value] and [__str__] on the
    twenty-eight function symbols (no two members share a value, and
    lower-casing changes none), returns only the member whose value it was
    given, and raises [ValueError] on every other string. *)
Theorem function_symbol_round_trip :
  (∀ f, get_function_from_symbol (BuiltinFunctionSymbol.value f) = Ok f)
  ∧ (∀ f, get_function_from_symbol (BuiltinFunctionSymbol.__str__ f) = Ok f)
  ∧ (∀ s f, get_function_from_symbol s = Ok f →
       s = BuiltinFunctionSymbol.value f)
  ∧ (∀ s, s ∉ BuiltinFunctionSymbol.value <$> BuiltinFunctionSymbol.members →
       get_function_from_symbol s = Raise ValueError).
Proof.
  split; [|split; [|split]].
  - intros []; vm_compute; reflexivity.
  - intros []; vm_compute; reflexivity.
  - intros s p. unfold get_function_from_symbol,
      BuiltinFunctionSymbol.by_value.
    destruct (find _ _) as [m|] eqn:H; [|done].
    intros [= ->]. symmetry. by apply by_value_find in H.
  - intros s Hs. unfold get_function_from_symbol,
      BuiltinFunctionSymbol.by_value.
    by rewrite by_value_none.
Qed.

(** X28: the six lists of function symbols have no symbol in common and
    none twice; the symbols in none of them are [MATMUL], [KRON], [DIRAC],
    [BERNOULLI], [DISCRETE] and [POISSON]; there is no random unary
    function. *)
Theorem function_symbols_are_classified_once :
  NoDup classified_functions
  ∧ (∀ f, f ∈ classified_functions ↔ f ∉ unclassified_functions)
  ∧ get_random_unary_functions = [].
Proof.
  split; [|split; [|done]].
  - apply (bool_decide_unpack _). vm_compute. exact I.
  - intros f. apply (bool_decide_unpack _). destruct f; vm_compute; exact I.
Qed.
